(** * secp256k1-zkp: the public API of [secp256k1.c]

    A shallow embedding of the entry points of [src/secp256k1.c]: ECDSA
    signing and verification, public-key creation, private-key and
    public-key tweaking, and the Pedersen commitment primitives.

    The entry points are translated from the C source.  The arithmetic
    they call ([scalar_impl.h], [group_impl.h], [ecdsa_impl.h],
    [eckey_impl.h], ...) is not part of [secp256k1.c]; it is modelled
    from the specification, and every such definition says so.

    - Scalars are integers modulo the group order [secp256k1_n], which is
      proved prime below from a Pratt certificate.
    - Byte buffers are [list byte]; a buffer that the C code reads through a
      pointer of known size is a list of that length.
    - The curve group is a record [curve] of operations; theorems that need
      the group laws assume [curve_laws].  Two instances are given:
      [secp256k1_curve], the affine arithmetic over the field prime, which
      is used to evaluate the model, and [dlog_curve], the same group in
      logarithmic coordinates, for which the laws are proved.
    - The RFC 6979 HMAC-SHA256 generator is an oracle record. *)

From Stdlib Require Import ZArith Lia List Bool Zpow_facts.
From Stdlib Require Import Zmod.Zstar.
From Bignums Require Import BigZ.
From coqutil Require Import Byte Word.LittleEndianList.
Import ListNotations.
Local Open Scope Z_scope.

(* ================================================================= *)
(** * Part I: definitions *)
(* ================================================================= *)

(* ----------------------------------------------------------------- *)
(** ** Modular exponentiation and primality certificates *)

(** Square-and-multiply on machine-word integers, so that 256-bit
    exponentiations evaluate quickly. *)
Fixpoint big_pow_mod_pos (a : bigZ) (e : positive) (m : bigZ) : bigZ :=
  match e with
  | xH => BigZ.modulo a m
  | xO e' => let z := big_pow_mod_pos a e' m in BigZ.modulo (BigZ.mul z z) m
  | xI e' => let z := big_pow_mod_pos a e' m in
             BigZ.modulo (BigZ.mul (BigZ.modulo (BigZ.mul z z) m) a) m
  end.

(** [pow_mod a e m] is [a ^ e mod m] for [0 <= e]. *)
Definition pow_mod (a e m : Z) : Z :=
  match e with
  | Zpos k => BigZ.to_Z (big_pow_mod_pos (BigZ.of_Z a) k (BigZ.of_Z m))
  | _ => 1 mod m
  end.

(** A Pratt certificate entry: a number [q], a primitive root of [q], and
    the prime factorisation of [q - 1] as (prime, exponent) pairs. *)
Definition pratt_entry := (Z * Z * list (Z * Z))%type.

Definition factored (fs : list (Z * Z)) : Z :=
  fold_right (fun re acc => fst re ^ snd re * acc) 1 fs.

Definition check_entry (known : list Z) (e : pratt_entry) : bool :=
  let '(q, g, fs) := e in
  (2 <=? q) && (factored fs =? q - 1) && (pow_mod g (q - 1) q =? 1) &&
  forallb (fun re => (0 <=? snd re) && existsb (Z.eqb (fst re)) known &&
                     (0 <=? (q - 1) / fst re) &&
                     negb (pow_mod g ((q - 1) / fst re) q =? 1)) fs.

Fixpoint check_pratt (known : list Z) (c : list pratt_entry) : bool :=
  match c with
  | [] => true
  | e :: c' => check_entry known e && check_pratt (fst (fst e) :: known) c'
  end.

(* ----------------------------------------------------------------- *)
(** ** Curve constants *)

(** The order of the secp256k1 group. *)
Definition secp256k1_n : Z :=
  0xFFFFFFFFFFFFFFFFFFFFFFFFFFFFFFFEBAAEDCE6AF48A03BBFD25E8CD0364141.

(** The field prime p = 2^256 - 2^32 - 977. *)
Definition secp256k1_p : Z := 2 ^ 256 - 2 ^ 32 - 977.

(** Pratt certificate for [secp256k1_n], smallest prime first. *)
Definition order_certificate : list pratt_entry :=
  [
     (3, 2,
      [(2, 1)]);
     (5, 2,
      [(2, 2)]);
     (7, 3,
      [(2, 1); (3, 1)]);
     (11, 2,
      [(2, 1); (5, 1)]);
     (13, 2,
      [(2, 2); (3, 1)]);
     (17, 3,
      [(2, 4)]);
     (19, 2,
      [(2, 1); (3, 2)]);
     (23, 5,
      [(2, 1); (11, 1)]);
     (29, 2,
      [(2, 2); (7, 1)]);
     (37, 2,
      [(2, 2); (3, 2)]);
     (41, 6,
      [(2, 3); (5, 1)]);
     (59, 2,
      [(2, 1); (29, 1)]);
     (67, 2,
      [(2, 1); (3, 1); (11, 1)]);
     (73, 5,
      [(2, 3); (3, 2)]);
     (97, 5,
      [(2, 5); (3, 1)]);
     (109, 6,
      [(2, 2); (3, 3)]);
     (113, 3,
      [(2, 4); (7, 1)]);
     (149, 2,
      [(2, 2); (37, 1)]);
     (199, 3,
      [(2, 1); (3, 2); (11, 1)]);
     (293, 2,
      [(2, 2); (73, 1)]);
     (461, 2,
      [(2, 2); (5, 1); (23, 1)]);
     (631, 3,
      [(2, 1); (3, 2); (5, 1); (7, 1)]);
     (797, 2,
      [(2, 2); (199, 1)]);
     (1409, 3,
      [(2, 7); (11, 1)]);
     (1871, 14,
      [(2, 1); (5, 1); (11, 1); (17, 1)]);
     (2011, 3,
      [(2, 1); (3, 1); (5, 1); (67, 1)]);
     (2731, 3,
      [(2, 1); (3, 1); (5, 1); (7, 1); (13, 1)]);
     (2861, 2,
      [(2, 2); (5, 1); (11, 1); (13, 1)]);
     (4051, 10,
      [(2, 1); (3, 4); (5, 2)]);
     (9349, 2,
      [(2, 2); (3, 1); (19, 1); (41, 1)]);
     (16699, 3,
      [(2, 1); (3, 1); (11, 2); (23, 1)]);
     (28181, 2,
      [(2, 2); (5, 1); (1409, 1)]);
     (85831, 3,
      [(2, 1); (3, 1); (5, 1); (2861, 1)]);
     (120233, 3,
      [(2, 3); (7, 1); (19, 1); (113, 1)]);
     (305873, 3,
      [(2, 4); (7, 1); (2731, 1)]);
     (1627771, 3,
      [(2, 1); (3, 1); (5, 1); (29, 1); (1871, 1)]);
     (4681609, 23,
      [(2, 3); (3, 1); (97, 1); (2011, 1)]);
     (44706919, 6,
      [(2, 1); (3, 1); (797, 1); (9349, 1)]);
     (545358713, 5,
      [(2, 3); (41, 1); (59, 1); (28181, 1)]);
     (297159362677, 2,
      [(2, 2); (3, 2); (11, 1); (461, 1); (1627771, 1)]);
     (107361793816595537, 3,
      [(2, 4); (16699, 1); (85831, 1); (4681609, 1)]);
     (174723607534414371449, 3,
      [(2, 3); (17, 1); (59, 1); (4051, 1); (120233, 1); (44706919, 1)]);
     (29047611873442575647497758179, 2,
      [(2, 1); (293, 1); (305873, 1); (545358713, 1); (297159362677, 1)]);
     (341948486974166000522343609283189, 2,
      [(2, 2); (3, 3); (109, 1); (29047611873442575647497758179, 1)]);
     (115792089237316195423570985008687907852837564279074904382605163141518161494337, 7,
      [(2, 6); (3, 1); (149, 1); (631, 1); (107361793816595537, 1); (174723607534414371449, 1); (341948486974166000522343609283189, 1)])
  ].

(* ----------------------------------------------------------------- *)
(** ** Byte strings *)

(** Big-endian value of a byte string, and the [k]-byte big-endian encoding
    of an integer (truncated to [8 * k] bits). *)
Definition be_combine (bs : list byte) : Z := le_combine (rev bs).
Definition be_split (k : nat) (z : Z) : list byte := rev (le_split k z).

(* ----------------------------------------------------------------- *)
(** ** Scalars ([scalar_impl.h]) *)

(** Modelled from the spec: [secp256k1_scalar_t] is missing from the
    source; the spec gives "an integer in [0, n) ... always canonical". *)
Definition secp256k1_scalar_t := Z.

(** Modelled from the spec: [secp256k1_scalar_set_b32] is missing; "set
    32-byte big-endian with overflow flag ... Overflow on input from 32
    bytes is reported but the value is still reduced mod n".  Returns the
    scalar and the overflow flag. *)
Definition secp256k1_scalar_set_b32 (b32 : list byte) : secp256k1_scalar_t * bool :=
  let v := be_combine b32 in (v mod secp256k1_n, secp256k1_n <=? v).

(** Modelled from the spec: [secp256k1_scalar_get_b32] is missing; "get
    32-byte big-endian". *)
Definition secp256k1_scalar_get_b32 (a : secp256k1_scalar_t) : list byte :=
  be_split 32 a.

(** Modelled from the spec: [secp256k1_scalar_set_int] is missing. *)
Definition secp256k1_scalar_set_int (v : Z) : secp256k1_scalar_t := v mod secp256k1_n.

(** Modelled from the spec: [secp256k1_scalar_is_zero] is missing. *)
Definition secp256k1_scalar_is_zero (a : secp256k1_scalar_t) : bool := a =? 0.

(** Modelled from the spec: [secp256k1_scalar_is_high] is missing;
    "is_high (>= ceil(n/2))". *)
Definition secp256k1_scalar_is_high (a : secp256k1_scalar_t) : bool :=
  (secp256k1_n + 1) / 2 <=? a.

(** Modelled from the spec: [secp256k1_scalar_negate], [_add] and [_mul]
    are missing; "modular arithmetic mod curve order n". *)
Definition secp256k1_scalar_negate (a : secp256k1_scalar_t) : secp256k1_scalar_t :=
  (- a) mod secp256k1_n.
Definition secp256k1_scalar_add (a b : secp256k1_scalar_t) : secp256k1_scalar_t :=
  (a + b) mod secp256k1_n.
Definition secp256k1_scalar_mul (a b : secp256k1_scalar_t) : secp256k1_scalar_t :=
  (a * b) mod secp256k1_n.

(** Modelled from the spec: [secp256k1_scalar_inverse] is missing;
    "inverse (Fermat-style over n)", that is a^(n-2) mod n. *)
Definition secp256k1_scalar_inverse (a : secp256k1_scalar_t) : secp256k1_scalar_t :=
  pow_mod a (secp256k1_n - 2) secp256k1_n.

(* ----------------------------------------------------------------- *)
(** ** Field elements and group elements ([field_impl.h], [group_impl.h]) *)

(** Modelled from the spec: [secp256k1_fe_set_b32] is missing; "set_b32
    reports overflow iff x >= p".  [None] is the overflow result. *)
Definition secp256k1_fe_set_b32 (b32 : list byte) : option Z :=
  let v := be_combine b32 in if v <? secp256k1_p then Some v else None.

(** Modelled from the spec: [secp256k1_fe_get_b32] is missing. *)
Definition secp256k1_fe_get_b32 (a : Z) : list byte := be_split 32 a.

(** Modelled from the spec: the group arithmetic of [group_impl.h] is
    missing.  A group element is "either infinity or a pair (x, y) of field
    elements satisfying y^2 = x^3 + 7"; the Jacobian form represents the
    same points, so [secp256k1_ge_t] and [secp256k1_gej_t] share one type
    [ge] here and [secp256k1_ge_set_gej] is the identity.  The record
    collects the operations the entry points use. *)
Record curve : Type := {
  ge : Type;
  ge_infinity : ge;                          (* secp256k1_gej_set_infinity *)
  ge_is_infinity : ge -> bool;               (* secp256k1_gej_is_infinity *)
  ge_is_valid_var : ge -> bool;              (* finite and on the curve *)
  ge_neg : ge -> ge;                         (* secp256k1_gej_neg *)
  ge_add : ge -> ge -> ge;                   (* secp256k1_gej_add_ge_var *)
  ge_x : ge -> Z;                            (* normalised affine x *)
  ge_y : ge -> Z;                            (* normalised affine y *)
  ge_set_xy : Z -> Z -> ge;                  (* secp256k1_ge_set_xy *)
  ge_set_xo_var : Z -> bool -> option ge;    (* secp256k1_ge_set_xo_var *)
  ge_const_g : ge;                           (* the generator G *)
  ge_const_g2 : ge                           (* the value generator H *)
}.

Section Curve.
Variable C : curve.

(** Scalar multiplication by double-and-add; a negative multiplier negates
    the result. *)
Definition ge_mul (k : Z) (a : ge C) : ge C :=
  match k with
  | Z0 => ge_infinity C
  | Zpos m => Pos.iter_op (ge_add C) m a
  | Zneg m => ge_neg C (Pos.iter_op (ge_add C) m a)
  end.

(** The [k]-fold sum a + (a + ... (a + inf)), the reference for [ge_mul]. *)
Definition ge_mul_nat (k : nat) (a : ge C) : ge C :=
  Nat.iter k (ge_add C a) (ge_infinity C).

(** Sum of a list of group elements. *)
Definition ge_sum (l : list (ge C)) : ge C :=
  fold_right (ge_add C) (ge_infinity C) l.

(** Membership in the group: the point at infinity or a point on the
    curve. *)
Definition ge_in_group (a : ge C) : Prop :=
  ge_is_infinity C a = true \/ ge_is_valid_var C a = true.

(** The laws of the secp256k1 group that the proofs below rely on: an
    abelian group on the curve points, in which G has order [secp256k1_n],
    with affine coordinates below the field prime that determine the
    point. *)
Record curve_laws : Prop := {
  is_infinity_spec : forall a, ge_is_infinity C a = true <-> a = ge_infinity C;
  infinity_not_valid : ge_is_valid_var C (ge_infinity C) = false;
  g_valid : ge_is_valid_var C (ge_const_g C) = true;
  g2_valid : ge_is_valid_var C (ge_const_g2 C) = true;
  add_in_group : forall a b, ge_in_group a -> ge_in_group b -> ge_in_group (ge_add C a b);
  neg_in_group : forall a, ge_in_group a -> ge_in_group (ge_neg C a);
  add_comm : forall a b, ge_in_group a -> ge_in_group b -> ge_add C a b = ge_add C b a;
  add_assoc : forall a b c, ge_in_group a -> ge_in_group b -> ge_in_group c ->
      ge_add C a (ge_add C b c) = ge_add C (ge_add C a b) c;
  add_infinity_l : forall a, ge_in_group a -> ge_add C (ge_infinity C) a = a;
  add_neg_r : forall a, ge_in_group a -> ge_add C a (ge_neg C a) = ge_infinity C;
  g_order : ge_mul secp256k1_n (ge_const_g C) = ge_infinity C;
  x_range : forall a, ge_is_valid_var C a = true -> 0 <= ge_x C a < secp256k1_p;
  y_range : forall a, ge_is_valid_var C a = true -> 0 <= ge_y C a < secp256k1_p;
  x_neg : forall a, ge_is_valid_var C a = true -> ge_x C (ge_neg C a) = ge_x C a;
  set_xy_coordinates : forall a, ge_is_valid_var C a = true ->
      ge_set_xy C (ge_x C a) (ge_y C a) = a;
  set_xo_coordinates : forall a, ge_is_valid_var C a = true ->
      ge_set_xo_var C (ge_x C a) (Z.odd (ge_y C a)) = Some a;
  set_xo_valid : forall x odd a, ge_set_xo_var C x odd = Some a ->
      ge_is_valid_var C a = true
}.

(* ----------------------------------------------------------------- *)
(** ** Scalar multiplication engines ([ecmult_impl.h], [ecmult_gen_impl.h]) *)

(** Modelled from the spec: [secp256k1_ecmult_gen_context_t] is missing;
    "generator-G comb table plus a blinding scalar and blinded initial
    point".  The table is not state; the blinding is. *)
Record secp256k1_ecmult_gen_context_t : Type := {
  blind : secp256k1_scalar_t;
  initial : ge C
}.

(** The context of [secp256k1.c].  The verification, commitment and range
    proof sub-contexts hold precomputed tables only and are left out. *)
Record secp256k1_context_t : Type := {
  ecmult_gen_ctx : secp256k1_ecmult_gen_context_t
}.

(** Modelled from the spec: the context build is missing; "chooses a
    uniformly random scalar blind and precomputes initial = -blind*G".
    [b] is the scalar chosen. *)
Definition secp256k1_ecmult_gen_context_build (b : secp256k1_scalar_t)
  : secp256k1_ecmult_gen_context_t :=
  {| blind := b mod secp256k1_n;
     initial := ge_neg C (ge_mul (b mod secp256k1_n) (ge_const_g C)) |}.

(** What [secp256k1_ecmult_gen_context_is_built] asserts of a context. *)
Definition secp256k1_ecmult_gen_context_is_built (ctx : secp256k1_ecmult_gen_context_t) : Prop :=
  0 <= blind ctx < secp256k1_n /\
  initial ctx = ge_neg C (ge_mul (blind ctx) (ge_const_g C)).

(** Modelled from the spec: [secp256k1_ecmult_gen] is missing; "Signing
    computes (s + blind)*G starting from initial". *)
Definition secp256k1_ecmult_gen (ctx : secp256k1_ecmult_gen_context_t)
  (a : secp256k1_scalar_t) : ge C :=
  ge_add C (initial ctx) (ge_mul (secp256k1_scalar_add a (blind ctx)) (ge_const_g C)).

(** Modelled from the spec: [secp256k1_ecmult] is missing; "Computes
    R = a*A + b*G". *)
Definition secp256k1_ecmult (a : ge C) (na ng : secp256k1_scalar_t) : ge C :=
  ge_add C (ge_mul na a) (ge_mul ng (ge_const_g C)).

(** Modelled from the spec: [secp256k1_ecmult_gen2_small] is missing; the
    multiple of H by a 64-bit value. *)
Definition secp256k1_ecmult_gen2_small (v : Z) : ge C := ge_mul v (ge_const_g2 C).

(** Modelled from the spec: [secp256k1_ecmult_gen_gen2] is missing;
    "C = blind*G + value*H via ecmult_gen + ecmult_gen2". *)
Definition secp256k1_ecmult_gen_gen2 (ctx : secp256k1_ecmult_gen_context_t)
  (sec : secp256k1_scalar_t) (value : Z) : ge C :=
  ge_add C (secp256k1_ecmult_gen ctx sec) (ge_mul value (ge_const_g2 C)).

(** Modelled from the spec: [secp256k1_sign_and_abs64] of [util.h] is
    missing; the caller's comment reads "Take the absolute value, and
    negate the result if the input was negative".  Returns the sign flag
    and the absolute value. *)
Definition secp256k1_sign_and_abs64 (v : Z) : bool * Z := (v <? 0, Z.abs v).

(* ----------------------------------------------------------------- *)
(** ** ECDSA on scalars and points ([ecdsa_impl.h]) *)

(** [secp256k1_ecdsa_sig_t]: the pair of scalars (r, s). *)
Record secp256k1_ecdsa_sig_t : Type := { sig_r : secp256k1_scalar_t; sig_s : secp256k1_scalar_t }.

(** Modelled from the spec: [secp256k1_ecdsa_sig_sign] is missing.
    the spec has "Compute R = k*G via ecmult-gen; r = R.x mod n.  If
    r = 0, [fail].  Compute s = k^-1 * (m + r*d) mod n.  If s = 0, [fail].
    Otherwise normalize to lower-S: if s is high, replace s with n - s".
    The entry points modelled here pass no recovery id.  [None] is the
    result 0. *)
Definition secp256k1_ecdsa_sig_sign (ctx : secp256k1_ecmult_gen_context_t)
  (seckey message nonce : secp256k1_scalar_t) : option secp256k1_ecdsa_sig_t :=
  let rp := secp256k1_ecmult_gen ctx nonce in
  let r := ge_x C rp mod secp256k1_n in
  if secp256k1_scalar_is_zero r then None else
  let n := secp256k1_scalar_add (secp256k1_scalar_mul r seckey) message in
  let s := secp256k1_scalar_mul (secp256k1_scalar_inverse nonce) n in
  if secp256k1_scalar_is_zero s then None else
  if secp256k1_scalar_is_high s
  then Some {| sig_r := r; sig_s := secp256k1_scalar_negate s |}
  else Some {| sig_r := r; sig_s := s |}.

(** Modelled from the spec: [secp256k1_ecdsa_sig_verify] is missing.
    "Given (r, s), m, pubkey Q: reject if r or s is zero or out of range or
    if s is high.  Compute u1 = m*s^-1, u2 = r*s^-1, R = u1*G + u2*Q via
    variable-base ecmult.  Reject if R is infinity.  Accept iff
    R.x mod n = r". *)
Definition secp256k1_ecdsa_sig_verify (sig : secp256k1_ecdsa_sig_t) (pubkey : ge C)
  (message : secp256k1_scalar_t) : bool :=
  if secp256k1_scalar_is_zero (sig_r sig) || secp256k1_scalar_is_zero (sig_s sig) then false
  else if secp256k1_scalar_is_high (sig_s sig) then false
  else
    let sn := secp256k1_scalar_inverse (sig_s sig) in
    let u1 := secp256k1_scalar_mul sn message in
    let u2 := secp256k1_scalar_mul sn (sig_r sig) in
    let pr := secp256k1_ecmult pubkey u2 u1 in
    if ge_is_infinity C pr then false
    else ge_x C pr mod secp256k1_n =? sig_r sig.

(** The DER INTEGER of a scalar: the 32-byte big-endian value behind a zero
    byte, with leading zero bytes dropped while the next byte keeps the
    number non-negative ("minimum-length, no leading zeros except to
    disambiguate sign"). *)
Fixpoint der_strip (l : list byte) : list byte :=
  match l with
  | b :: ((c :: _) as t) =>
      if (byte.unsigned b =? 0) && (byte.unsigned c <? 128) then der_strip t else l
  | _ => l
  end.

Definition der_integer (a : secp256k1_scalar_t) : list byte :=
  der_strip (Byte.x00 :: secp256k1_scalar_get_b32 a).

(** Modelled from the spec: [secp256k1_ecdsa_sig_serialize] is missing.
    "Two INTEGERs (r, s) in an outer SEQUENCE, strict canonical ... length
    bytes in short form"; the header documents the failure when there is
    "not enough space in the signature (as indicated by siglen)".  Takes the
    capacity [size]; returns the result, the bytes written and the length
    stored back in [size]. *)
Definition secp256k1_ecdsa_sig_serialize (size : Z) (a : secp256k1_ecdsa_sig_t)
  : Z * list byte * Z :=
  let rp := der_integer (sig_r a) in
  let sp := der_integer (sig_s a) in
  let lenR := Z.of_nat (length rp) in
  let lenS := Z.of_nat (length sp) in
  if size <? 6 + lenS + lenR then (0, [], 6 + lenS + lenR)
  else (1,
        [Byte.x30; byte.of_Z (4 + lenS + lenR); Byte.x02; byte.of_Z lenR] ++ rp ++
        [Byte.x02; byte.of_Z lenS] ++ sp,
        6 + lenS + lenR).

(** A DER INTEGER body that is non-negative and of minimum length. *)
Definition der_integer_ok (l : list byte) : bool :=
  match l with
  | [] => false
  | [b] => byte.unsigned b <? 128
  | b :: c :: _ =>
      (byte.unsigned b <? 128) &&
      negb ((byte.unsigned b =? 0) && (byte.unsigned c <? 128))
  end.

(** Modelled from the spec: [secp256k1_ecdsa_sig_parse] is missing.  It
    reads the encoding that [secp256k1_ecdsa_sig_serialize] writes and
    rejects an r or s that is "out of range" (not below n). *)
Definition secp256k1_ecdsa_sig_parse (sig : list byte) : option secp256k1_ecdsa_sig_t :=
  match sig with
  | t :: l :: tr :: lr :: rest =>
      let lenr := byte.unsigned lr in
      let rb := firstn (Z.to_nat lenr) rest in
      match skipn (Z.to_nat lenr) rest with
      | ts :: ls :: sb =>
          let lens := byte.unsigned ls in
          if (byte.unsigned t =? 0x30) && (byte.unsigned tr =? 0x02) &&
             (byte.unsigned ts =? 0x02) &&
             (byte.unsigned l =? 4 + lens + lenr) &&
             (Z.of_nat (length rb) =? lenr) && (Z.of_nat (length sb) =? lens) &&
             der_integer_ok rb && der_integer_ok sb
          then
            let r := be_combine rb in
            let s := be_combine sb in
            if (r <? secp256k1_n) && (s <? secp256k1_n)
            then Some {| sig_r := r; sig_s := s |}
            else None
          else None
      | _ => None
      end
  | _ => None
  end.

(* ----------------------------------------------------------------- *)
(** ** Keys ([eckey_impl.h]) *)

(** Modelled from the spec: [secp256k1_eckey_pubkey_serialize] is missing.
    "Compressed public key: 33 bytes, prefix 0x02 (even y) or 0x03 (odd y)
    then 32-byte x.  Uncompressed: 65 bytes, 0x04 || x || y"; the point at
    infinity has no encoding.  [None] is the result 0. *)
Definition secp256k1_eckey_pubkey_serialize (elem : ge C) (compressed : Z)
  : option (list byte) :=
  if ge_is_infinity C elem then None
  else if negb (compressed =? 0)
  then Some (byte.of_Z (Z.lor 0x02 (if Z.odd (ge_y C elem) then 0x01 else 0x00))
             :: secp256k1_fe_get_b32 (ge_x C elem))
  else Some (Byte.x04 :: secp256k1_fe_get_b32 (ge_x C elem)
             ++ secp256k1_fe_get_b32 (ge_y C elem)).

(** Modelled from the spec: [secp256k1_eckey_pubkey_parse] is missing.
    "Pubkey parse accepts: 33-byte compressed (0x02/0x03 prefix + x;
    decompress with even/odd y), 65-byte uncompressed (0x04 + x + y; verify
    on-curve), 65-byte hybrid (0x06/0x07 + x + y; verify on-curve AND
    matching parity)".  The size argument is the length of [pub]. *)
Definition secp256k1_eckey_pubkey_parse (pub : list byte) : option (ge C) :=
  match pub with
  | [] => None
  | h :: rest =>
      let size := Z.of_nat (length pub) in
      let hd := byte.unsigned h in
      if (size =? 33) && ((hd =? 0x02) || (hd =? 0x03)) then
        match secp256k1_fe_set_b32 rest with
        | Some x => ge_set_xo_var C x (hd =? 0x03)
        | None => None
        end
      else if (size =? 65) && ((hd =? 0x04) || (hd =? 0x06) || (hd =? 0x07)) then
        match secp256k1_fe_set_b32 (firstn 32 rest), secp256k1_fe_set_b32 (skipn 32 rest) with
        | Some x, Some y =>
            let elem := ge_set_xy C x y in
            if ((hd =? 0x06) || (hd =? 0x07)) && negb (Bool.eqb (Z.odd y) (hd =? 0x07))
            then None
            else if ge_is_valid_var C elem then Some elem else None
        | _, _ => None
        end
      else None
  end.

(** Modelled from the spec: [secp256k1_eckey_privkey_tweak_add] is missing.
    "Tweak-add on private key: d' = d + t mod n; fails if result is zero".
    Returns the result and the updated key. *)
Definition secp256k1_eckey_privkey_tweak_add (key tweak : secp256k1_scalar_t)
  : Z * secp256k1_scalar_t :=
  let key' := secp256k1_scalar_add key tweak in
  if secp256k1_scalar_is_zero key' then (0, key') else (1, key').

(** Modelled from the spec: [secp256k1_eckey_pubkey_tweak_add] is missing.
    "Tweak-add on public key: Q' = Q + t*G; fails if ... result is
    infinity".  Returns the result and the updated key. *)
Definition secp256k1_eckey_pubkey_tweak_add (key : ge C) (tweak : secp256k1_scalar_t)
  : Z * ge C :=
  let pt := secp256k1_ecmult key 1 tweak in
  if ge_is_infinity C pt then (0, key) else (1, pt).

(* ----------------------------------------------------------------- *)
(** ** The RFC 6979 generator ([hash_impl.h]) *)

(** The HMAC-SHA256 generator that [nonce_function_rfc6979] drives is
    missing from the source and "consumed as a black-box oracle": a state,
    its seeding from key, message and extra data, and the generation of 32
    bytes. *)
Record rfc6979_hmac_sha256 : Type := {
  rfc6979_hmac_sha256_t : Type;
  rfc6979_hmac_sha256_initialize :
    list byte -> list byte -> list byte -> rfc6979_hmac_sha256_t;
  rfc6979_hmac_sha256_generate :
    rfc6979_hmac_sha256_t -> rfc6979_hmac_sha256_t * list byte
}.

(** [secp256k1_nonce_function_t]: from the message, the key, the attempt
    counter and the optional data to a result and the 32 nonce bytes. *)
Definition secp256k1_nonce_function_t : Type :=
  list byte -> list byte -> Z -> option (list byte) -> Z * list byte.

(* ----------------------------------------------------------------- *)
(** ** The entry points of [secp256k1.c] *)

(** [DEBUG_CHECK] and [ARG_CHECK] come from the missing [util.h]: with
    [debug] set a failed check aborts the caller, without it the check is
    compiled out.  An aborted call has the result [None] below.  The checks
    on pointers and on the built flags of the context have nothing to test
    in this model: buffers are lists and contexts are values. *)

(** [secp256k1_ecdsa_verify], secp256k1.c lines 75-104.  [siglen] and
    [pubkeylen] are the lengths of [sig] and [pubkey]. *)
Definition secp256k1_ecdsa_verify (msg32 sig pubkey : list byte) : Z :=
  let ret := -3 in
  let m := fst (secp256k1_scalar_set_b32 msg32) in
  match secp256k1_eckey_pubkey_parse pubkey with
  | Some q =>
      match secp256k1_ecdsa_sig_parse sig with
      | Some s =>
          if secp256k1_ecdsa_sig_verify s q m
          then (* success is 1, all other values are fail *) 1
          else 0
      | None => -2
      end
  | None => -1
  end.

(** The loop [for (i = 0; i <= counter; i++)] of [nonce_function_rfc6979]:
    each round overwrites [nonce32]. *)
Fixpoint rfc6979_generate_loop (O : rfc6979_hmac_sha256) (rounds : nat)
  (rng : rfc6979_hmac_sha256_t O) (nonce32 : list byte) : list byte :=
  match rounds with
  | O => nonce32
  | S rounds' =>
      let '(rng', out) := rfc6979_hmac_sha256_generate O rng in
      rfc6979_generate_loop O rounds' rng' out
  end.

(** [nonce_function_rfc6979], secp256k1.c lines 106-115.  The extra data
    has 32 bytes when the pointer is not NULL and none otherwise. *)
Definition nonce_function_rfc6979 (O : rfc6979_hmac_sha256) : secp256k1_nonce_function_t :=
  fun msg32 key32 counter data =>
    let rng := rfc6979_hmac_sha256_initialize O key32 msg32
                 (match data with Some d => firstn 32 d | None => [] end) in
    let nonce32 := rfc6979_generate_loop O (S (Z.to_nat counter)) rng [] in
    (1, nonce32).

(** secp256k1.c lines 117-118. *)
Definition secp256k1_nonce_function_rfc6979 := nonce_function_rfc6979.
Definition secp256k1_nonce_function_default := nonce_function_rfc6979.

(** The [while (1)] loop shared by [secp256k1_ecdsa_sign] (lines 139-153)
    and [secp256k1_ecdsa_sign_ex] (lines 750-763).  [count] is an
    [unsigned int].  The result is the last value of [ret] and the
    signature when [secp256k1_ecdsa_sig_sign] produced one; [None] when the
    fuel runs out before the loop is left. *)
Fixpoint secp256k1_ecdsa_sign_loop (fuel : nat) (ctx : secp256k1_context_t)
  (noncefp : secp256k1_nonce_function_t) (msg32 seckey : list byte)
  (noncedata : option (list byte)) (sec msg : secp256k1_scalar_t) (count : Z)
  : option (Z * option secp256k1_ecdsa_sig_t) :=
  match fuel with
  | O => None
  | S fuel' =>
      let '(ret, nonce32) := noncefp msg32 seckey count noncedata in
      if ret =? 0 then Some (ret, None)
      else
        let '(non, overflow) := secp256k1_scalar_set_b32 nonce32 in
        if negb (secp256k1_scalar_is_zero non) && negb overflow then
          match secp256k1_ecdsa_sig_sign (ecmult_gen_ctx ctx) sec msg non with
          | Some sig => Some (ret, Some sig)
          | None =>
              secp256k1_ecdsa_sign_loop fuel' ctx noncefp msg32 seckey noncedata
                sec msg ((count + 1) mod 2 ^ 32)
          end
        else
          secp256k1_ecdsa_sign_loop fuel' ctx noncefp msg32 seckey noncedata
            sec msg ((count + 1) mod 2 ^ 32)
  end.

(** [secp256k1_ecdsa_sign], secp256k1.c lines 120-166.  [signaturelen] is
    the capacity passed in; the result is the return value, the bytes
    [signature[0 .. *signaturelen)] and the value left in [*signaturelen]. *)
Definition secp256k1_ecdsa_sign (O : rfc6979_hmac_sha256) (fuel : nat)
  (ctx : secp256k1_context_t) (msg32 : list byte) (signaturelen : Z)
  (seckey : list byte) (noncefp : option secp256k1_nonce_function_t)
  (noncedata : option (list byte)) : option (Z * list byte * Z) :=
  let noncefp := match noncefp with
                 | None => secp256k1_nonce_function_default O
                 | Some f => f
                 end in
  let '(sec, overflow) := secp256k1_scalar_set_b32 seckey in
  (* Fail if the secret key is invalid. *)
  if negb overflow && negb (secp256k1_scalar_is_zero sec) then
    let msg := fst (secp256k1_scalar_set_b32 msg32) in
    match secp256k1_ecdsa_sign_loop fuel ctx noncefp msg32 seckey noncedata sec msg 0 with
    | None => None
    | Some (ret, sig) =>
        let '(ret, signature, signaturelen) :=
          match sig with
          | Some sig => if ret =? 0 then (ret, [], signaturelen)
                        else secp256k1_ecdsa_sig_serialize signaturelen sig
          | None => (ret, [], signaturelen)
          end in
        if ret =? 0 then Some (ret, [], 0) else Some (ret, signature, signaturelen)
    end
  else Some (0, [], 0).

(** [secp256k1_ec_pubkey_create], secp256k1.c lines 293-316.  The result is
    the return value, the bytes written to [pubkey] and [*pubkeylen]. *)
Definition secp256k1_ec_pubkey_create (ctx : secp256k1_context_t) (seckey : list byte)
  (compressed : Z) : Z * list byte * Z :=
  let '(sec, overflow) := secp256k1_scalar_set_b32 seckey in
  let '(ret, pubkey) :=
    if negb overflow then
      let pj := secp256k1_ecmult_gen (ecmult_gen_ctx ctx) sec in
      match secp256k1_eckey_pubkey_serialize pj compressed with
      | Some pub => (1, pub)
      | None => (0, [])
      end
    else (0, []) in
  if ret =? 0 then (ret, [], 0) else (ret, pubkey, Z.of_nat (length pubkey)).

(** [secp256k1_ec_privkey_tweak_add], secp256k1.c lines 331-352.  The
    result is the return value and the contents of [seckey] afterwards. *)
Definition secp256k1_ec_privkey_tweak_add (seckey tweak : list byte) : Z * list byte :=
  let '(term, overflow) := secp256k1_scalar_set_b32 tweak in
  let sec := fst (secp256k1_scalar_set_b32 seckey) in
  let '(ok, sec) := secp256k1_eckey_privkey_tweak_add sec term in
  let ret := if negb (ok =? 0) && negb overflow then 1 else 0 in
  if negb (ret =? 0) then (ret, secp256k1_scalar_get_b32 sec) else (ret, seckey).

(** [secp256k1_pedersen_commit], secp256k1.c lines 466-491.  The result is
    the return value and the contents of [commit] afterwards. *)
Definition secp256k1_pedersen_commit (ctx : secp256k1_context_t) (commit blind : list byte)
  (value : Z) : Z * list byte :=
  let '(sec, overflow) := secp256k1_scalar_set_b32 blind in
  if negb overflow then
    let rj := secp256k1_ecmult_gen_gen2 (ecmult_gen_ctx ctx) sec value in
    if negb (ge_is_infinity C rj) then
      match secp256k1_eckey_pubkey_serialize rj 1 with
      | Some out => (1, out)
      | None => (0, commit)
      end
    else (0, commit)
  else (0, commit).

(** The loop of [secp256k1_pedersen_blind_sum] (lines 505-514); [None] is
    the early [return 0]. *)
Fixpoint secp256k1_pedersen_blind_sum_loop (blinds : list (list byte)) (i npositive : Z)
  (acc : secp256k1_scalar_t) : option secp256k1_scalar_t :=
  match blinds with
  | [] => Some acc
  | b :: blinds' =>
      let '(x, overflow) := secp256k1_scalar_set_b32 b in
      if overflow then None
      else
        let x := if npositive <=? i then secp256k1_scalar_negate x else x in
        secp256k1_pedersen_blind_sum_loop blinds' (i + 1) npositive
          (secp256k1_scalar_add acc x)
  end.

(** [secp256k1_pedersen_blind_sum], secp256k1.c lines 496-519.  [blinds]
    holds the [n] blinding factors; the result is the return value and the
    contents of [blind_out] afterwards. *)
Definition secp256k1_pedersen_blind_sum (blind_out : list byte) (blinds : list (list byte))
  (npositive : Z) : Z * list byte :=
  match secp256k1_pedersen_blind_sum_loop blinds 0 npositive (secp256k1_scalar_set_int 0) with
  | None => (0, blind_out)
  | Some acc => (1, secp256k1_scalar_get_b32 acc)
  end.

(** The two loops of [secp256k1_pedersen_verify_tally] (lines 541-546 and
    548-553): each commitment is parsed from 33 bytes and added; [None] is
    the early [return 0]. *)
Fixpoint secp256k1_pedersen_tally_loop (commits : list (list byte)) (accj : ge C)
  : option (ge C) :=
  match commits with
  | [] => Some accj
  | c :: commits' =>
      match secp256k1_eckey_pubkey_parse (firstn 33 c) with
      | None => None
      | Some add => secp256k1_pedersen_tally_loop commits' (ge_add C accj add)
      end
  end.

(** [secp256k1_pedersen_verify_tally], secp256k1.c lines 521-555.
    [commits] and [ncommits] hold the [pcnt] and [ncnt] commitments;
    [excess] is an [int64_t]. *)
Definition secp256k1_pedersen_verify_tally (commits ncommits : list (list byte))
  (excess : Z) : Z :=
  let accj := ge_infinity C in
  let accj :=
    if negb (excess =? 0) then
      (* Take the absolute value, and negate the result if the input was negative. *)
      let '(neg, ex) := secp256k1_sign_and_abs64 excess in
      let accj := secp256k1_ecmult_gen2_small ex in
      if neg then ge_neg C accj else accj
    else accj in
  match secp256k1_pedersen_tally_loop ncommits accj with
  | None => 0
  | Some accj =>
      let accj := ge_neg C accj in
      match secp256k1_pedersen_tally_loop commits accj with
      | None => 0
      | Some accj => if ge_is_infinity C accj then 1 else 0
      end
  end.

(** [secp256k1_ecdsa_signature_load], secp256k1.c lines 628-640: the
    64-byte object holds r and s; the 32-byte big-endian form of the second
    branch stands for the representation. *)
Definition secp256k1_ecdsa_signature_load (sig : list byte)
  : secp256k1_scalar_t * secp256k1_scalar_t :=
  (fst (secp256k1_scalar_set_b32 (firstn 32 sig)),
   fst (secp256k1_scalar_set_b32 (firstn 32 (skipn 32 sig)))).

(** [secp256k1_ecdsa_signature_save], secp256k1.c lines 675-683. *)
Definition secp256k1_ecdsa_signature_save (r s : secp256k1_scalar_t) : list byte :=
  secp256k1_scalar_get_b32 r ++ secp256k1_scalar_get_b32 s.

(** [secp256k1_pubkey_load], secp256k1.c lines 642-659: the 64-byte object
    holds x and y, here in the 32-byte big-endian form of the second
    branch.  It returns 1, or aborts on the [ARG_CHECK]. *)
Definition secp256k1_pubkey_load (debug : bool) (pubkey : list byte) : option (Z * ge C) :=
  let x := be_combine (firstn 32 pubkey) in
  let y := be_combine (firstn 32 (skipn 32 pubkey)) in
  let ge := ge_set_xy C x y in
  if debug && (x =? 0) then None else Some (1, ge).

(** [secp256k1_pubkey_save], secp256k1.c lines 661-673. *)
Definition secp256k1_pubkey_save (ge : ge C) : list byte :=
  secp256k1_fe_get_b32 (ge_x C ge) ++ secp256k1_fe_get_b32 (ge_y C ge).

(** [secp256k1_ecdsa_sign_ex], secp256k1.c lines 729-775.  The result is
    the return value and the 64-byte signature object. *)
Definition secp256k1_ecdsa_sign_ex (O : rfc6979_hmac_sha256) (fuel : nat)
  (ctx : secp256k1_context_t) (msg32 seckey : list byte)
  (noncefp : option secp256k1_nonce_function_t) (noncedata : option (list byte))
  : option (Z * list byte) :=
  let noncefp := match noncefp with
                 | None => secp256k1_nonce_function_default O
                 | Some f => f
                 end in
  let '(sec, overflow) := secp256k1_scalar_set_b32 seckey in
  let loop :=
    (* Fail if the secret key is invalid. *)
    if negb overflow && negb (secp256k1_scalar_is_zero sec) then
      let msg := fst (secp256k1_scalar_set_b32 msg32) in
      secp256k1_ecdsa_sign_loop fuel ctx noncefp msg32 seckey noncedata sec msg 0
    else Some (0, None) in
  match loop with
  | None => None
  | Some (ret, Some sig) =>
      if negb (ret =? 0)
      then Some (ret, secp256k1_ecdsa_signature_save (sig_r sig) (sig_s sig))
      else Some (ret, repeat Byte.x00 64)
  | Some (ret, None) => Some (0, repeat Byte.x00 64)
  end.

(** [secp256k1_ecdsa_verify_ex], secp256k1.c lines 867-882. *)
Definition secp256k1_ecdsa_verify_ex (debug : bool) (signature msg32 pubkey : list byte)
  : option Z :=
  let m := fst (secp256k1_scalar_set_b32 msg32) in
  let '(r, s) := secp256k1_ecdsa_signature_load signature in
  let sig := {| sig_r := r; sig_s := s |} in
  if negb (secp256k1_scalar_is_high (sig_s sig)) then
    match secp256k1_pubkey_load debug pubkey with
    | None => None
    | Some (loaded, q) =>
        if negb (loaded =? 0) && secp256k1_ecdsa_sig_verify sig q m
        then Some 1 else Some 0
    end
  else Some 0.

(** [secp256k1_ec_pubkey_tweak_add_ex], secp256k1.c lines 884-906.  The
    result is the return value and the 64-byte [pubkey] object afterwards. *)
Definition secp256k1_ec_pubkey_tweak_add_ex (debug : bool) (pubkey tweak : list byte)
  : option (Z * list byte) :=
  let '(term, overflow) := secp256k1_scalar_set_b32 tweak in
  let loaded :=
    if negb overflow
    then match secp256k1_pubkey_load debug pubkey with
         | None => None
         | Some (l, p) => Some (if negb (l =? 0) then 1 else 0, Some p)
         end
    else Some (0, None) in
  match loaded with
  | None => None
  | Some (ret, p) =>
      let pubkey := repeat Byte.x00 64 in
      match p with
      | Some p =>
          if negb (ret =? 0) then
            let '(ok, p) := secp256k1_eckey_pubkey_tweak_add p term in
            if negb (ok =? 0)
            then Some (ret, secp256k1_pubkey_save p)
            else Some (0, pubkey)
          else Some (ret, pubkey)
      | None => Some (ret, pubkey)
      end
  end.

(* ----------------------------------------------------------------- *)
(** ** The other entry points of [secp256k1.c] *)

(** [VERIFY_CHECK] comes from the missing [util.h] as well (line 625 keeps
    it apart from [DEBUG_CHECK]): with [verify] set a failed check aborts
    the caller, and the call has the result [None]. *)

(** Modelled from the spec: [secp256k1_ecdsa_sig_sign] called with a
    recovery-id pointer is missing.  "Output (r, s) and optional 2-bit
    recovery id: bit 0 = R.y parity, bit 1 = whether R.x required a
    reduction mod n"; "if s is high, replace s with n - s and flip the
    recovery id's low bit".  The signature is the one of
    [secp256k1_ecdsa_sig_sign]; the recovery id is reported with it. *)
Definition secp256k1_ecdsa_sig_sign_recid (ctx : secp256k1_ecmult_gen_context_t)
  (seckey message nonce : secp256k1_scalar_t) : option (secp256k1_ecdsa_sig_t * Z) :=
  let rp := secp256k1_ecmult_gen ctx nonce in
  let r := ge_x C rp mod secp256k1_n in
  let recid := Z.lor (if secp256k1_n <=? ge_x C rp then 2 else 0)
                     (if Z.odd (ge_y C rp) then 1 else 0) in
  if secp256k1_scalar_is_zero r then None else
  let n := secp256k1_scalar_add (secp256k1_scalar_mul r seckey) message in
  let s := secp256k1_scalar_mul (secp256k1_scalar_inverse nonce) n in
  if secp256k1_scalar_is_zero s then None else
  if secp256k1_scalar_is_high s
  then Some ({| sig_r := r; sig_s := secp256k1_scalar_negate s |}, Z.lxor recid 1)
  else Some ({| sig_r := r; sig_s := s |}, recid).

(** Modelled from the spec: [secp256k1_ecdsa_sig_recover] is missing.
    "Given (r, s), m, recid in {0,1,2,3}: reconstruct candidate
    R.x = r + (recid>>1)*n; decompress with y-parity = recid&1; compute
    Q = r^-1 * (s*R - m*G).  Fails if R has no valid y or Q is infinity".
    A candidate that is not below the field prime is no field element and
    has no y.  [None] is the result 0. *)
Definition secp256k1_ecdsa_sig_recover (sig : secp256k1_ecdsa_sig_t)
  (message : secp256k1_scalar_t) (recid : Z) : option (ge C) :=
  let brx := sig_r sig + (if Z.testbit recid 1 then secp256k1_n else 0) in
  if secp256k1_p <=? brx then None else
  match ge_set_xo_var C brx (Z.testbit recid 0) with
  | None => None
  | Some x =>
      let rn := secp256k1_scalar_inverse (sig_r sig) in
      let u1 := secp256k1_scalar_negate (secp256k1_scalar_mul rn message) in
      let u2 := secp256k1_scalar_mul rn (sig_s sig) in
      let qj := secp256k1_ecmult x u2 u1 in
      if ge_is_infinity C qj then None else Some qj
  end.

(** Modelled from the spec: [secp256k1_ecdh_point_multiply] is missing;
    "scalar point multiplication for ECDH-style key agreement". *)
Definition secp256k1_ecdh_point_multiply (pt : ge C) (scalar : secp256k1_scalar_t)
  : ge C :=
  ge_mul scalar pt.

(** Modelled from the spec: [secp256k1_eckey_privkey_tweak_mul] is missing.
    "Tweak-mul analogous with t <> 0": d' = d * t mod n, failing for a zero
    tweak.  Returns the result and the updated key. *)
Definition secp256k1_eckey_privkey_tweak_mul (key tweak : secp256k1_scalar_t)
  : Z * secp256k1_scalar_t :=
  if secp256k1_scalar_is_zero tweak then (0, key)
  else (1, secp256k1_scalar_mul key tweak).

(** Modelled from the spec: [secp256k1_eckey_pubkey_tweak_mul] is missing.
    "Tweak-mul analogous with t <> 0": Q' = t*Q, failing for a zero tweak.
    Returns the result and the updated key. *)
Definition secp256k1_eckey_pubkey_tweak_mul (key : ge C) (tweak : secp256k1_scalar_t)
  : Z * ge C :=
  if secp256k1_scalar_is_zero tweak then (0, key)
  else (1, secp256k1_ecmult key tweak (secp256k1_scalar_set_int 0)).

(** The [while (1)] loop of [secp256k1_ecdsa_sign_compact] (lines 187-201):
    the loop of [secp256k1_ecdsa_sign] with the recovery id requested. *)
Fixpoint secp256k1_ecdsa_sign_compact_loop (fuel : nat) (ctx : secp256k1_context_t)
  (noncefp : secp256k1_nonce_function_t) (msg32 seckey : list byte)
  (noncedata : option (list byte)) (sec msg : secp256k1_scalar_t) (count : Z)
  : option (Z * option (secp256k1_ecdsa_sig_t * Z)) :=
  match fuel with
  | O => None
  | S fuel' =>
      let '(ret, nonce32) := noncefp msg32 seckey count noncedata in
      if ret =? 0 then Some (ret, None)
      else
        let '(non, overflow) := secp256k1_scalar_set_b32 nonce32 in
        if negb (secp256k1_scalar_is_zero non) && negb overflow then
          match secp256k1_ecdsa_sig_sign_recid (ecmult_gen_ctx ctx) sec msg non with
          | Some sig => Some (ret, Some sig)
          | None =>
              secp256k1_ecdsa_sign_compact_loop fuel' ctx noncefp msg32 seckey noncedata
                sec msg ((count + 1) mod 2 ^ 32)
          end
        else
          secp256k1_ecdsa_sign_compact_loop fuel' ctx noncefp msg32 seckey noncedata
            sec msg ((count + 1) mod 2 ^ 32)
  end.

(** [secp256k1_ecdsa_sign_compact], secp256k1.c lines 168-214.  The result
    is the return value, the 64 bytes of [sig64] and the recovery id of a
    signature that was produced. *)
Definition secp256k1_ecdsa_sign_compact (O : rfc6979_hmac_sha256) (fuel : nat)
  (ctx : secp256k1_context_t) (msg32 seckey : list byte)
  (noncefp : option secp256k1_nonce_function_t) (noncedata : option (list byte))
  : option (Z * list byte * option Z) :=
  let noncefp := match noncefp with
                 | None => secp256k1_nonce_function_default O
                 | Some f => f
                 end in
  let '(sec, overflow) := secp256k1_scalar_set_b32 seckey in
  (* Fail if the secret key is invalid. *)
  if negb overflow && negb (secp256k1_scalar_is_zero sec) then
    let msg := fst (secp256k1_scalar_set_b32 msg32) in
    match secp256k1_ecdsa_sign_compact_loop fuel ctx noncefp msg32 seckey noncedata
            sec msg 0 with
    | None => None
    | Some (ret, Some (sig, recid)) =>
        if negb (ret =? 0)
        then Some (ret, secp256k1_scalar_get_b32 (sig_r sig) ++
                        secp256k1_scalar_get_b32 (sig_s sig), Some recid)
        else Some (ret, repeat Byte.x00 64, None)
    | Some (ret, None) => Some (0, repeat Byte.x00 64, None)
    end
  else Some (0, repeat Byte.x00 64, None).

(** [secp256k1_ecdsa_recover_compact], secp256k1.c lines 216-242.  [pubkey]
    and [pubkeylen] are the buffer and the length before the call; the
    result is the return value and both afterwards. *)
Definition secp256k1_ecdsa_recover_compact (debug : bool) (msg32 sig64 pubkey : list byte)
  (pubkeylen compressed recid : Z) : option (Z * list byte * Z) :=
  if debug && negb ((0 <=? recid) && (recid <=? 3)) then None
  else
    let '(r, overflow) := secp256k1_scalar_set_b32 (firstn 32 sig64) in
    if negb overflow then
      let '(s, overflow) := secp256k1_scalar_set_b32 (firstn 32 (skipn 32 sig64)) in
      if negb overflow then
        let m := fst (secp256k1_scalar_set_b32 msg32) in
        match secp256k1_ecdsa_sig_recover {| sig_r := r; sig_s := s |} m recid with
        | Some q =>
            match secp256k1_eckey_pubkey_serialize q compressed with
            | Some out => Some (1, out, Z.of_nat (length out))
            | None => Some (0, pubkey, pubkeylen)
            end
        | None => Some (0, pubkey, pubkeylen)
        end
      else Some (0, pubkey, pubkeylen)
    else Some (0, pubkey, pubkeylen).

(** [secp256k1_point_multiply], secp256k1.c lines 244-268.  [*pointlen] is
    the length of [point]; the result is the return value, the contents of
    [point] and [*pointlen] afterwards. *)
Definition secp256k1_point_multiply (point scalar : list byte) : Z * list byte * Z :=
  let pointlen := Z.of_nat (length point) in
  match secp256k1_eckey_pubkey_parse point with
  | Some pt =>
      let '(s, overflow) := secp256k1_scalar_set_b32 scalar in
      if overflow then (-2, point, pointlen)
      else
        let res := secp256k1_ecdh_point_multiply pt s in
        match secp256k1_eckey_pubkey_serialize res (if pointlen <=? 33 then 1 else 0) with
        | Some out => (1, out, Z.of_nat (length out))
        | None => (0, point, pointlen)
        end
  | None => (-3, point, pointlen)
  end.

(** [secp256k1_ec_seckey_verify], secp256k1.c lines 270-282. *)
Definition secp256k1_ec_seckey_verify (seckey : list byte) : Z :=
  let '(sec, overflow) := secp256k1_scalar_set_b32 seckey in
  if negb (secp256k1_scalar_is_zero sec) && negb overflow then 1 else 0.

(** [secp256k1_ec_pubkey_verify], secp256k1.c lines 284-291. *)
Definition secp256k1_ec_pubkey_verify (pubkey : list byte) : Z :=
  match secp256k1_eckey_pubkey_parse pubkey with
  | Some q => 1
  | None => 0
  end.

(** [secp256k1_ec_pubkey_decompress], secp256k1.c lines 318-329.
    [*pubkeylen] is the length of [pubkey]; the result is the return value,
    the contents of [pubkey] and [*pubkeylen] afterwards. *)
Definition secp256k1_ec_pubkey_decompress (pubkey : list byte) : Z * list byte * Z :=
  let pubkeylen := Z.of_nat (length pubkey) in
  match secp256k1_eckey_pubkey_parse pubkey with
  | Some p =>
      match secp256k1_eckey_pubkey_serialize p 0 with
      | Some out => (1, out, Z.of_nat (length out))
      | None => (0, pubkey, pubkeylen)
      end
  | None => (0, pubkey, pubkeylen)
  end.

(** [secp256k1_ec_pubkey_tweak_add], secp256k1.c lines 354-378.
    [pubkeylen] is the length of [pubkey]; the result is the return value
    and the contents of [pubkey] afterwards. *)
Definition secp256k1_ec_pubkey_tweak_add (verify : bool) (pubkey tweak : list byte)
  : option (Z * list byte) :=
  let pubkeylen := Z.of_nat (length pubkey) in
  let '(term, overflow) := secp256k1_scalar_set_b32 tweak in
  if negb overflow then
    match secp256k1_eckey_pubkey_parse pubkey with
    | Some p =>
        let '(ret, p) := secp256k1_eckey_pubkey_tweak_add p term in
        if negb (ret =? 0) then
          let oldlen := pubkeylen in
          match secp256k1_eckey_pubkey_serialize p (if oldlen <=? 33 then 1 else 0) with
          | Some out =>
              if verify && negb (Z.of_nat (length out) =? oldlen) then None
              else Some (1, out)
          | None => Some (0, pubkey)
          end
        else Some (ret, pubkey)
    | None => Some (0, pubkey)
    end
  else Some (0, pubkey).

(** [secp256k1_ec_privkey_tweak_mul], secp256k1.c lines 380-400.  The
    result is the return value and the contents of [seckey] afterwards. *)
Definition secp256k1_ec_privkey_tweak_mul (seckey tweak : list byte) : Z * list byte :=
  let '(factor, overflow) := secp256k1_scalar_set_b32 tweak in
  let sec := fst (secp256k1_scalar_set_b32 seckey) in
  let '(ok, sec) := secp256k1_eckey_privkey_tweak_mul sec factor in
  let ret := if negb (ok =? 0) && negb overflow then 1 else 0 in
  if negb (ret =? 0) then (ret, secp256k1_scalar_get_b32 sec) else (ret, seckey).

(** [secp256k1_ec_pubkey_tweak_mul], secp256k1.c lines 402-426. *)
Definition secp256k1_ec_pubkey_tweak_mul (verify : bool) (pubkey tweak : list byte)
  : option (Z * list byte) :=
  let pubkeylen := Z.of_nat (length pubkey) in
  let '(factor, overflow) := secp256k1_scalar_set_b32 tweak in
  if negb overflow then
    match secp256k1_eckey_pubkey_parse pubkey with
    | Some p =>
        let '(ret, p) := secp256k1_eckey_pubkey_tweak_mul p factor in
        if negb (ret =? 0) then
          let oldlen := pubkeylen in
          match secp256k1_eckey_pubkey_serialize p (if oldlen <=? 33 then 1 else 0) with
          | Some out =>
              if verify && negb (Z.of_nat (length out) =? oldlen) then None
              else Some (1, out)
          | None => Some (0, pubkey)
          end
        else Some (ret, pubkey)
    | None => Some (0, pubkey)
    end
  else Some (0, pubkey).

(** secp256k1.h: the flags of [secp256k1_ec_pubkey_serialize]. *)
Definition SECP256K1_FLAGS_TYPE_MASK : Z := Z.shiftl 1 8 - 1.
Definition SECP256K1_FLAGS_TYPE_COMPRESSION : Z := Z.shiftl 1 1.
Definition SECP256K1_FLAGS_BIT_COMPRESSION : Z := Z.shiftl 1 8.
Definition SECP256K1_EC_COMPRESSED : Z :=
  Z.lor SECP256K1_FLAGS_TYPE_COMPRESSION SECP256K1_FLAGS_BIT_COMPRESSION.
Definition SECP256K1_EC_UNCOMPRESSED : Z := SECP256K1_FLAGS_TYPE_COMPRESSION.


(** [secp256k1_ec_pubkey_create_ex], secp256k1.c lines 698-719.  The result
    is the return value and the 64-byte [pubkey] object. *)
Definition secp256k1_ec_pubkey_create_ex (ctx : secp256k1_context_t) (seckey : list byte)
  : Z * list byte :=
  let pubkey := repeat Byte.x00 64 in
  let '(sec, overflow) := secp256k1_scalar_set_b32 seckey in
  let ret := Z.land (if negb overflow then 1 else 0)
                    (if negb (secp256k1_scalar_is_zero sec) then 1 else 0) in
  if negb (ret =? 0) then
    let pj := secp256k1_ecmult_gen (ecmult_gen_ctx ctx) sec in
    (ret, secp256k1_pubkey_save pj)
  else (ret, pubkey).

(** [secp256k1_ec_pubkey_parse], secp256k1.c lines 777-790.  [inputlen] is
    the length of [input]; the result is the return value and the 64-byte
    [pubkey] object. *)
Definition secp256k1_ec_pubkey_parse (input : list byte) : Z * list byte :=
  let pubkey := repeat Byte.x00 64 in
  match secp256k1_eckey_pubkey_parse input with
  | None => (0, pubkey)
  | Some Q => (1, secp256k1_pubkey_save Q)
  end.

(** [secp256k1_ec_pubkey_serialize], secp256k1.c lines 792-813.
    [outputlen] is the value of [*outputlen] before the call, the size of
    [output]; the result is the return value, the contents of [output] and
    [*outputlen] afterwards.  A buffer too small for the encoding fails the
    first [ARG_CHECK], or is overrun where the check is compiled out:
    neither gives a result. *)
Definition secp256k1_ec_pubkey_serialize (debug : bool) (outputlen : Z)
  (pubkey : list byte) (flags : Z) : option (Z * list byte * Z) :=
  if negb ((if negb (Z.land flags SECP256K1_FLAGS_BIT_COMPRESSION =? 0) then 33 else 65)
             <=? outputlen) then None
  else
    let len := outputlen in
    let outputlen := 0 in
    let output := repeat Byte.x00 (Z.to_nat len) in
    if debug && negb (Z.land flags SECP256K1_FLAGS_TYPE_MASK
                        =? SECP256K1_FLAGS_TYPE_COMPRESSION) then None
    else
      match secp256k1_pubkey_load debug pubkey with
      | None => None
      | Some (loaded, Q) =>
          if negb (loaded =? 0) then
            match secp256k1_eckey_pubkey_serialize Q
                    (Z.land flags SECP256K1_FLAGS_BIT_COMPRESSION) with
            | Some out =>
                Some (1, out ++ skipn (length out) output, Z.of_nat (length out))
            | None => Some (0, output, outputlen)
            end
          else Some (0, output, outputlen)
      end.

(** [secp256k1_ecdsa_signature_parse_compact], secp256k1.c lines 815-834.
    The result is the return value and the 64-byte [sig] object. *)
Definition secp256k1_ecdsa_signature_parse_compact (input64 : list byte) : Z * list byte :=
  let ret := 1 in
  let '(r, overflow) := secp256k1_scalar_set_b32 (firstn 32 input64) in
  let ret := Z.land ret (if negb overflow then 1 else 0) in
  let '(s, overflow) := secp256k1_scalar_set_b32 (firstn 32 (skipn 32 input64)) in
  let ret := Z.land ret (if negb overflow then 1 else 0) in
  if negb (ret =? 0) then (ret, secp256k1_ecdsa_signature_save r s)
  else (ret, repeat Byte.x00 64).


(** [secp256k1_ecdsa_signature_normalize], secp256k1.c lines 848-865.
    [sigout] is [None] for a NULL pointer; the result is the return value
    and the object written to [sigout], if any. *)
Definition secp256k1_ecdsa_signature_normalize (sigout : option (list byte))
  (sigin : list byte) : Z * option (list byte) :=
  let '(r, s) := secp256k1_ecdsa_signature_load sigin in
  let ret := if secp256k1_scalar_is_high s then 1 else 0 in
  match sigout with
  | Some _ =>
      let s := if negb (ret =? 0) then secp256k1_scalar_negate s else s in
      (ret, Some (secp256k1_ecdsa_signature_save r s))
  | None => (ret, None)
  end.

(** Facts of the secp256k1 group beyond [curve_laws]: no point has the x
    coordinate 0 (7 is no square in the field), negation changes the parity
    of y (the field prime is odd and no point has y = 0), and every point
    has an order that divides [secp256k1_n] (the cofactor is 1). *)
Record curve_point_laws : Prop := {
  x_nonzero : forall a, ge_is_valid_var C a = true -> ge_x C a <> 0;
  y_neg_parity : forall a, ge_is_valid_var C a = true ->
      Z.odd (ge_y C (ge_neg C a)) = negb (Z.odd (ge_y C a));
  mul_order : forall a, ge_in_group a -> ge_mul secp256k1_n a = ge_infinity C
}.

End Curve.

Arguments blind {C} _.
Arguments initial {C} _.
Arguments ecmult_gen_ctx {C} _.

(* ----------------------------------------------------------------- *)
(** ** The curve y^2 = x^3 + 7 over the field prime *)

(** Modelled from the spec: the field and group arithmetic is missing;
    "short Weierstrass form y^2 = x^3 + 7 over a 256-bit prime field", with
    "inverse (... via Fermat's little theorem: exponentiation by p-2)" and
    "square-root (exponentiation by (p+1)/4; returns success iff ...
    sqrt^2 = input)".  This instance evaluates the model on the real curve. *)
Inductive affine_point : Type :=
| affine_infinity
| affine_xy (x y : Z).

Definition fe_mul (a b : Z) : Z := (a * b) mod secp256k1_p.
Definition fe_inv (a : Z) : Z := pow_mod a (secp256k1_p - 2) secp256k1_p.
Definition fe_sqrt (a : Z) : option Z :=
  let r := pow_mod a ((secp256k1_p + 1) / 4) secp256k1_p in
  if fe_mul r r =? a mod secp256k1_p then Some r else None.

Definition affine_is_infinity (a : affine_point) : bool :=
  match a with affine_infinity => true | affine_xy _ _ => false end.

Definition affine_is_valid_var (a : affine_point) : bool :=
  match a with
  | affine_infinity => false
  | affine_xy x y =>
      (0 <=? x) && (x <? secp256k1_p) && (0 <=? y) && (y <? secp256k1_p) &&
      (fe_mul y y =? (fe_mul (fe_mul x x) x + 7) mod secp256k1_p)
  end.

Definition affine_neg (a : affine_point) : affine_point :=
  match a with
  | affine_infinity => affine_infinity
  | affine_xy x y => affine_xy x ((- y) mod secp256k1_p)
  end.

(** The chord-and-tangent rule, with its cases P + P, P + (-P), P + inf and
    inf + P. *)
Definition affine_add (a b : affine_point) : affine_point :=
  match a, b with
  | affine_infinity, _ => b
  | _, affine_infinity => a
  | affine_xy x1 y1, affine_xy x2 y2 =>
      if (x1 =? x2) && ((y1 + y2) mod secp256k1_p =? 0) then affine_infinity
      else
        let lambda :=
          if x1 =? x2
          then fe_mul (3 * fe_mul x1 x1) (fe_inv (2 * y1))
          else fe_mul (y2 - y1) (fe_inv (x2 - x1)) in
        let x3 := (fe_mul lambda lambda - x1 - x2) mod secp256k1_p in
        let y3 := (fe_mul lambda (x1 - x3) - y1) mod secp256k1_p in
        affine_xy x3 y3
  end.

Definition affine_set_xo_var (x : Z) (odd : bool) : option affine_point :=
  match fe_sqrt ((fe_mul (fe_mul x x) x + 7) mod secp256k1_p) with
  | Some y => Some (affine_xy x (if Bool.eqb (Z.odd y) odd then y
                                 else (- y) mod secp256k1_p))
  | None => None
  end.

(** The generator G of the standard, and the generator H of the
    commitments, whose x coordinate is the SHA-256 hash of the uncompressed
    encoding of G.  The constant tables of the source are missing; H enters
    no statement below through its coordinates. *)
Definition secp256k1_ge_const_g : affine_point :=
  affine_xy 0x79BE667EF9DCBBAC55A06295CE870B07029BFCDB2DCE28D959F2815B16F81798
            0x483ADA7726A3C4655DA4FBFC0E1108A8FD17B448A68554199C47D08FFB10D4B8.
Definition secp256k1_ge_const_g2 : affine_point :=
  affine_xy 0x50929B74C1A04954B78B4B6035E97A5E078A5A0F28EC96D547BFEE9ACE803AC0
            0x31D3C6863973926E049E637CB1B5F40A36DAC28AF1766968C30C2313F3A38904.

Definition secp256k1_curve : curve := {|
  ge := affine_point;
  ge_infinity := affine_infinity;
  ge_is_infinity := affine_is_infinity;
  ge_is_valid_var := affine_is_valid_var;
  ge_neg := affine_neg;
  ge_add := affine_add;
  ge_x := fun a => match a with affine_xy x _ => x | affine_infinity => 0 end;
  ge_y := fun a => match a with affine_xy _ y => y | affine_infinity => 0 end;
  ge_set_xy := affine_xy;
  ge_set_xo_var := affine_set_xo_var;
  ge_const_g := secp256k1_ge_const_g;
  ge_const_g2 := secp256k1_ge_const_g2
|}.

(* ----------------------------------------------------------------- *)
(** ** The group in logarithmic coordinates *)

(** The secp256k1 group is cyclic of order [secp256k1_n]; this instance
    names each point k*G by k.  The points k*G and -k*G share the x
    coordinate and differ in the parity of y, as on the curve.  It is the
    instance for which [curve_laws] is proved. *)
Definition dlog_add (a b : Z) : Z :=
  let s := a + b in if s <? secp256k1_n then s else s - secp256k1_n.
Definition dlog_neg (a : Z) : Z := if a =? 0 then 0 else secp256k1_n - a.
Definition dlog_is_valid_var (a : Z) : bool := (0 <? a) && (a <? secp256k1_n).
Definition dlog_x (a : Z) : Z := if 2 * a <? secp256k1_n then a else secp256k1_n - a.
Definition dlog_y (a : Z) : Z := if 2 * a <? secp256k1_n then 2 else 1.
Definition dlog_set_xy (x y : Z) : Z := if Z.odd y then secp256k1_n - x else x.
Definition dlog_set_xo_var (x : Z) (odd : bool) : option Z :=
  if (0 <? x) && (2 * x <? secp256k1_n)
  then Some (if odd then secp256k1_n - x else x)
  else None.

Definition dlog_curve : curve := {|
  ge := Z;
  ge_infinity := 0;
  ge_is_infinity := fun a => a =? 0;
  ge_is_valid_var := dlog_is_valid_var;
  ge_neg := dlog_neg;
  ge_add := dlog_add;
  ge_x := dlog_x;
  ge_y := dlog_y;
  ge_set_xy := dlog_set_xy;
  ge_set_xo_var := dlog_set_xo_var;
  ge_const_g := 1;
  ge_const_g2 := 7
|}.

(** A generator for running the model: the state counts the rounds and each
    round outputs the count. *)
Definition counting_rng : rfc6979_hmac_sha256 := {|
  rfc6979_hmac_sha256_t := Z;
  rfc6979_hmac_sha256_initialize := fun _ _ _ => 0;
  rfc6979_hmac_sha256_generate := fun st => (st + 1, be_split 32 (st + 1))
|}.

(** A context whose signing part is built with the blinding scalar [b]. *)
Definition context_with_blinding (C : curve) (b : secp256k1_scalar_t)
  : secp256k1_context_t C :=
  {| ecmult_gen_ctx := secp256k1_ecmult_gen_context_build C b |}.

(* ----------------------------------------------------------------- *)
(** ** Reference definitions *)

(** The blinding sum as the spec writes it: the sum of the factors below
    index [npositive] minus the sum of the others, before reduction. *)
Definition blind_sum_spec (bs : list Z) (npositive : Z) : Z :=
  fold_right Z.add 0 (firstn (Z.to_nat npositive) bs) -
  fold_right Z.add 0 (skipn (Z.to_nat npositive) bs).

(** The same sum along the loop: the factor at index [i] counts negatively
    from [npositive] on. *)
Fixpoint signed_sum_from (i npositive : Z) (bs : list Z) : Z :=
  match bs with
  | [] => 0
  | b :: bs' => (if npositive <=? i then - b else b) + signed_sum_from (i + 1) npositive bs'
  end.

(* ================================================================= *)
(** * Part II: theorems *)
(* ================================================================= *)

(* ----------------------------------------------------------------- *)
(** ** The group order is prime *)

Lemma big_pow_mod_pos_spec a e m :
  BigZ.to_Z (big_pow_mod_pos a e m) = (BigZ.to_Z a ^ Zpos e) mod BigZ.to_Z m.
Proof.
  induction e as [e IH|e IH|]; simpl big_pow_mod_pos.
  - rewrite !BigZ.spec_modulo, !BigZ.spec_mul, !BigZ.spec_modulo, !BigZ.spec_mul, IH.
    rewrite Pos2Z.inj_xI.
    replace (2 * Z.pos e + 1) with (Z.pos e + Z.pos e + 1) by lia.
    rewrite !Z.pow_add_r, Z.pow_1_r by lia.
    rewrite Zmult_mod_idemp_l.
    set (A := BigZ.to_Z a ^ Z.pos e). set (N := BigZ.to_Z m).
    rewrite (Zmult_mod (A mod N * (A mod N)) (BigZ.to_Z a) N).
    rewrite <- (Zmult_mod A A N), <- Zmult_mod. reflexivity.
  - rewrite !BigZ.spec_modulo, !BigZ.spec_mul, IH.
    rewrite Pos2Z.inj_xO.
    replace (2 * Z.pos e) with (Z.pos e + Z.pos e) by lia.
    rewrite !Z.pow_add_r by lia.
    rewrite <- Zmult_mod. reflexivity.
  - rewrite BigZ.spec_modulo, Z.pow_1_r. reflexivity.
Qed.

Lemma pow_mod_spec a e m : 0 <= e -> pow_mod a e m = a ^ e mod m.
Proof.
  intros He. destruct e as [|k|k]; try lia; unfold pow_mod.
  - reflexivity.
  - rewrite big_pow_mod_pos_spec, !BigZ.spec_of_Z. reflexivity.
Qed.

Lemma exists_prime_divisor c : 1 < c -> exists q, Z.prime q /\ (q | c).
Proof.
  intros Hc.
  assert (H : forall m, 0 <= m -> forall c, 1 < c <= m -> exists q, Z.prime q /\ (q | c)).
  { clear. intros m Hm. pattern m. apply natlike_ind; [lia| |assumption].
    intros x Hx IH c Hc.
    assert (D : (exists k, 1 < k < c /\ (k | c)) \/ (forall k, 1 < k < c -> ~ (k | c))).
    { assert (B : forall b, 0 <= b ->
         (exists k, 1 < k < b /\ (k | c)) \/ (forall k, 1 < k < b -> ~ (k | c))).
      { intros b Hb. pattern b. apply natlike_ind; [right; lia| |assumption].
        intros y Hy [[k [Hk Hd]]|Hn].
        - left. exists k. split; [lia|assumption].
        - destruct (Z.BoolSpec_divide y c) as [Hd|Hd].
          + destruct (Z_lt_dec 1 y).
            * left. exists y. split; [lia|assumption].
            * right. intros k Hk. apply Hn. lia.
          + right. intros k Hk.
            destruct (Z.eq_dec k y) as [->|]; [assumption|apply Hn; lia]. }
      apply B. lia. }
    destruct D as [[k [Hk Hd]]|Hp].
    - destruct (IH k ltac:(lia)) as [q [Hq Hqk]].
      exists q. split; [assumption|]. eapply Z.divide_trans; eassumption.
    - exists c. split; [split; [lia|assumption]|apply Z.divide_refl]. }
  apply (H c); lia.
Qed.

(** Zero is the only residue that is not invertible: [N] is prime. *)
Lemma full_units_prime N :
  2 <= N -> length (Zmod.invertibles N) = Z.to_nat (N - 1) -> Z.prime N.
Proof.
  intros HN Hlen. split; [lia|]. intros x Hx Hdiv.
  unfold Zmod.invertibles in Hlen.
  destruct (Z.eqb_spec N 0) as [|_]; [lia|].
  pose proof (filter_length (fun y : Zmod N => Z.gcd (Zmod.unsigned y) N =? 1)
                (Zmod.elements N)) as HF.
  rewrite Hlen, Zmod.length_elements in HF.
  set (bad := filter (fun y : Zmod N => negb (Z.gcd (Zmod.unsigned y) N =? 1))
                (Zmod.elements N)) in *.
  assert (Hbad : length bad = 1%nat) by lia.
  assert (H0 : In (Zmod.of_Z N 0) bad).
  { apply filter_In. split; [apply Zmod.in_elements; lia|].
    rewrite Zmod.unsigned_of_Z_small by lia. rewrite Z.gcd_0_l.
    apply negb_true_iff, Z.eqb_neq. lia. }
  assert (Hx' : In (Zmod.of_Z N x) bad).
  { apply filter_In. split; [apply Zmod.in_elements; lia|].
    rewrite Zmod.unsigned_of_Z_small by lia.
    apply negb_true_iff, Z.eqb_neq.
    assert (Z.gcd x N = x); [|lia].
    apply Z.divide_gcd_iff; [lia|assumption]. }
  destruct bad as [|b [|b' bad']]; simpl in Hbad; try discriminate.
  destruct H0 as [H0|[]], Hx' as [Hx'|[]]. subst b.
  apply (f_equal Zmod.unsigned) in Hx'.
  rewrite !Zmod.unsigned_of_Z_small in Hx' by lia. lia.
Qed.

(** Lucas' test: an element of order [N - 1] modulo [N]. *)
Theorem lucas_prime N g :
  2 <= N ->
  g ^ (N - 1) mod N = 1 ->
  (forall q, Z.prime q -> (q | N - 1) -> g ^ ((N - 1) / q) mod N <> 1) ->
  Z.prime N.
Proof.
  intros HN Hg Hq.
  assert (Hcop : Z.coprime (Zmod.unsigned (Zmod.of_Z N g)) N).
  { rewrite Zmod.unsigned_of_Z. apply Z.coprime_mod_l_iff.
    apply Z.Bezout_coprime_iff.
    exists (g ^ (N - 2)), (- (g ^ (N - 1) / N)).
    replace (g ^ (N - 2) * g) with (g ^ (N - 1)).
    2:{ replace (N - 1) with (Z.succ (N - 2)) by lia. rewrite Z.pow_succ_r by lia. ring. }
    pose proof (Z.div_mod (g ^ (N - 1)) N ltac:(lia)). lia. }
  set (a := Zstar.of_Zmod (Zmod.of_Z N g)).
  assert (Hpow : forall e, 0 <= e ->
            Zmod.unsigned (Zstar.to_Zmod (Zstar.pow a e)) = g ^ e mod N).
  { intros e He. rewrite Zstar.to_Zmod_pow, Zmod.unsigned_pow_nonneg_r by assumption.
    unfold a. rewrite Zstar.to_Zmod_of_Zmod by assumption.
    rewrite Zmod.unsigned_of_Z. rewrite <- Zpower_mod by lia. reflexivity. }
  assert (Hone : forall e, 0 <= e -> Zstar.pow a e = Zstar.one <-> g ^ e mod N = 1).
  { intros e He. rewrite <- Hpow by assumption. split.
    - intros ->. rewrite Zstar.to_Zmod_1. apply Zmod.unsigned_1_pos. lia.
    - intros H. apply Zstar.to_Zmod_inj, Zmod.unsigned_inj.
      rewrite H, Zstar.to_Zmod_1. symmetry. apply Zmod.unsigned_1_pos. lia. }
  set (phi := Z.of_nat (length (Zstar.elements N))).
  assert (Hphi : Zstar.pow a phi = Zstar.one) by apply Zstar.euler.
  assert (HN1 : Zstar.pow a (N - 1) = Zstar.one) by (apply Hone; [lia|assumption]).
  set (d := Z.gcd (N - 1) phi).
  assert (Hd : Zstar.pow a d = Zstar.one).
  { destruct (Z.gcd_bezout (N - 1) phi d eq_refl) as [u [v Huv]].
    rewrite <- Huv, Zstar.pow_add_r.
    rewrite (Z.mul_comm u), (Z.mul_comm v), !Zstar.pow_mul_r, HN1, Hphi.
    rewrite !Zstar.pow_1_l. apply Zstar.mul_1_l. }
  assert (Hdpos : 0 < d).
  { pose proof (Z.gcd_nonneg (N - 1) phi).
    destruct (Z.eq_dec d 0) as [E|]; [|fold d in H; lia].
    apply Z.gcd_eq_0_l in E. lia. }
  assert (HdN : (d | N - 1)) by apply Z.gcd_divide_l.
  assert (Hdphi : (d | phi)) by apply Z.gcd_divide_r.
  assert (HdEq : d = N - 1).
  { destruct HdN as [c Hc].
    destruct (Z.eq_dec c 1) as [->|Hc1]; [lia|].
    exfalso. assert (1 < c) by nia.
    destruct (exists_prime_divisor c H) as [q [Hqp [k Hk]]].
    pose proof (Z.prime_ge_2 _ Hqp).
    apply (Hq q Hqp).
    - exists (k * d). rewrite Hc, Hk. ring.
    - apply Hone.
      + apply Z.div_pos; lia.
      + replace ((N - 1) / q) with (d * k).
        2:{ rewrite Hc, Hk. replace (k * q * d) with (d * k * q) by ring.
            rewrite Z.div_mul by lia. reflexivity. }
        rewrite Zstar.pow_mul_r, Hd. apply Zstar.pow_1_l. }
  assert (Hlen : length (Zmod.invertibles N) = Z.to_nat (N - 1)).
  { rewrite <- Zstar.to_Zmod_elements, length_map.
    assert (Hle : (length (Zmod.invertibles N) <= Z.to_nat (N - 1))%nat).
    { unfold Zmod.invertibles. destruct (Z.eqb_spec N 0) as [|_]; [lia|].
      pose proof (filter_length (fun y : Zmod N => Z.gcd (Zmod.unsigned y) N =? 1)
                    (Zmod.elements N)) as HF.
      rewrite Zmod.length_elements in HF.
      assert (H0 : In (Zmod.of_Z N 0)
                (filter (fun y : Zmod N => negb (Z.gcd (Zmod.unsigned y) N =? 1))
                   (Zmod.elements N))).
      { apply filter_In. split; [apply Zmod.in_elements; lia|].
        rewrite Zmod.unsigned_of_Z_small by lia. rewrite Z.gcd_0_l.
        apply negb_true_iff, Z.eqb_neq. lia. }
      destruct (filter (fun y : Zmod N => negb (Z.gcd (Zmod.unsigned y) N =? 1))
                  (Zmod.elements N)); [destruct H0|]. simpl in HF. lia. }
    rewrite <- Zstar.to_Zmod_elements, length_map in Hle.
    assert (0 < phi).
    { unfold phi. pose proof (Zstar.in_elements a).
      destruct (Zstar.elements N); [destruct H|]. simpl. lia. }
    destruct Hdphi as [c Hc]. fold phi in Hle |- *.
    assert (phi <= N - 1) by lia.
    assert (c = 1) by nia. unfold phi in *. lia. }
  apply full_units_prime; assumption.
Qed.

Lemma prime_divides_factored q fs :
  Z.prime q -> Forall (fun re => Z.prime (fst re) /\ 0 <= snd re) fs ->
  (q | factored fs) -> In q (map fst fs).
Proof.
  intros Hq. induction fs as [|[r e] fs IH]; simpl; intros HF Hd.
  - pose proof (Z.prime_ge_2 _ Hq). apply Z.divide_1_r_nonneg in Hd; lia.
  - inversion HF as [|? ? [Hr He] HF']; subst. simpl in *.
    apply Z.divide_prime_mul in Hd; [|assumption].
    destruct Hd as [Hd|Hd].
    + left. symmetry. apply (Z.divide_prime_pp q r e); assumption.
    + right. apply IH; assumption.
Qed.

Lemma check_entry_sound known q g fs :
  Forall Z.prime known -> check_entry known (q, g, fs) = true -> Z.prime q.
Proof.
  intros Hk H. unfold check_entry in H.
  apply andb_prop in H. destruct H as [H Hfs].
  apply andb_prop in H. destruct H as [H Hg].
  apply andb_prop in H. destruct H as [Hq Hprod].
  apply Z.leb_le in Hq. apply Z.eqb_eq in Hprod. apply Z.eqb_eq in Hg.
  rewrite pow_mod_spec in Hg by lia.
  rewrite forallb_forall in Hfs.
  assert (HF : Forall (fun re => Z.prime (fst re) /\ 0 <= snd re) fs).
  { apply Forall_forall. intros re Hre. apply Hfs in Hre.
    apply andb_prop in Hre. destruct Hre as [Hre _].
    apply andb_prop in Hre. destruct Hre as [Hre _].
    apply andb_prop in Hre. destruct Hre as [He Hre].
    apply Z.leb_le in He. split; [|assumption].
    apply existsb_exists in Hre. destruct Hre as [r' [Hin Heq]].
    apply Z.eqb_eq in Heq. subst r'.
    rewrite Forall_forall in Hk. apply Hk. assumption. }
  apply (lucas_prime q g Hq Hg).
  intros q' Hq' Hd. rewrite <- Hprod in Hd.
  apply prime_divides_factored in Hd; try assumption.
  apply in_map_iff in Hd. destruct Hd as [[r e] [Hr Hin]]. simpl in Hr. subst r.
  apply Hfs in Hin. apply andb_prop in Hin. destruct Hin as [Hin Hd].
  apply andb_prop in Hin. destruct Hin as [_ Hpos]. apply Z.leb_le in Hpos.
  simpl in Hd, Hpos. apply negb_true_iff, Z.eqb_neq in Hd.
  rewrite pow_mod_spec in Hd by assumption. exact Hd.
Qed.

Lemma check_pratt_sound c : forall known,
  Forall Z.prime known -> check_pratt known c = true ->
  Forall Z.prime (map (fun e => fst (fst e)) c).
Proof.
  induction c as [|[[q g] fs] c IH]; simpl; intros known Hk H; [constructor|].
  apply andb_prop in H. destruct H as [He Hc].
  pose proof (check_entry_sound _ _ _ _ Hk He) as Hq.
  constructor; [assumption|].
  apply (IH (q :: known)); [constructor; assumption|assumption].
Qed.

Lemma secp256k1_n_prime : Z.prime secp256k1_n.
Proof.
  assert (H : check_pratt [2] order_certificate = true) by (vm_compute; reflexivity).
  apply check_pratt_sound in H; [|constructor; [exact Z.prime_2|constructor]].
  rewrite Forall_forall in H. apply H.
  unfold order_certificate. rewrite in_map_iff.
  eexists (secp256k1_n, _, _). split; [reflexivity|].
  repeat (first [left; reflexivity | right]).
Qed.

(* ----------------------------------------------------------------- *)
(** ** Scalars *)

Lemma secp256k1_n_range : 2 ^ 255 < secp256k1_n < 2 ^ 256.
Proof. unfold secp256k1_n. lia. Qed.

Lemma secp256k1_n_odd : secp256k1_n = 2 * ((secp256k1_n + 1) / 2) - 1.
Proof. reflexivity. Qed.

Lemma secp256k1_n_lt_p : secp256k1_n < secp256k1_p.
Proof. reflexivity. Qed.

Lemma secp256k1_p_range : 2 ^ 255 < secp256k1_p < 2 ^ 256.
Proof. unfold secp256k1_p. lia. Qed.

Global Opaque secp256k1_n secp256k1_p.

Lemma scalar_mod_range a : 0 <= a mod secp256k1_n < secp256k1_n.
Proof. pose proof secp256k1_n_range. apply Z.mod_pos_bound. lia. Qed.

(** The Fermat-style inverse is the inverse. *)
Lemma scalar_inverse_invmod a :
  secp256k1_scalar_inverse a = Z.invmod a secp256k1_n.
Proof.
  pose proof secp256k1_n_range as Hn. pose proof secp256k1_n_prime as Hp.
  unfold secp256k1_scalar_inverse. rewrite pow_mod_spec by lia.
  destruct (Z.eq_dec (a mod secp256k1_n) 0) as [H0|H0].
  - rewrite <- Z.invmod_mod_l, H0, Z.invmod_0_l.
    rewrite Zpower_mod by lia. rewrite H0.
    rewrite Z.pow_0_l by lia. apply Z.mod_0_l. lia.
  - assert (Hc : Z.coprime (Zmod.unsigned (Zmod.of_Z secp256k1_n a)) secp256k1_n).
    { rewrite Zmod.unsigned_of_Z. symmetry. apply Z.coprime_prime_small; [assumption|].
      pose proof (scalar_mod_range a). lia. }
    pose proof (Zstar.fermat_inv (Zstar.of_Zmod (Zmod.of_Z secp256k1_n a)) Hp) as F.
    apply (f_equal (fun x => Zmod.unsigned (Zstar.to_Zmod x))) in F.
    rewrite Zstar.to_Zmod_pow, Zstar.to_Zmod_inv in F.
    rewrite Zstar.to_Zmod_of_Zmod in F by assumption.
    rewrite Zmod.unsigned_pow_nonneg_r in F by lia.
    rewrite Zmod.unsigned_inv, Zmod.unsigned_of_Z in F.
    rewrite <- Zpower_mod in F by lia. rewrite Z.invmod_mod_l in F. exact F.
Qed.

Lemma scalar_inverse_spec a :
  a mod secp256k1_n <> 0 ->
  (secp256k1_scalar_inverse a * a) mod secp256k1_n = 1.
Proof.
  intros H. rewrite scalar_inverse_invmod.
  apply Z.invmod_prime; [exact secp256k1_n_prime|assumption].
Qed.

Lemma scalar_inverse_range a :
  0 <= secp256k1_scalar_inverse a < secp256k1_n.
Proof.
  rewrite scalar_inverse_invmod, <- Z.mod_invmod. apply scalar_mod_range.
Qed.

Lemma scalar_negate_high s :
  0 <= s < secp256k1_n -> secp256k1_scalar_is_high s = true ->
  secp256k1_scalar_negate s = secp256k1_n - s /\
  0 < secp256k1_scalar_negate s < secp256k1_n /\
  secp256k1_scalar_is_high (secp256k1_scalar_negate s) = false.
Proof.
  intros Hs Hh. pose proof secp256k1_n_range as Hn. pose proof secp256k1_n_odd as Ho.
  unfold secp256k1_scalar_is_high in *. apply Z.leb_le in Hh.
  assert (E : secp256k1_scalar_negate s = secp256k1_n - s).
  { unfold secp256k1_scalar_negate.
    replace (- s) with ((secp256k1_n - s) + (-1) * secp256k1_n) by ring.
    rewrite Z.mod_add by lia. apply Z.mod_small. lia. }
  rewrite E. repeat split; lia.
Qed.

(* ----------------------------------------------------------------- *)
(** ** Byte strings and encodings *)

Lemma be_split_length k z : length (be_split k z) = k.
Proof. unfold be_split. rewrite length_rev. apply length_le_split. Qed.

Lemma be_combine_split k z : be_combine (be_split k z) = z mod 2 ^ (Z.of_nat k * 8).
Proof. unfold be_combine, be_split. rewrite rev_involutive. apply le_combine_split. Qed.


Lemma be_combine_range bs : 0 <= be_combine bs < 2 ^ (8 * Z.of_nat (length bs)).
Proof.
  unfold be_combine. pose proof (le_combine_bound (rev bs)) as H.
  rewrite length_rev in H. exact H.
Qed.

Lemma be_combine_zero_cons bs : be_combine (Byte.x00 :: bs) = be_combine bs.
Proof. unfold be_combine. simpl rev. apply le_combine_snoc_0. Qed.

Lemma be_combine_split_32 a : 0 <= a < 2 ^ 256 -> be_combine (be_split 32 a) = a.
Proof.
  intros H. rewrite be_combine_split. change (Z.of_nat 32 * 8) with 256.
  apply Z.mod_small. exact H.
Qed.

Lemma be_combine_range_32 bs : length bs = 32%nat -> 0 <= be_combine bs < 2 ^ 256.
Proof.
  intros H. pose proof (be_combine_range bs) as R. rewrite H in R. exact R.
Qed.

Lemma scalar_set_get_b32 a :
  0 <= a < secp256k1_n ->
  secp256k1_scalar_set_b32 (secp256k1_scalar_get_b32 a) = (a, false).
Proof.
  intros H. pose proof secp256k1_n_range as Hn.
  unfold secp256k1_scalar_set_b32, secp256k1_scalar_get_b32.
  rewrite be_combine_split_32 by lia. rewrite Z.mod_small by lia.
  f_equal. apply Z.leb_gt. lia.
Qed.

Lemma fe_set_get_b32 x :
  0 <= x < secp256k1_p -> secp256k1_fe_set_b32 (secp256k1_fe_get_b32 x) = Some x.
Proof.
  intros H. pose proof secp256k1_p_range as Hp.
  unfold secp256k1_fe_set_b32, secp256k1_fe_get_b32.
  rewrite be_combine_split_32 by lia.
  destruct (Z.ltb_spec x secp256k1_p); [reflexivity|lia].
Qed.

Lemma der_strip_cons b c t :
  der_strip (b :: c :: t) =
  if (byte.unsigned b =? 0) && (byte.unsigned c <? 128)
  then der_strip (c :: t) else b :: c :: t.
Proof. reflexivity. Qed.

Lemma der_strip_value l : be_combine (der_strip l) = be_combine l.
Proof.
  induction l as [|b l IH]; [reflexivity|].
  destruct l as [|c t]; [reflexivity|].
  rewrite der_strip_cons.
  destruct ((byte.unsigned b =? 0) && (byte.unsigned c <? 128)) eqn:E; [|reflexivity].
  apply andb_prop in E. destruct E as [E _]. apply Z.eqb_eq in E.
  assert (b = Byte.x00) by (apply byte.unsigned_inj; rewrite E; reflexivity).
  subst b. rewrite be_combine_zero_cons. exact IH.
Qed.

Lemma der_strip_ok l :
  match l with b :: _ => byte.unsigned b < 128 | [] => False end ->
  der_integer_ok (der_strip l) = true.
Proof.
  induction l as [|b l IH]; [intros []|].
  destruct l as [|c t]; intros Hb.
  - cbn. apply Z.ltb_lt. exact Hb.
  - rewrite der_strip_cons.
    destruct ((byte.unsigned b =? 0) && (byte.unsigned c <? 128)) eqn:E.
    + apply IH. apply andb_prop in E. destruct E as [_ E]. apply Z.ltb_lt. exact E.
    + cbn [der_integer_ok]. rewrite E. apply Z.ltb_lt in Hb. rewrite Hb. reflexivity.
Qed.

Lemma der_strip_length l :
  l <> [] -> (1 <= length (der_strip l) <= length l)%nat.
Proof.
  induction l as [|b l IH]; [congruence|]. intros _.
  destruct l as [|c t]; [cbn; lia|].
  rewrite der_strip_cons.
  destruct ((byte.unsigned b =? 0) && (byte.unsigned c <? 128)).
  - specialize (IH ltac:(discriminate)). cbn [length] in *. lia.
  - cbn [length]. lia.
Qed.

Lemma der_integer_props a :
  0 <= a < secp256k1_n ->
  be_combine (der_integer a) = a /\
  der_integer_ok (der_integer a) = true /\
  (1 <= length (der_integer a) <= 33)%nat.
Proof.
  intros H. pose proof secp256k1_n_range as Hn. unfold der_integer. repeat split.
  - rewrite der_strip_value, be_combine_zero_cons.
    apply be_combine_split_32. lia.
  - apply der_strip_ok. cbn. lia.
  - apply der_strip_length. discriminate.
  - pose proof (der_strip_length (Byte.x00 :: secp256k1_scalar_get_b32 a)
                  ltac:(discriminate)) as L.
    assert (E : length (Byte.x00 :: secp256k1_scalar_get_b32 a) = 33%nat).
    { cbn [length]. unfold secp256k1_scalar_get_b32. rewrite be_split_length.
      reflexivity. }
    rewrite E in L. apply L.
Qed.

Lemma byte_of_Z_small z : 0 <= z < 256 -> byte.unsigned (byte.of_Z z) = z.
Proof.
  intros H. rewrite byte.unsigned_of_Z. unfold byte.wrap. apply Z.mod_small.
  change (2 ^ 8) with 256. exact H.
Qed.

Lemma firstn_length_app {A} (l l' : list A) : firstn (length l) (l ++ l') = l.
Proof. rewrite firstn_app, Nat.sub_diag, firstn_O, firstn_all. apply app_nil_r. Qed.

Lemma skipn_length_app {A} (l l' : list A) : skipn (length l) (l ++ l') = l'.
Proof. rewrite skipn_app, Nat.sub_diag, skipn_all. reflexivity. Qed.

(** Parsing reads back what serialisation writes. *)
Lemma sig_parse_serialize size sig bytes len :
  0 <= sig_r sig < secp256k1_n -> 0 <= sig_s sig < secp256k1_n ->
  secp256k1_ecdsa_sig_serialize size sig = (1, bytes, len) ->
  secp256k1_ecdsa_sig_parse bytes = Some sig /\ len = Z.of_nat (length bytes).
Proof.
  intros Hr Hs. unfold secp256k1_ecdsa_sig_serialize.
  destruct (der_integer_props _ Hr) as [Vr [Okr Lr]].
  destruct (der_integer_props _ Hs) as [Vs [Oks Ls]].
  set (rp := der_integer (sig_r sig)) in *.
  set (sp := der_integer (sig_s sig)) in *.
  destruct (size <? _); [discriminate|].
  intros E.
  pose proof (f_equal (fun t => snd (fst t)) E) as E1.
  pose proof (f_equal snd E) as E2. cbn [fst snd] in E1, E2. subst bytes len. clear E.
  split.
  2:{ cbn [app length]. rewrite length_app. cbn [length]. lia. }
  cbn [app]. unfold secp256k1_ecdsa_sig_parse.
  rewrite !byte_of_Z_small by lia.
  rewrite Nat2Z.id, firstn_length_app, skipn_length_app.
  rewrite !byte_of_Z_small by lia.
  rewrite Okr, Oks, Vr, Vs, !Z.eqb_refl.
  change (byte.unsigned Byte.x30 =? 48) with true.
  change (byte.unsigned Byte.x02 =? 2) with true.
  cbn [andb].
  destruct (Z.ltb_spec (sig_r sig) secp256k1_n); [|lia].
  destruct (Z.ltb_spec (sig_s sig) secp256k1_n); [|lia].
  destruct sig; reflexivity.
Qed.

(* ----------------------------------------------------------------- *)
(** ** Consequences of the group laws *)

Create HintDb ge_group.

Section GroupFacts.
Variable C : curve.
Hypothesis L : curve_laws C.

Local Infix "+g" := (ge_add C) (at level 50, left associativity).
Local Notation "-g a" := (ge_neg C a) (at level 35, right associativity).
Local Abbreviation inf := (ge_infinity C).
Local Abbreviation G := (ge_const_g C).
Local Abbreviation in_group := (ge_in_group C).

Lemma infinity_in_group : in_group inf.
Proof. left. apply (is_infinity_spec C L). reflexivity. Qed.

Lemma valid_in_group a : ge_is_valid_var C a = true -> in_group a.
Proof. intros H. right. exact H. Qed.

Lemma g_in_group : in_group G.
Proof. apply valid_in_group, (g_valid C L). Qed.

Lemma g2_in_group : in_group (ge_const_g2 C).
Proof. apply valid_in_group, (g2_valid C L). Qed.

Lemma ge_add_in_group a b : in_group a -> in_group b -> in_group (a +g b).
Proof. apply (add_in_group C L). Qed.

Lemma ge_neg_in_group a : in_group a -> in_group (-g a).
Proof. apply (neg_in_group C L). Qed.

Hint Resolve infinity_in_group g_in_group g2_in_group ge_add_in_group
  ge_neg_in_group : ge_group.

Lemma add_infinity_r a : in_group a -> a +g inf = a.
Proof.
  intros H. rewrite (add_comm C L) by auto with ge_group.
  apply (add_infinity_l C L). exact H.
Qed.

Lemma add_neg_l a : in_group a -> -g a +g a = inf.
Proof.
  intros H. rewrite (add_comm C L) by auto with ge_group.
  apply (add_neg_r C L). exact H.
Qed.

Lemma neg_unique a b : in_group a -> in_group b -> a +g b = inf -> b = -g a.
Proof.
  intros Ha Hb H.
  rewrite <- (add_infinity_l C L b) by assumption.
  rewrite <- (add_neg_l a) by assumption.
  rewrite <- (add_assoc C L) by auto with ge_group.
  rewrite H. apply add_infinity_r. auto with ge_group.
Qed.

Lemma neg_infinity : -g inf = inf.
Proof.
  symmetry. apply neg_unique; auto with ge_group.
  apply (add_infinity_l C L). auto with ge_group.
Qed.

Lemma neg_neg a : in_group a -> -g (-g a) = a.
Proof.
  intros H. symmetry. apply neg_unique; auto with ge_group. apply add_neg_l. exact H.
Qed.

Lemma neg_add a b : in_group a -> in_group b -> -g (a +g b) = -g a +g -g b.
Proof.
  intros Ha Hb. symmetry. apply neg_unique; auto with ge_group.
  rewrite (add_comm C L (-g a)) by auto with ge_group.
  rewrite (add_assoc C L) by auto with ge_group.
  rewrite <- (add_assoc C L a) by auto with ge_group.
  rewrite (add_neg_r C L) by assumption.
  rewrite add_infinity_r by assumption.
  apply (add_neg_r C L). exact Ha.
Qed.

Lemma not_infinity_valid a :
  in_group a -> a <> inf -> ge_is_valid_var C a = true.
Proof.
  intros [H|H] Hn; [|exact H]. apply (is_infinity_spec C L) in H. contradiction.
Qed.

Lemma valid_not_infinity a : ge_is_valid_var C a = true -> ge_is_infinity C a = false.
Proof.
  intros H. destruct (ge_is_infinity C a) eqn:E; [|reflexivity].
  apply (is_infinity_spec C L) in E. subst a.
  rewrite (infinity_not_valid C L) in H. discriminate.
Qed.

(** *** Multiples *)

Lemma mul_nat_succ k a : ge_mul_nat C (S k) a = a +g ge_mul_nat C k a.
Proof. reflexivity. Qed.

Lemma mul_nat_in_group k a : in_group a -> in_group (ge_mul_nat C k a).
Proof.
  intros H. induction k as [|k IH]; [apply infinity_in_group|].
  rewrite mul_nat_succ. auto with ge_group.
Qed.

Hint Resolve mul_nat_in_group : ge_group.

Lemma mul_nat_add j k a :
  in_group a -> ge_mul_nat C (j + k) a = ge_mul_nat C j a +g ge_mul_nat C k a.
Proof.
  intros H. induction j as [|j IH].
  - cbn [Nat.add]. symmetry. apply (add_infinity_l C L). auto with ge_group.
  - cbn [Nat.add]. rewrite !mul_nat_succ, IH.
    apply (add_assoc C L); auto with ge_group.
Qed.

Lemma mul_nat_add_distr k a b :
  in_group a -> in_group b ->
  ge_mul_nat C k (a +g b) = ge_mul_nat C k a +g ge_mul_nat C k b.
Proof.
  intros Ha Hb. induction k as [|k IH].
  - symmetry. apply (add_infinity_l C L). auto with ge_group.
  - rewrite !mul_nat_succ, IH.
    set (x := ge_mul_nat C k a). set (y := ge_mul_nat C k b).
    assert (in_group x) by (subst x; auto with ge_group).
    assert (in_group y) by (subst y; auto with ge_group).
    rewrite <- (add_assoc C L a b) by auto with ge_group.
    rewrite (add_assoc C L b x y) by auto with ge_group.
    rewrite (add_comm C L b x) by auto with ge_group.
    rewrite <- (add_assoc C L x b y) by auto with ge_group.
    rewrite (add_assoc C L a x) by auto with ge_group.
    reflexivity.
Qed.

Lemma mul_nat_infinity k : ge_mul_nat C k inf = inf.
Proof.
  induction k as [|k IH]; [reflexivity|].
  rewrite mul_nat_succ, IH. apply (add_infinity_l C L). auto with ge_group.
Qed.

Lemma mul_nat_mul j k a :
  in_group a -> ge_mul_nat C (j * k) a = ge_mul_nat C j (ge_mul_nat C k a).
Proof.
  intros H. induction j as [|j IH]; [reflexivity|].
  cbn [Nat.mul]. rewrite mul_nat_add, IH by assumption. reflexivity.
Qed.

Lemma iter_op_mul_nat m : forall a,
  in_group a -> Pos.iter_op (ge_add C) m a = ge_mul_nat C (Pos.to_nat m) a.
Proof.
  induction m as [m IH|m IH|]; intros a Ha; cbn [Pos.iter_op].
  - rewrite IH by auto with ge_group.
    rewrite Pos2Nat.inj_xI, mul_nat_succ. f_equal.
    rewrite mul_nat_add_distr by assumption.
    rewrite <- mul_nat_add by assumption. f_equal. lia.
  - rewrite IH by auto with ge_group.
    rewrite Pos2Nat.inj_xO.
    rewrite mul_nat_add_distr by assumption.
    rewrite <- mul_nat_add by assumption. f_equal. lia.
  - cbn. symmetry. apply add_infinity_r. exact Ha.
Qed.

Lemma ge_mul_nonneg k a :
  0 <= k -> in_group a -> ge_mul C k a = ge_mul_nat C (Z.to_nat k) a.
Proof.
  intros Hk Ha. destruct k as [|m|m]; [reflexivity| |lia].
  cbn [ge_mul]. rewrite iter_op_mul_nat by assumption.
  rewrite Z2Nat.inj_pos. reflexivity.
Qed.

Lemma ge_mul_in_group k a : in_group a -> in_group (ge_mul C k a).
Proof.
  intros Ha. destruct k as [|m|m]; cbn [ge_mul].
  - apply infinity_in_group.
  - rewrite iter_op_mul_nat by assumption. auto with ge_group.
  - rewrite iter_op_mul_nat by assumption. auto with ge_group.
Qed.

Hint Resolve ge_mul_in_group : ge_group.

Lemma ge_mul_add j k a :
  0 <= j -> 0 <= k -> in_group a ->
  ge_mul C (j + k) a = ge_mul C j a +g ge_mul C k a.
Proof.
  intros Hj Hk Ha. rewrite !ge_mul_nonneg by (assumption || lia).
  rewrite Z2Nat.inj_add by assumption. apply mul_nat_add. exact Ha.
Qed.

Lemma ge_mul_mul j k a :
  0 <= j -> 0 <= k -> in_group a ->
  ge_mul C (j * k) a = ge_mul C j (ge_mul C k a).
Proof.
  intros Hj Hk Ha. rewrite !ge_mul_nonneg by (auto with ge_group || lia).
  rewrite Z2Nat.inj_mul by assumption. apply mul_nat_mul. exact Ha.
Qed.

Lemma ge_mul_infinity k : 0 <= k -> ge_mul C k inf = inf.
Proof.
  intros Hk. rewrite ge_mul_nonneg by auto with ge_group. apply mul_nat_infinity.
Qed.

Lemma ge_mul_1 a : in_group a -> ge_mul C 1 a = a.
Proof. intros _. reflexivity. Qed.

Lemma ge_mul_opp k a : in_group a -> ge_mul C (- k) a = -g ge_mul C k a.
Proof.
  intros Ha. destruct k as [|m|m]; cbn [Z.opp ge_mul].
  - symmetry. apply neg_infinity.
  - reflexivity.
  - symmetry. apply neg_neg. rewrite iter_op_mul_nat by assumption. auto with ge_group.
Qed.

(** *** Multiples of the generator *)

Lemma g_mul_mod k : 0 <= k -> ge_mul C (k mod secp256k1_n) G = ge_mul C k G.
Proof.
  intros Hk. pose proof secp256k1_n_range as Hn.
  pose proof (scalar_mod_range k) as Hr.
  rewrite (Z.div_mod k secp256k1_n) at 2 by lia.
  assert (0 <= k / secp256k1_n) by (apply Z.div_pos; lia).
  rewrite ge_mul_add by (auto with ge_group; nia).
  rewrite (Z.mul_comm secp256k1_n), ge_mul_mul by (auto with ge_group; lia).
  rewrite (g_order C L), ge_mul_infinity by assumption.
  symmetry. apply (add_infinity_l C L). auto with ge_group.
Qed.

Lemma g_not_infinity : G <> inf.
Proof.
  intros H. pose proof (g_valid C L) as V. rewrite H in V.
  rewrite (infinity_not_valid C L) in V. discriminate.
Qed.

Lemma g_mul_not_infinity k :
  0 < k < secp256k1_n -> ge_mul C k G <> inf.
Proof.
  intros Hk E. apply g_not_infinity.
  pose proof (scalar_inverse_range k) as Hi.
  pose proof (scalar_inverse_spec k) as Hs.
  rewrite Z.mod_small in Hs by lia. specialize (Hs ltac:(lia)).
  rewrite <- (ge_mul_1 G) by auto with ge_group.
  rewrite <- Hs, g_mul_mod by nia.
  rewrite ge_mul_mul by (auto with ge_group; lia).
  rewrite E. apply ge_mul_infinity. lia.
Qed.

Lemma g_mul_valid k :
  0 < k < secp256k1_n -> ge_is_valid_var C (ge_mul C k G) = true.
Proof.
  intros Hk. apply not_infinity_valid; [auto with ge_group|].
  apply g_mul_not_infinity. exact Hk.
Qed.

Lemma g_mul_neg k :
  0 <= k <= secp256k1_n ->
  ge_mul C (secp256k1_n - k) G = -g ge_mul C k G.
Proof.
  intros Hk. apply neg_unique; auto with ge_group.
  rewrite <- ge_mul_add by (auto with ge_group; lia).
  replace (k + (secp256k1_n - k)) with secp256k1_n by ring.
  apply (g_order C L).
Qed.

(** The blinding of the generator multiplication does not show in its
    result. *)
Lemma ecmult_gen_spec ctx a :
  secp256k1_ecmult_gen_context_is_built C ctx -> 0 <= a < secp256k1_n ->
  secp256k1_ecmult_gen C ctx a = ge_mul C a G.
Proof.
  intros [Hb Hi] Ha. unfold secp256k1_ecmult_gen, secp256k1_scalar_add.
  rewrite Hi, g_mul_mod by lia.
  rewrite ge_mul_add by (auto with ge_group; lia).
  set (x := ge_mul C a G). set (y := ge_mul C (blind ctx) G).
  assert (in_group x) by (subst x; auto with ge_group).
  assert (in_group y) by (subst y; auto with ge_group).
  rewrite (add_comm C L x y) by assumption.
  rewrite (add_assoc C L) by auto with ge_group.
  rewrite add_neg_l by assumption.
  apply (add_infinity_l C L). assumption.
Qed.

End GroupFacts.

#[global] Hint Resolve infinity_in_group g_in_group g2_in_group ge_add_in_group
  ge_neg_in_group mul_nat_in_group ge_mul_in_group valid_in_group : ge_group.

(* ----------------------------------------------------------------- *)
(** ** The logarithmic instance satisfies the laws *)

Lemma dlog_in_group a : ge_in_group dlog_curve a <-> 0 <= a < secp256k1_n.
Proof.
  pose proof secp256k1_n_range as Hn.
  unfold ge_in_group. cbn. unfold dlog_is_valid_var. lia.
Qed.

Lemma dlog_curve_laws : curve_laws dlog_curve.
Proof.
  pose proof secp256k1_n_range as Hn. pose proof secp256k1_n_odd as Ho.
  pose proof secp256k1_n_lt_p as Hp.
  constructor.
  11: (vm_compute; reflexivity).
  5-10: setoid_rewrite dlog_in_group.
  all: cbv beta iota zeta delta
         [dlog_curve ge ge_infinity ge_is_infinity ge_is_valid_var ge_neg ge_add ge_x ge_y
          ge_set_xy ge_set_xo_var ge_const_g ge_const_g2
          dlog_is_valid_var dlog_add dlog_neg dlog_x dlog_y dlog_set_xy dlog_set_xo_var].
  - intros a. lia.
  - lia.
  - lia.
  - lia.
  - intros a b Ha Hb. destruct (Z.ltb_spec (a + b) secp256k1_n); lia.
  - intros a Ha. destruct (Z.eqb_spec a 0); lia.
  - intros a b Ha Hb. rewrite (Z.add_comm b a). reflexivity.
  - intros a b c Ha Hb Hc.
    destruct (Z.ltb_spec (b + c) secp256k1_n), (Z.ltb_spec (a + b) secp256k1_n);
      repeat match goal with
             | |- context [?x <? ?y] => destruct (Z.ltb_spec x y)
             end; lia.
  - intros a Ha. destruct (Z.ltb_spec (0 + a) secp256k1_n); lia.
  - intros a Ha. destruct (Z.eqb_spec a 0) as [->|Hne].
    + destruct (Z.ltb_spec (0 + 0) secp256k1_n); lia.
    + destruct (Z.ltb_spec (a + (secp256k1_n - a)) secp256k1_n); lia.
  - intros a Ha. destruct (Z.ltb_spec (2 * a) secp256k1_n); lia.
  - intros a Ha. destruct (Z.ltb_spec (2 * a) secp256k1_n); lia.
  - intros a Ha. destruct (Z.eqb_spec a 0); [lia|].
    destruct (Z.ltb_spec (2 * (secp256k1_n - a)) secp256k1_n),
      (Z.ltb_spec (2 * a) secp256k1_n); lia.
  - intros a Ha. destruct (Z.ltb_spec (2 * a) secp256k1_n); cbn [Z.odd]; lia.
  - intros a Ha. destruct (Z.ltb_spec (2 * a) secp256k1_n); cbn [Z.odd].
    + destruct (Z.ltb_spec 0 a), (Z.ltb_spec (2 * a) secp256k1_n); try lia.
      reflexivity.
    + destruct (Z.ltb_spec 0 (secp256k1_n - a)),
        (Z.ltb_spec (2 * (secp256k1_n - a)) secp256k1_n); try lia.
      cbn [andb]. f_equal. lia.
  - intros x odd a.
    destruct (Z.ltb_spec 0 x), (Z.ltb_spec (2 * x) secp256k1_n); cbn [andb];
      try discriminate.
    intros E. injection E as <-. destruct odd; lia.
Qed.

(* ----------------------------------------------------------------- *)
(** ** Return values of verification *)

(** C3: for every input, [secp256k1_ecdsa_verify] returns 1 exactly when the
    public key parses, the signature parses and the signature is valid; 0
    exactly when both parse and the signature is not valid; -1 exactly when
    the public key does not parse; -2 exactly when the public key parses and
    the signature does not.  It returns no other value, and never its
    initial -3. *)
Theorem ecdsa_verify_return_values (C : curve) (msg32 sig pubkey : list byte) :
  let ret := secp256k1_ecdsa_verify C msg32 sig pubkey in
  let m := fst (secp256k1_scalar_set_b32 msg32) in
  (ret = 1 \/ ret = 0 \/ ret = -1 \/ ret = -2) /\
  ret <> -3 /\
  (ret = 1 <-> exists q s, secp256k1_eckey_pubkey_parse C pubkey = Some q /\
                           secp256k1_ecdsa_sig_parse sig = Some s /\
                           secp256k1_ecdsa_sig_verify C s q m = true) /\
  (ret = 0 <-> exists q s, secp256k1_eckey_pubkey_parse C pubkey = Some q /\
                           secp256k1_ecdsa_sig_parse sig = Some s /\
                           secp256k1_ecdsa_sig_verify C s q m = false) /\
  (ret = -1 <-> secp256k1_eckey_pubkey_parse C pubkey = None) /\
  (ret = -2 <-> (exists q, secp256k1_eckey_pubkey_parse C pubkey = Some q) /\
                secp256k1_ecdsa_sig_parse sig = None).
Proof.
  unfold secp256k1_ecdsa_verify. cbv zeta.
  destruct (secp256k1_eckey_pubkey_parse C pubkey) as [q|] eqn:Hq.
  - destruct (secp256k1_ecdsa_sig_parse sig) as [s|] eqn:Hs.
    + destruct (secp256k1_ecdsa_sig_verify C s q _) eqn:Hv.
      * repeat split; try lia; try discriminate; eauto.
        -- intros (q' & s' & E1 & E2 & E3). injection E1 as <-. injection E2 as <-.
           congruence.
        -- intros [_ E]. discriminate.
      * repeat split; try lia; try discriminate; eauto.
        -- intros (q' & s' & E1 & E2 & E3). injection E1 as <-. injection E2 as <-.
           congruence.
        -- intros [_ E]. discriminate.
    + repeat split; try lia; try discriminate; eauto.
      * intros (q' & s' & E1 & E2 & E3). discriminate.
      * intros (q' & s' & E1 & E2 & E3). discriminate.
  - repeat split; try lia; try discriminate; eauto.
    + intros (q' & s' & E1 & E2 & E3). discriminate.
    + intros (q' & s' & E1 & E2 & E3). discriminate.
    + intros [[q' E] _]. discriminate.
Qed.

(* ----------------------------------------------------------------- *)
(** ** Private-key tweaking *)

(** The result of [secp256k1_ec_privkey_tweak_add] in closed form. *)
Lemma privkey_tweak_add_eq (seckey tweak : list byte) :
  secp256k1_ec_privkey_tweak_add seckey tweak =
  if (be_combine tweak <? secp256k1_n) &&
     negb ((be_combine seckey + be_combine tweak) mod secp256k1_n =? 0)
  then (1, secp256k1_scalar_get_b32
             ((be_combine seckey + be_combine tweak) mod secp256k1_n))
  else (0, seckey).
Proof.
  pose proof secp256k1_n_range as Hn.
  unfold secp256k1_ec_privkey_tweak_add, secp256k1_eckey_privkey_tweak_add,
    secp256k1_scalar_set_b32, secp256k1_scalar_add, secp256k1_scalar_is_zero.
  cbn [fst]. rewrite <- Z.add_mod by lia.
  set (k := (be_combine seckey + be_combine tweak) mod secp256k1_n).
  destruct (Z.eqb_spec k 0) as [E|E];
    destruct (Z.leb_spec secp256k1_n (be_combine tweak)),
      (Z.ltb_spec (be_combine tweak) secp256k1_n); try lia; reflexivity.
Qed.

(** C8: [secp256k1_ec_privkey_tweak_add] succeeds and replaces the secret
    key with (d + t) mod n exactly when t < n and (d + t) mod n is not
    zero; it returns 0 when t >= n or the sum is zero, and then leaves the
    [seckey] buffer unchanged. *)
Theorem privkey_tweak_add_spec (seckey tweak : list byte) :
  let d := be_combine seckey in
  let t := be_combine tweak in
  let sum := (d + t) mod secp256k1_n in
  (t < secp256k1_n /\ sum <> 0 ->
   secp256k1_ec_privkey_tweak_add seckey tweak = (1, secp256k1_scalar_get_b32 sum)) /\
  (secp256k1_n <= t \/ sum = 0 ->
   secp256k1_ec_privkey_tweak_add seckey tweak = (0, seckey)) /\
  (fst (secp256k1_ec_privkey_tweak_add seckey tweak) = 1 <->
   t < secp256k1_n /\ sum <> 0).
Proof.
  cbv zeta. rewrite privkey_tweak_add_eq.
  destruct (Z.ltb_spec (be_combine tweak) secp256k1_n) as [Ht|Ht];
    destruct (Z.eqb_spec ((be_combine seckey + be_combine tweak) mod secp256k1_n) 0)
      as [E|E]; cbn [andb negb fst]; repeat split; intros; try reflexivity;
    try lia; try (exfalso; lia); try discriminate.
Qed.

(** The claim at a key d = 5 and tweaks 7, n - 5 and n. *)
Lemma privkey_tweak_add_spec_witness :
  secp256k1_ec_privkey_tweak_add (be_split 32 5) (be_split 32 7) =
    (1, secp256k1_scalar_get_b32 12) /\
  secp256k1_ec_privkey_tweak_add (be_split 32 5) (be_split 32 (secp256k1_n - 5)) =
    (0, be_split 32 5) /\
  secp256k1_ec_privkey_tweak_add (be_split 32 5) (be_split 32 secp256k1_n) =
    (0, be_split 32 5).
Proof.
  pose proof (privkey_tweak_add_spec (be_split 32 5) (be_split 32 7)) as H1.
  pose proof (privkey_tweak_add_spec (be_split 32 5) (be_split 32 (secp256k1_n - 5))) as H2.
  pose proof (privkey_tweak_add_spec (be_split 32 5) (be_split 32 secp256k1_n)) as H3.
  cbv zeta in H1, H2, H3.
  split; [|split].
  - apply (proj1 H1). split; vm_compute; [reflexivity|discriminate].
  - apply (proj1 (proj2 H2)). right. vm_compute. reflexivity.
  - apply (proj1 (proj2 H3)). left. vm_compute. discriminate.
Defined.

(** C9: [secp256k1_ec_privkey_tweak_add] does not range-check the secret
    key: whether it fails depends on the tweak and on the reduced sum only,
    and a key that encodes d >= n is reduced mod n, after which the call
    succeeds and writes ((d mod n) + t) mod n whenever t < n and that sum
    is not zero. *)
Theorem privkey_tweak_add_seckey_unchecked (seckey tweak : list byte) :
  let d := be_combine seckey in
  let t := be_combine tweak in
  let sum := ((d mod secp256k1_n) + t) mod secp256k1_n in
  (fst (secp256k1_ec_privkey_tweak_add seckey tweak) = 0 <->
   secp256k1_n <= t \/ sum = 0) /\
  (secp256k1_n <= d -> t < secp256k1_n -> sum <> 0 ->
   secp256k1_ec_privkey_tweak_add seckey tweak = (1, secp256k1_scalar_get_b32 sum)).
Proof.
  pose proof secp256k1_n_range as Hn.
  cbv zeta. rewrite privkey_tweak_add_eq. rewrite Z.add_mod_idemp_l by lia.
  destruct (Z.ltb_spec (be_combine tweak) secp256k1_n) as [Ht|Ht];
    destruct (Z.eqb_spec ((be_combine seckey + be_combine tweak) mod secp256k1_n) 0)
      as [E|E]; cbn [andb negb fst]; repeat split; intros; try reflexivity;
    try lia; try (exfalso; lia); try discriminate.
Qed.

(** The claim at the key 0xFF..FF, which is not below n, and the tweak 1. *)
Lemma privkey_tweak_add_seckey_unchecked_witness :
  secp256k1_n <= be_combine (be_split 32 (2 ^ 256 - 1)) /\
  secp256k1_ec_privkey_tweak_add (be_split 32 (2 ^ 256 - 1)) (be_split 32 1) =
    (1, secp256k1_scalar_get_b32 (2 ^ 256 - secp256k1_n)).
Proof.
  split; [vm_compute; discriminate|].
  apply (proj2 (privkey_tweak_add_seckey_unchecked (be_split 32 (2 ^ 256 - 1))
                  (be_split 32 1))).
  - vm_compute. discriminate.
  - vm_compute. reflexivity.
  - vm_compute. discriminate.
Defined.

(* ----------------------------------------------------------------- *)
(** ** Public-key tweaking on the opaque object *)

(** C10: whenever [secp256k1_ec_pubkey_tweak_add_ex] returns 0, the 64-byte
    [pubkey] object holds zero bytes only: the key passed in is not kept. *)
Theorem pubkey_tweak_add_ex_failure_zeroes (C : curve) (debug : bool)
  (pubkey tweak pubkey' : list byte) :
  secp256k1_ec_pubkey_tweak_add_ex C debug pubkey tweak = Some (0, pubkey') ->
  pubkey' = repeat Byte.x00 64.
Proof.
  unfold secp256k1_ec_pubkey_tweak_add_ex.
  destruct (secp256k1_scalar_set_b32 tweak) as [term overflow].
  destruct overflow; cbn [negb].
  - intros E. injection E as <-. reflexivity.
  - destruct (secp256k1_pubkey_load C debug pubkey) as [[l p]|]; [|discriminate].
    destruct (negb (l =? 0)); cbn [negb Z.eqb].
    + destruct (secp256k1_eckey_pubkey_tweak_add C p term) as [ok p'].
      destruct (negb (ok =? 0)).
      * intros E. discriminate.
      * intros E. injection E as <-. reflexivity.
    + intros E. injection E as <-. reflexivity.
Qed.

(** The claim at the generator as public key, with the tweak 0xFF..FF,
    which is not below n: the call returns 0 and the object, which held the
    generator, holds zero bytes. *)
Lemma pubkey_tweak_add_ex_failure_zeroes_witness :
  let pubkey := secp256k1_pubkey_save secp256k1_curve secp256k1_ge_const_g in
  secp256k1_ec_pubkey_tweak_add_ex secp256k1_curve true pubkey (be_split 32 (2 ^ 256 - 1))
    = Some (0, repeat Byte.x00 64) /\
  pubkey <> repeat Byte.x00 64.
Proof.
  cbv zeta. split; [|vm_compute; discriminate].
  assert (E : exists out,
             secp256k1_ec_pubkey_tweak_add_ex secp256k1_curve true
               (secp256k1_pubkey_save secp256k1_curve secp256k1_ge_const_g)
               (be_split 32 (2 ^ 256 - 1)) = Some (0, out)).
  { eexists. vm_compute. reflexivity. }
  destruct E as [out E].
  rewrite E. f_equal. f_equal.
  exact (pubkey_tweak_add_ex_failure_zeroes _ _ _ _ _ E).
Defined.

(* ----------------------------------------------------------------- *)
(** ** Blinding sums *)

Lemma signed_sum_from_spec npositive bs : forall i,
  0 <= i ->
  signed_sum_from i npositive bs =
  fold_right Z.add 0 (firstn (Z.to_nat (npositive - i)) bs) -
  fold_right Z.add 0 (skipn (Z.to_nat (npositive - i)) bs).
Proof.
  induction bs as [|b bs IH]; intros i Hi.
  - rewrite firstn_nil, skipn_nil. reflexivity.
  - cbn [signed_sum_from]. rewrite IH by lia.
    destruct (Z.leb_spec npositive i) as [H|H].
    + replace (Z.to_nat (npositive - i)) with 0%nat by lia.
      replace (Z.to_nat (npositive - (i + 1))) with 0%nat by lia.
      cbn [firstn skipn fold_right]. lia.
    + replace (Z.to_nat (npositive - i)) with (S (Z.to_nat (npositive - (i + 1)))) by lia.
      cbn [firstn skipn fold_right]. lia.
Qed.

Lemma blind_sum_loop_ok npositive blinds : forall i acc,
  Forall (fun b => be_combine b < secp256k1_n) blinds ->
  secp256k1_pedersen_blind_sum_loop blinds i npositive acc =
  Some ((acc + signed_sum_from i npositive (map be_combine blinds)) mod secp256k1_n)
  \/ blinds = [] /\
     secp256k1_pedersen_blind_sum_loop blinds i npositive acc = Some acc.
Proof.
  pose proof secp256k1_n_range as Hn.
  induction blinds as [|b blinds IH]; intros i acc HF.
  - right. split; reflexivity.
  - left. inversion HF as [|? ? Hb HF']; subst.
    pose proof (be_combine_range b) as Hr.
    cbn [secp256k1_pedersen_blind_sum_loop map signed_sum_from].
    unfold secp256k1_scalar_set_b32.
    destruct (Z.leb_spec secp256k1_n (be_combine b)); [lia|].
    rewrite (Z.mod_small (be_combine b)) by lia.
    set (x := if npositive <=? i then secp256k1_scalar_negate (be_combine b)
              else be_combine b).
    assert (Hx : x mod secp256k1_n =
                 (if npositive <=? i then - be_combine b else be_combine b)
                   mod secp256k1_n).
    { subst x. destruct (npositive <=? i); [|reflexivity].
      unfold secp256k1_scalar_negate. apply Z.mod_mod. lia. }
    assert (Hs : forall rest, (secp256k1_scalar_add acc x + rest) mod secp256k1_n =
                 (acc + ((if npositive <=? i then - be_combine b else be_combine b)
                         + rest)) mod secp256k1_n).
    { intros rest. unfold secp256k1_scalar_add.
      rewrite Z.add_mod_idemp_l by lia.
      rewrite <- Z.add_assoc.
      rewrite (Z.add_mod acc (x + rest)) by lia.
      rewrite (Z.add_mod x rest) by lia. rewrite Hx.
      rewrite <- (Z.add_mod _ rest) by lia.
      rewrite <- Z.add_mod by lia. reflexivity. }
    destruct (IH (i + 1) (secp256k1_scalar_add acc x) HF') as [E|[-> E]].
    + rewrite E, Hs. reflexivity.
    + rewrite E. cbn [map signed_sum_from].
      rewrite <- Hs, Z.add_0_r. unfold secp256k1_scalar_add.
      rewrite Z.mod_mod by lia. reflexivity.
Qed.

Lemma blind_sum_loop_overflow npositive blinds : forall i acc,
  Exists (fun b => secp256k1_n <= be_combine b) blinds ->
  secp256k1_pedersen_blind_sum_loop blinds i npositive acc = None.
Proof.
  induction blinds as [|b blinds IH]; intros i acc HE.
  - inversion HE.
  - cbn [secp256k1_pedersen_blind_sum_loop]. unfold secp256k1_scalar_set_b32.
    destruct (Z.leb_spec secp256k1_n (be_combine b)) as [H|H]; [reflexivity|].
    apply IH. inversion HE; subst; [lia|assumption].
Qed.

(** C6: if every blinding factor is below n, [secp256k1_pedersen_blind_sum]
    returns 1 and writes the 32-byte encoding of (the sum of the factors
    below index [npositive]) minus (the sum of the others) mod n; if some
    factor is not below n it returns 0. *)
Theorem pedersen_blind_sum_correct (blind_out : list byte) (blinds : list (list byte))
  (npositive : Z) :
  (Forall (fun b => be_combine b < secp256k1_n) blinds ->
   secp256k1_pedersen_blind_sum blind_out blinds npositive =
   (1, secp256k1_scalar_get_b32
         (blind_sum_spec (map be_combine blinds) npositive mod secp256k1_n))) /\
  (Exists (fun b => secp256k1_n <= be_combine b) blinds ->
   secp256k1_pedersen_blind_sum blind_out blinds npositive = (0, blind_out)).
Proof.
  pose proof secp256k1_n_range as Hn.
  unfold secp256k1_pedersen_blind_sum, secp256k1_scalar_set_int. split.
  - intros HF. unfold blind_sum_spec.
    rewrite <- (Z.sub_0_r npositive) at 2 3.
    rewrite <- signed_sum_from_spec by lia.
    rewrite Z.mod_0_l by lia.
    destruct (blind_sum_loop_ok npositive blinds 0 0 HF) as [E|[-> E]]; rewrite E.
    + reflexivity.
    + reflexivity.
  - intros HE. rewrite blind_sum_loop_overflow by assumption. reflexivity.
Qed.

(** The claim at the factors 5, 7, 3 with two of them positive, and at a
    list with the factor 0xFF..FF. *)
Lemma pedersen_blind_sum_correct_witness :
  secp256k1_pedersen_blind_sum [] [be_split 32 5; be_split 32 7; be_split 32 3] 2 =
    (1, be_split 32 9) /\
  secp256k1_pedersen_blind_sum [] [be_split 32 5; be_split 32 (2 ^ 256 - 1)] 1 = (0, []).
Proof.
  split.
  - apply (proj1 (pedersen_blind_sum_correct []
                    [be_split 32 5; be_split 32 7; be_split 32 3] 2)).
    repeat constructor; vm_compute; reflexivity.
  - apply (proj2 (pedersen_blind_sum_correct []
                    [be_split 32 5; be_split 32 (2 ^ 256 - 1)] 1)).
    right. left. vm_compute. discriminate.
Defined.

(* ----------------------------------------------------------------- *)
(** ** Signing: the loop and the lower-S form *)

Lemma pair3_inj {A B D} (a a' : A) (b b' : B) (c c' : D) :
  Some (a, b, c) = Some (a', b', c') -> a = a' /\ b = b' /\ c = c'.
Proof. intros E. inversion E. auto. Qed.

Lemma firstn_exact_app {A} k (l l' : list A) : length l = k -> firstn k (l ++ l') = l.
Proof. intros <-. apply firstn_length_app. Qed.

Lemma skipn_exact_app {A} k (l l' : list A) : length l = k -> skipn k (l ++ l') = l'.
Proof. intros <-. apply skipn_length_app. Qed.

Lemma scalar_set_b32_range b : 0 <= fst (secp256k1_scalar_set_b32 b) < secp256k1_n.
Proof. apply scalar_mod_range. Qed.

Lemma signature_load_save r s :
  0 <= r < secp256k1_n -> 0 <= s < secp256k1_n ->
  secp256k1_ecdsa_signature_load (secp256k1_ecdsa_signature_save r s) = (r, s).
Proof.
  intros Hr Hs. unfold secp256k1_ecdsa_signature_load, secp256k1_ecdsa_signature_save.
  rewrite firstn_exact_app, skipn_exact_app
    by (unfold secp256k1_scalar_get_b32; apply be_split_length).
  rewrite firstn_all2
    by (unfold secp256k1_scalar_get_b32; rewrite be_split_length; apply Nat.le_refl).
  rewrite !scalar_set_get_b32 by assumption. reflexivity.
Qed.

Section Signing.
Variable C : curve.

(** What [secp256k1_ecdsa_sig_sign] returns is a pair of nonzero scalars
    with s in the lower half. *)
Lemma sig_sign_range ctx sec msg non sg :
  secp256k1_ecdsa_sig_sign C ctx sec msg non = Some sg ->
  0 < sig_r sg < secp256k1_n /\ 0 < sig_s sg < secp256k1_n /\
  secp256k1_scalar_is_high (sig_s sg) = false.
Proof.
  pose proof secp256k1_n_range as Hn. pose proof secp256k1_n_odd as Ho.
  unfold secp256k1_ecdsa_sig_sign, secp256k1_scalar_is_zero.
  set (r := ge_x C _ mod secp256k1_n).
  set (s := secp256k1_scalar_mul _ _).
  assert (Hr : 0 <= r < secp256k1_n) by apply scalar_mod_range.
  assert (Hs : 0 <= s < secp256k1_n) by apply scalar_mod_range.
  destruct (Z.eqb_spec r 0); [discriminate|].
  destruct (Z.eqb_spec s 0); [discriminate|].
  destruct (secp256k1_scalar_is_high s) eqn:Hh; intros E; injection E as <-; cbn [sig_r sig_s].
  - destruct (scalar_negate_high s Hs Hh) as (_ & ? & ?). repeat split; (lia || assumption).
  - repeat split; (lia || assumption).
Qed.

(** Leaving the loop with a signature means that the nonce function gave a
    nonzero result and a nonce in [1, n-1] that signs. *)
Lemma sign_loop_signature fuel ctx noncefp msg32 seckey noncedata sec msg : forall count ret sg,
  secp256k1_ecdsa_sign_loop C fuel ctx noncefp msg32 seckey noncedata sec msg count
    = Some (ret, Some sg) ->
  ret <> 0 /\
  exists non, 0 < non < secp256k1_n /\
    secp256k1_ecdsa_sig_sign C (ecmult_gen_ctx ctx) sec msg non = Some sg.
Proof.
  induction fuel as [|fuel IH]; intros count ret sg; [discriminate|].
  cbn [secp256k1_ecdsa_sign_loop].
  destruct (noncefp msg32 seckey count noncedata) as [ret0 nonce32].
  destruct (Z.eqb_spec ret0 0) as [|Hret]; [discriminate|].
  pose proof (scalar_set_b32_range nonce32) as Hnon.
  destruct (secp256k1_scalar_set_b32 nonce32) as [non overflow]. cbn [fst] in Hnon.
  unfold secp256k1_scalar_is_zero.
  destruct (Z.eqb_spec non 0) as [|Hnz]; cbn [negb andb]; [apply IH|].
  destruct overflow; cbn [negb]; [apply IH|].
  destruct (secp256k1_ecdsa_sig_sign C (ecmult_gen_ctx ctx) sec msg non) as [sg0|] eqn:Hsg;
    [|apply IH].
  intros E. assert (ret0 = ret /\ sg0 = sg) as [-> ->] by (inversion E; auto).
  split; [assumption|]. exists non. split; [lia|assumption].
Qed.

Lemma sign_loop_failure fuel ctx noncefp msg32 seckey noncedata sec msg : forall count ret,
  secp256k1_ecdsa_sign_loop C fuel ctx noncefp msg32 seckey noncedata sec msg count
    = Some (ret, None) -> ret = 0.
Proof.
  induction fuel as [|fuel IH]; intros count ret; [discriminate|].
  cbn [secp256k1_ecdsa_sign_loop].
  destruct (noncefp msg32 seckey count noncedata) as [ret0 nonce32].
  destruct (Z.eqb_spec ret0 0) as [->|Hret]; [intros E; inversion E; reflexivity|].
  destruct (secp256k1_scalar_set_b32 nonce32) as [non overflow].
  destruct (negb (secp256k1_scalar_is_zero non) && negb overflow); [|apply IH].
  destruct (secp256k1_ecdsa_sig_sign C (ecmult_gen_ctx ctx) sec msg non); [discriminate|].
  apply IH.
Qed.

(** A successful [secp256k1_ecdsa_sign]: the key is in [1, n-1], some nonce
    in [1, n-1] signed, and the output is the encoding of that signature. *)
Lemma ecdsa_sign_success O fuel ctx msg32 siglen seckey noncefp noncedata sig len :
  secp256k1_ecdsa_sign C O fuel ctx msg32 siglen seckey noncefp noncedata
    = Some (1, sig, len) ->
  0 < be_combine seckey < secp256k1_n /\
  exists non sg,
    0 < non < secp256k1_n /\
    secp256k1_ecdsa_sig_sign C (ecmult_gen_ctx ctx) (be_combine seckey)
      (be_combine msg32 mod secp256k1_n) non = Some sg /\
    secp256k1_ecdsa_sig_parse sig = Some sg /\
    len = Z.of_nat (length sig).
Proof.
  pose proof secp256k1_n_range as Hn.
  unfold secp256k1_ecdsa_sign, secp256k1_scalar_set_b32, secp256k1_scalar_is_zero.
  cbn [fst].
  pose proof (be_combine_range seckey) as Hk.
  destruct (Z.leb_spec secp256k1_n (be_combine seckey)) as [|Hlt]; cbn [negb andb];
    [intros E; apply pair3_inj in E; lia|].
  rewrite (Z.mod_small (be_combine seckey)) by lia.
  destruct (Z.eqb_spec (be_combine seckey) 0) as [|Hnz]; cbn [negb];
    [intros E; apply pair3_inj in E; lia|].
  destruct (secp256k1_ecdsa_sign_loop _ _ _ _ _ _ _ _ _ _) as [[ret [sg|]]|] eqn:Hloop;
    [| |discriminate].
  - destruct (sign_loop_signature _ _ _ _ _ _ _ _ _ _ _ Hloop) as [Hret (non & Hnon & Hsg)].
    destruct (Z.eqb_spec ret 0); [contradiction|].
    destruct (sig_sign_range _ _ _ _ _ Hsg) as (Hr & Hs & _).
    destruct (secp256k1_ecdsa_sig_serialize siglen sg) as [[ret' bytes] len'] eqn:Hser.
    destruct (Z.eqb_spec ret' 0); intros E; apply pair3_inj in E;
      destruct E as (E1 & E2 & E3); [lia|]. subst ret' bytes len'.
    split; [lia|]. exists non, sg.
    destruct (sig_parse_serialize siglen sg sig len ltac:(lia) ltac:(lia) Hser).
    auto.
  - apply sign_loop_failure in Hloop. subst ret. cbn [Z.eqb].
    intros E. apply pair3_inj in E. lia.
Qed.

(** A successful [secp256k1_ecdsa_sign_ex], likewise. *)
Lemma ecdsa_sign_ex_success O fuel ctx msg32 seckey noncefp noncedata ret sig64 :
  secp256k1_ecdsa_sign_ex C O fuel ctx msg32 seckey noncefp noncedata
    = Some (ret, sig64) ->
  ret <> 0 ->
  0 < be_combine seckey < secp256k1_n /\
  exists non sg,
    0 < non < secp256k1_n /\
    secp256k1_ecdsa_sig_sign C (ecmult_gen_ctx ctx) (be_combine seckey)
      (be_combine msg32 mod secp256k1_n) non = Some sg /\
    secp256k1_ecdsa_signature_load sig64 = (sig_r sg, sig_s sg).
Proof.
  pose proof secp256k1_n_range as Hn.
  unfold secp256k1_ecdsa_sign_ex, secp256k1_scalar_set_b32, secp256k1_scalar_is_zero.
  cbn [fst].
  pose proof (be_combine_range seckey) as Hk.
  destruct (Z.leb_spec secp256k1_n (be_combine seckey)) as [|Hlt]; cbn [negb andb];
    [intros E; inversion E; lia|].
  rewrite (Z.mod_small (be_combine seckey)) by lia.
  destruct (Z.eqb_spec (be_combine seckey) 0) as [|Hnz]; cbn [negb];
    [intros E; inversion E; lia|].
  destruct (secp256k1_ecdsa_sign_loop _ _ _ _ _ _ _ _ _ _) as [[ret0 [sg|]]|] eqn:Hloop;
    [| |discriminate].
  - destruct (sign_loop_signature _ _ _ _ _ _ _ _ _ _ _ Hloop) as [Hret (non & Hnon & Hsg)].
    destruct (Z.eqb_spec ret0 0); [contradiction|]. cbn [negb].
    destruct (sig_sign_range _ _ _ _ _ Hsg) as (Hr & Hs & _).
    intros E Hne. assert (sig64 = secp256k1_ecdsa_signature_save (sig_r sg) (sig_s sg))
      as -> by (inversion E; reflexivity).
    split; [lia|]. exists non, sg. repeat split; try assumption; try lia.
    apply signature_load_save; lia.
  - intros E Hne. inversion E. lia.
Qed.


End Signing.


(* ----------------------------------------------------------------- *)
(** ** Pedersen commitments: the encoding *)

(** C4, as the code has it: for every blinding factor and value for which
    [secp256k1_pedersen_commit] returns 1, the 33 bytes written to [commit]
    are the compressed public-key encoding of the committed point; the first
    byte is 0x02 bitwise-or the y-parity of the point, that is 0x02 or 0x03,
    the prefix of a compressed public key. *)
Theorem pedersen_commit_prefix (C : curve) (ctx : secp256k1_context_t C)
  (commit blind : list byte) (value : Z) (out : list byte) :
  secp256k1_pedersen_commit C ctx commit blind value = (1, out) ->
  let rj := secp256k1_ecmult_gen_gen2 C (ecmult_gen_ctx ctx)
              (fst (secp256k1_scalar_set_b32 blind)) value in
  let parity := if Z.odd (ge_y C rj) then 1 else 0 in
  be_combine blind < secp256k1_n /\
  secp256k1_eckey_pubkey_serialize C rj 1 = Some out /\
  out = byte.of_Z (Z.lor 0x02 parity) :: secp256k1_fe_get_b32 (ge_x C rj) /\
  hd Byte.x00 out = byte.of_Z (Z.lor 0x02 parity) /\
  (hd Byte.x00 out = Byte.x02 \/ hd Byte.x00 out = Byte.x03) /\
  length out = 33%nat.
Proof.
  unfold secp256k1_pedersen_commit.
  destruct (secp256k1_scalar_set_b32 blind) as [sec overflow] eqn:Hb. cbn [fst].
  assert (Ho : overflow = (secp256k1_n <=? be_combine blind))
    by (unfold secp256k1_scalar_set_b32 in Hb; inversion Hb; reflexivity).
  destruct overflow; cbn [negb]; [intros E; inversion E|].
  destruct (ge_is_infinity C _) eqn:Hinf; cbn [negb]; [intros E; inversion E|].
  destruct (secp256k1_eckey_pubkey_serialize C _ 1) as [bytes|] eqn:Hser;
    [|intros E; inversion E].
  intros E. assert (bytes = out) as -> by (inversion E; reflexivity). clear E.
  cbv zeta. split; [symmetry in Ho; apply Z.leb_gt in Ho; exact Ho|].
  split; [reflexivity|].
  unfold secp256k1_eckey_pubkey_serialize in Hser. rewrite Hinf in Hser.
  cbn [Z.eqb negb] in Hser. injection Hser as <-.
  split; [reflexivity|]. split; [reflexivity|]. split.
  - cbn [hd]. destruct (Z.odd _); [right|left]; reflexivity.
  - cbn [length]. unfold secp256k1_fe_get_b32. rewrite be_split_length. reflexivity.
Qed.

(** C4 as the claim states it fails: the commitment to the value 0 under the
    blinding factor 1 is the point G, and its first byte is 0x02, neither
    0x08 nor 0x09. *)
Lemma pedersen_commit_prefix_counterexample :
  exists out,
    be_combine (be_split 32 1) < secp256k1_n /\
    secp256k1_pedersen_commit secp256k1_curve (context_with_blinding secp256k1_curve 0)
      [] (be_split 32 1) 0 = (1, out) /\
    hd Byte.x00 out = Byte.x02 /\
    hd Byte.x00 out <> byte.of_Z (Z.lor 0x08 0) /\
    hd Byte.x00 out <> byte.of_Z (Z.lor 0x08 1).
Proof.
  eexists. split; [vm_compute; reflexivity|].
  split; [vm_compute; reflexivity|].
  split; [reflexivity|]. split; vm_compute; discriminate.
Qed.

(** The amended claim at the same commitment. *)
Lemma pedersen_commit_prefix_witness :
  exists out,
    secp256k1_pedersen_commit secp256k1_curve (context_with_blinding secp256k1_curve 0)
      [] (be_split 32 1) 0 = (1, out) /\
    (hd Byte.x00 out = Byte.x02 \/ hd Byte.x00 out = Byte.x03) /\
    length out = 33%nat.
Proof.
  assert (E : exists out,
             secp256k1_pedersen_commit secp256k1_curve
               (context_with_blinding secp256k1_curve 0) [] (be_split 32 1) 0 = (1, out))
    by (eexists; vm_compute; reflexivity).
  destruct E as (out & E). exists out. split; [exact E|].
  apply (pedersen_commit_prefix secp256k1_curve _ _ _ _ _ E).
Defined.

(* ----------------------------------------------------------------- *)
(** ** Keys: parsing reads back serialisation *)

Section Keys.
Variable C : curve.
Hypothesis L : curve_laws C.

Lemma pubkey_parse_valid pub q :
  secp256k1_eckey_pubkey_parse C pub = Some q -> ge_is_valid_var C q = true.
Proof.
  unfold secp256k1_eckey_pubkey_parse. destruct pub as [|h rest]; [discriminate|].
  destruct (_ && _).
  - destruct (secp256k1_fe_set_b32 rest) as [x|]; [|discriminate].
    apply (set_xo_valid C L).
  - destruct (_ && _); [|discriminate].
    destruct (secp256k1_fe_set_b32 (firstn 32 rest)) as [x|]; [|discriminate].
    destruct (secp256k1_fe_set_b32 (skipn 32 rest)) as [y|]; [|discriminate].
    destruct (_ && _); [discriminate|].
    destruct (ge_is_valid_var C (ge_set_xy C x y)) eqn:V; [|discriminate].
    intros E. injection E as <-. exact V.
Qed.

Lemma pubkey_parse_serialize a compressed :
  ge_is_valid_var C a = true ->
  exists pub, secp256k1_eckey_pubkey_serialize C a compressed = Some pub /\
              secp256k1_eckey_pubkey_parse C pub = Some a.
Proof.
  intros V. pose proof (x_range C L a V) as Hx. pose proof (y_range C L a V) as Hy.
  unfold secp256k1_eckey_pubkey_serialize.
  rewrite (valid_not_infinity C L a V).
  destruct (negb (compressed =? 0)).
  - eexists. split; [reflexivity|].
    unfold secp256k1_eckey_pubkey_parse. cbn [length].
    unfold secp256k1_fe_get_b32 at 1. rewrite be_split_length.
    change (Z.of_nat 33 =? 33) with true. cbn [andb].
    rewrite fe_set_get_b32 by assumption.
    pose proof (set_xo_coordinates C L a V) as Hxo.
    destruct (Z.odd (ge_y C a)); exact Hxo.
  - eexists. split; [reflexivity|].
    unfold secp256k1_eckey_pubkey_parse. cbn [length]. rewrite length_app.
    unfold secp256k1_fe_get_b32 at 1 2. rewrite !be_split_length.
    change (Z.of_nat (S (32 + 32)) =? 33) with false.
    change (Z.of_nat (S (32 + 32)) =? 65) with true.
    change (byte.unsigned Byte.x04) with 4. cbn [andb orb Z.eqb Pos.eqb negb].
    rewrite firstn_exact_app, skipn_exact_app
      by (unfold secp256k1_fe_get_b32; apply be_split_length).
    rewrite !fe_set_get_b32 by assumption.
    rewrite (set_xy_coordinates C L a V), V. reflexivity.
Qed.

End Keys.

(** A 33-byte string that starts with 0x08 or 0x09 is not accepted by the
    parser that [secp256k1_pedersen_verify_tally] applies to commitments. *)
Lemma pubkey_parse_rejects_08_09 (C : curve) (h : byte) (rest : list byte) :
  byte.unsigned h = 0x08 \/ byte.unsigned h = 0x09 ->
  length rest = 32%nat ->
  secp256k1_eckey_pubkey_parse C (h :: rest) = None.
Proof.
  intros Hh Hl. unfold secp256k1_eckey_pubkey_parse. cbn [length]. rewrite Hl.
  change (Z.of_nat 33 =? 33) with true. change (Z.of_nat 33 =? 65) with false.
  destruct Hh as [-> | ->]; reflexivity.
Qed.

(* ----------------------------------------------------------------- *)
(** ** ECDSA: a signature verifies *)

(** The congruences behind verification, in the field of scalars: with
    s = +-k^-1 (r d + m), the scalar s^-1 r d + s^-1 m is +-k. *)
Lemma ecdsa_algebra (k kinv d m r s sn : Z) (flip : bool) :
  (kinv * k) mod secp256k1_n = 1 ->
  (sn * s) mod secp256k1_n = 1 ->
  s mod secp256k1_n =
    ((if flip then - (1) else 1) *
     secp256k1_scalar_mul kinv (secp256k1_scalar_add (secp256k1_scalar_mul r d) m))
    mod secp256k1_n ->
  (secp256k1_scalar_mul sn r * d + secp256k1_scalar_mul sn m) mod secp256k1_n =
  ((if flip then - (1) else 1) * k) mod secp256k1_n.
Proof.
  unfold secp256k1_scalar_mul, secp256k1_scalar_add. intros Hk Hs Hs0.
  pose proof secp256k1_n_prime as Hp.
  apply Zmod.of_Z_inj in Hs0. apply Zmod.of_Z_inj.
  assert (Hk' : (Zmod.of_Z secp256k1_n kinv * Zmod.of_Z secp256k1_n k = Zmod.one)%Zmod).
  { rewrite <- Zmod.of_Z_mul, <- Zmod.of_Z_mod, Hk. apply Zmod.of_Z_1. }
  assert (Hs' : (Zmod.of_Z secp256k1_n sn * Zmod.of_Z secp256k1_n s = Zmod.one)%Zmod).
  { rewrite <- Zmod.of_Z_mul, <- Zmod.of_Z_mod, Hs. apply Zmod.of_Z_1. }
  repeat (rewrite ?Zmod.of_Z_add, ?Zmod.of_Z_mul, ?Zmod.of_Z_mod in Hs0).
  repeat (rewrite ?Zmod.of_Z_add, ?Zmod.of_Z_mul, ?Zmod.of_Z_mod).
  destruct flip.
  - rewrite Zmod.of_Z_opp, Zmod.of_Z_1 in *. nsatz.
  - rewrite Zmod.of_Z_1 in *. nsatz.
Qed.

Section SignVerify.
Variable C : curve.
Hypothesis L : curve_laws C.

Lemma sig_sign_verify ctx d m k sg :
  secp256k1_ecmult_gen_context_is_built C ctx ->
  0 < d < secp256k1_n -> 0 < k < secp256k1_n ->
  secp256k1_ecdsa_sig_sign C ctx d m k = Some sg ->
  secp256k1_ecdsa_sig_verify C sg (ge_mul C d (ge_const_g C)) m = true.
Proof.
  intros Hctx Hd Hk Hsign.
  pose proof secp256k1_n_range as Hn.
  destruct (sig_sign_range C _ _ _ _ _ Hsign) as (Hr & Hs & Hlow).
  unfold secp256k1_ecdsa_sig_verify, secp256k1_scalar_is_zero.
  destruct (Z.eqb_spec (sig_r sg) 0); [lia|].
  destruct (Z.eqb_spec (sig_s sg) 0); [lia|]. cbn [orb]. rewrite Hlow.
  set (sn := secp256k1_scalar_inverse (sig_s sg)).
  (* the scalar that multiplies G in the end *)
  assert (Ht : exists flip : bool,
             (secp256k1_scalar_mul sn (sig_r sg) * d + secp256k1_scalar_mul sn m)
               mod secp256k1_n = (if flip then secp256k1_n - k else k) /\
             sig_r sg = ge_x C (ge_mul C k (ge_const_g C)) mod secp256k1_n).
  { revert Hsign. unfold secp256k1_ecdsa_sig_sign.
    rewrite (ecmult_gen_spec C L ctx k Hctx) by lia.
    set (r := ge_x C _ mod secp256k1_n).
    set (s0 := secp256k1_scalar_mul (secp256k1_scalar_inverse k) _).
    destruct (secp256k1_scalar_is_zero r); [discriminate|].
    destruct (secp256k1_scalar_is_zero s0); [discriminate|].
    assert (Hki : (secp256k1_scalar_inverse k * k) mod secp256k1_n = 1)
      by (apply scalar_inverse_spec; rewrite Z.mod_small; lia).
    assert (Hsi : (sn * sig_s sg) mod secp256k1_n = 1)
      by (apply scalar_inverse_spec; rewrite Z.mod_small; lia).
    destruct (secp256k1_scalar_is_high s0); intros E; injection E as E; subst sg;
      cbn [sig_r sig_s] in *.
    - exists true. split; [|reflexivity].
      rewrite (ecdsa_algebra k (secp256k1_scalar_inverse k) d m r _ sn true Hki Hsi).
      + replace (- (1) * k) with ((secp256k1_n - k) + (- 1) * secp256k1_n) by ring.
        rewrite Z.mod_add by lia. apply Z.mod_small. lia.
      + unfold secp256k1_scalar_negate. rewrite Z.mod_mod by lia.
        f_equal; try (fold s0; ring).
    - exists false. split; [|reflexivity].
      rewrite (ecdsa_algebra k (secp256k1_scalar_inverse k) d m r _ sn false Hki Hsi).
      + rewrite Z.mul_1_l. apply Z.mod_small. lia.
      + fold s0. rewrite Z.mul_1_l. reflexivity. }
  destruct Ht as (flip & Ht & Hrx).
  set (u1 := secp256k1_scalar_mul sn m) in *.
  set (u2 := secp256k1_scalar_mul sn (sig_r sg)) in *.
  assert (Hu1 : 0 <= u1 < secp256k1_n) by apply scalar_mod_range.
  assert (Hu2 : 0 <= u2 < secp256k1_n) by apply scalar_mod_range.
  assert (Hpr : secp256k1_ecmult C (ge_mul C d (ge_const_g C)) u2 u1 =
                ge_mul C (if flip then secp256k1_n - k else k) (ge_const_g C)).
  { unfold secp256k1_ecmult.
    rewrite <- ge_mul_mul by (auto with ge_group; lia).
    rewrite <- ge_mul_add by (auto with ge_group; nia).
    rewrite <- (g_mul_mod C L) by nia. rewrite Ht. reflexivity. }
  rewrite Hpr.
  assert (Hv : ge_is_valid_var C (ge_mul C (if flip then secp256k1_n - k else k)
                                    (ge_const_g C)) = true)
    by (apply (g_mul_valid C L); destruct flip; lia).
  rewrite (valid_not_infinity C L _ Hv).
  apply Z.eqb_eq. rewrite Hrx. f_equal.
  destruct flip; [|reflexivity].
  rewrite (g_mul_neg C L) by lia.
  apply (x_neg C L). apply (g_mul_valid C L). lia.
Qed.

(** C1: for every secret key d and every message hash, if
    [secp256k1_ecdsa_sign] returns 1 then d lies in [1, n-1],
    [secp256k1_ec_pubkey_create] produces a public key for d, and
    [secp256k1_ecdsa_verify] returns 1 on the signature written and that
    public key.  The nonce function and its data are arbitrary, NULL
    included; the contexts are built. *)
Theorem ecdsa_sign_then_verify (O : rfc6979_hmac_sha256) (fuel : nat)
  (ctx ctx' : secp256k1_context_t C) (msg32 seckey : list byte) (siglen : Z)
  (noncefp : option secp256k1_nonce_function_t) (noncedata : option (list byte))
  (sig : list byte) (len : Z) (compressed : Z) :
  secp256k1_ecmult_gen_context_is_built C (ecmult_gen_ctx ctx) ->
  secp256k1_ecmult_gen_context_is_built C (ecmult_gen_ctx ctx') ->
  secp256k1_ecdsa_sign C O fuel ctx msg32 siglen seckey noncefp noncedata
    = Some (1, sig, len) ->
  0 < be_combine seckey < secp256k1_n /\
  exists pubkey pubkeylen,
    secp256k1_ec_pubkey_create C ctx' seckey compressed = (1, pubkey, pubkeylen) /\
    pubkeylen = Z.of_nat (length pubkey) /\
    len = Z.of_nat (length sig) /\
    secp256k1_ecdsa_verify C msg32 sig pubkey = 1.
Proof.
  intros Hctx Hctx' Hsign. pose proof secp256k1_n_range as Hn.
  destruct (ecdsa_sign_success C _ _ _ _ _ _ _ _ _ _ Hsign)
    as (Hd & non & sg & Hnon & Hsg & Hparse & Hlen).
  split; [exact Hd|].
  pose proof (g_mul_valid C L (be_combine seckey) Hd) as Hv.
  destruct (pubkey_parse_serialize C L _ compressed Hv) as (pub & Hser & Hpp).
  exists pub, (Z.of_nat (length pub)).
  assert (Hcreate : secp256k1_ec_pubkey_create C ctx' seckey compressed =
                    (1, pub, Z.of_nat (length pub))).
  { unfold secp256k1_ec_pubkey_create, secp256k1_scalar_set_b32.
    destruct (Z.leb_spec secp256k1_n (be_combine seckey)); [lia|]. cbn [negb].
    rewrite (Z.mod_small (be_combine seckey)) by lia.
    rewrite (ecmult_gen_spec C L _ _ Hctx') by lia.
    rewrite Hser. reflexivity. }
  repeat split; try assumption.
  unfold secp256k1_ecdsa_verify. cbv zeta. rewrite Hpp, Hparse.
  unfold secp256k1_scalar_set_b32. cbn [fst].
  rewrite (sig_sign_verify _ _ _ _ _ Hctx Hd Hnon Hsg). reflexivity.
Qed.

End SignVerify.

(** A context made by [context_with_blinding] is built. *)
Lemma context_with_blinding_built (C : curve) (b : Z) :
  secp256k1_ecmult_gen_context_is_built C (ecmult_gen_ctx (context_with_blinding C b)).
Proof.
  split; [apply scalar_mod_range|reflexivity].
Qed.

(** The claim in logarithmic coordinates: the message 3 signed with the
    key 1, the signing context blinded with 5 and the key context with 9. *)
Lemma ecdsa_sign_then_verify_witness :
  exists sig len pubkey pubkeylen,
    secp256k1_ecdsa_sign dlog_curve counting_rng 1 (context_with_blinding dlog_curve 5)
      (be_split 32 3) 72 (be_split 32 1) None None = Some (1, sig, len) /\
    secp256k1_ec_pubkey_create dlog_curve (context_with_blinding dlog_curve 9)
      (be_split 32 1) 1 = (1, pubkey, pubkeylen) /\
    secp256k1_ecdsa_verify dlog_curve (be_split 32 3) sig pubkey = 1.
Proof.
  assert (E : exists sig len,
             secp256k1_ecdsa_sign dlog_curve counting_rng 1
               (context_with_blinding dlog_curve 5) (be_split 32 3) 72 (be_split 32 1)
               None None = Some (1, sig, len))
    by (eexists; eexists; vm_compute; reflexivity).
  destruct E as (sig & len & E).
  destruct (ecdsa_sign_then_verify dlog_curve dlog_curve_laws counting_rng 1
              (context_with_blinding dlog_curve 5) (context_with_blinding dlog_curve 9)
              (be_split 32 3) (be_split 32 1) 72 None None sig len 1
              (context_with_blinding_built dlog_curve 5)
              (context_with_blinding_built dlog_curve 9) E)
    as (_ & pubkey & pubkeylen & Hc & _ & _ & Hv).
  exists sig, len, pubkey, pubkeylen. auto.
Defined.

(* ----------------------------------------------------------------- *)
(** ** Signing is deterministic *)

Section Determinism.
Variable C : curve.
Hypothesis L : curve_laws C.

Lemma sig_sign_blinding ctx1 ctx2 sec msg non :
  secp256k1_ecmult_gen_context_is_built C ctx1 ->
  secp256k1_ecmult_gen_context_is_built C ctx2 ->
  0 <= non < secp256k1_n ->
  secp256k1_ecdsa_sig_sign C ctx1 sec msg non = secp256k1_ecdsa_sig_sign C ctx2 sec msg non.
Proof.
  intros H1 H2 Hn. unfold secp256k1_ecdsa_sig_sign.
  rewrite !(ecmult_gen_spec C L) by assumption. reflexivity.
Qed.

Lemma sign_loop_blinding fuel ctx1 ctx2 noncefp msg32 seckey noncedata sec msg :
  secp256k1_ecmult_gen_context_is_built C (ecmult_gen_ctx ctx1) ->
  secp256k1_ecmult_gen_context_is_built C (ecmult_gen_ctx ctx2) ->
  forall count,
  secp256k1_ecdsa_sign_loop C fuel ctx1 noncefp msg32 seckey noncedata sec msg count =
  secp256k1_ecdsa_sign_loop C fuel ctx2 noncefp msg32 seckey noncedata sec msg count.
Proof.
  intros H1 H2. induction fuel as [|fuel IH]; intros count; [reflexivity|].
  cbn [secp256k1_ecdsa_sign_loop].
  destruct (noncefp msg32 seckey count noncedata) as [ret nonce32].
  destruct (ret =? 0); [reflexivity|].
  pose proof (scalar_set_b32_range nonce32) as Hnon.
  destruct (secp256k1_scalar_set_b32 nonce32) as [non overflow]. cbn [fst] in Hnon.
  rewrite (sig_sign_blinding _ _ sec msg non H1 H2 Hnon).
  rewrite !IH. reflexivity.
Qed.

(** More fuel does not change a result that was reached. *)
Lemma sign_loop_fuel fuel ctx noncefp msg32 seckey noncedata sec msg : forall count res fuel',
  secp256k1_ecdsa_sign_loop C fuel ctx noncefp msg32 seckey noncedata sec msg count
    = Some res ->
  (fuel <= fuel')%nat ->
  secp256k1_ecdsa_sign_loop C fuel' ctx noncefp msg32 seckey noncedata sec msg count
    = Some res.
Proof.
  induction fuel as [|fuel IH]; intros count res fuel' H Hle; [discriminate|].
  destruct fuel' as [|fuel']; [lia|].
  cbn [secp256k1_ecdsa_sign_loop] in *.
  destruct (noncefp msg32 seckey count noncedata) as [ret nonce32].
  destruct (ret =? 0); [assumption|].
  destruct (secp256k1_scalar_set_b32 nonce32) as [non overflow].
  destruct (negb (secp256k1_scalar_is_zero non) && negb overflow).
  - destruct (secp256k1_ecdsa_sig_sign C (ecmult_gen_ctx ctx) sec msg non);
      [assumption|]. apply IH; [assumption|lia].
  - apply IH; [assumption|lia].
Qed.

(** C7: two invocations of [secp256k1_ecdsa_sign] with [noncefp = NULL], on
    the same message, key, nonce data and buffer capacity, return the same
    value and write the same signature bytes and length, whatever the
    blinding of the two built contexts: run equally long they agree in
    everything, and when both return, however long each ran, they return
    the same. *)
Theorem ecdsa_sign_deterministic (O : rfc6979_hmac_sha256)
  (ctx1 ctx2 : secp256k1_context_t C) (msg32 seckey : list byte) (siglen : Z)
  (noncedata : option (list byte)) :
  secp256k1_ecmult_gen_context_is_built C (ecmult_gen_ctx ctx1) ->
  secp256k1_ecmult_gen_context_is_built C (ecmult_gen_ctx ctx2) ->
  (forall fuel,
     secp256k1_ecdsa_sign C O fuel ctx1 msg32 siglen seckey None noncedata =
     secp256k1_ecdsa_sign C O fuel ctx2 msg32 siglen seckey None noncedata) /\
  (forall fuel1 fuel2 res1 res2,
     secp256k1_ecdsa_sign C O fuel1 ctx1 msg32 siglen seckey None noncedata = Some res1 ->
     secp256k1_ecdsa_sign C O fuel2 ctx2 msg32 siglen seckey None noncedata = Some res2 ->
     res1 = res2).
Proof.
  intros H1 H2. unfold secp256k1_ecdsa_sign.
  destruct (secp256k1_scalar_set_b32 seckey) as [sec overflow].
  destruct (negb overflow && negb (secp256k1_scalar_is_zero sec)).
  2: { split; intros; congruence. }
  set (msg := fst (secp256k1_scalar_set_b32 msg32)).
  split.
  - intros fuel. rewrite (sign_loop_blinding fuel ctx1 ctx2) by assumption. reflexivity.
  - intros fuel1 fuel2 res1 res2.
    destruct (secp256k1_ecdsa_sign_loop C fuel1 ctx1 _ _ _ _ _ _ _) as [l1|] eqn:E1;
      [|discriminate].
    destruct (secp256k1_ecdsa_sign_loop C fuel2 ctx2 _ _ _ _ _ _ _) as [l2|] eqn:E2;
      [|discriminate].
    assert (l1 = l2) as <-.
    { apply (sign_loop_fuel _ _ _ _ _ _ _ _ _ _ (Nat.max fuel1 fuel2)) in E1; [|lia].
      apply (sign_loop_fuel _ _ _ _ _ _ _ _ _ _ (Nat.max fuel1 fuel2)) in E2; [|lia].
      rewrite (sign_loop_blinding _ ctx1 ctx2) in E1 by assumption. congruence. }
    congruence.
Qed.

End Determinism.

(** The claim in logarithmic coordinates: contexts blinded with 5 and with
    9, run with fuel 1 and 2, both return the same signature. *)
Lemma ecdsa_sign_deterministic_witness :
  secp256k1_ecdsa_sign dlog_curve counting_rng 1 (context_with_blinding dlog_curve 5)
    (be_split 32 3) 72 (be_split 32 1) None None <> None /\
  secp256k1_ecdsa_sign dlog_curve counting_rng 1 (context_with_blinding dlog_curve 5)
    (be_split 32 3) 72 (be_split 32 1) None None =
  secp256k1_ecdsa_sign dlog_curve counting_rng 2 (context_with_blinding dlog_curve 9)
    (be_split 32 3) 72 (be_split 32 1) None None.
Proof.
  assert (E1 : exists res,
             secp256k1_ecdsa_sign dlog_curve counting_rng 1
               (context_with_blinding dlog_curve 5) (be_split 32 3) 72 (be_split 32 1)
               None None = Some res) by (eexists; vm_compute; reflexivity).
  assert (E2 : exists res,
             secp256k1_ecdsa_sign dlog_curve counting_rng 2
               (context_with_blinding dlog_curve 9) (be_split 32 3) 72 (be_split 32 1)
               None None = Some res) by (eexists; vm_compute; reflexivity).
  destruct E1 as (res1 & E1). destruct E2 as (res2 & E2).
  rewrite E1, E2. split; [discriminate|]. f_equal.
  exact (proj2 (ecdsa_sign_deterministic dlog_curve dlog_curve_laws counting_rng
                  (context_with_blinding dlog_curve 5) (context_with_blinding dlog_curve 9)
                  (be_split 32 3) (be_split 32 1) 72 None
                  (context_with_blinding_built dlog_curve 5)
                  (context_with_blinding_built dlog_curve 9)) 1%nat 2%nat res1 res2 E1 E2).
Defined.

(* ----------------------------------------------------------------- *)
(** ** Pedersen commitments: the tally *)

Section Tally.
Variable C : curve.
Hypothesis L : curve_laws C.

Lemma ge_sum_in_group ps :
  Forall (fun p => ge_is_valid_var C p = true) ps -> ge_in_group C (ge_sum C ps).
Proof.
  induction 1 as [|p ps Hp _ IH]; cbn [ge_sum fold_right]; auto with ge_group.
Qed.

Lemma tally_loop_sum commits : forall ps accj,
  Forall2 (fun c p => secp256k1_eckey_pubkey_parse C (firstn 33 c) = Some p) commits ps ->
  ge_in_group C accj ->
  Forall (fun p => ge_is_valid_var C p = true) ps /\
  secp256k1_pedersen_tally_loop C commits accj = Some (ge_add C accj (ge_sum C ps)).
Proof.
  induction commits as [|c commits IH]; intros ps accj HF Hacc; inversion HF; subst.
  - split; [constructor|]. cbn. rewrite (add_infinity_r C L) by assumption. reflexivity.
  - match goal with H : secp256k1_eckey_pubkey_parse C _ = Some ?y |- _ =>
      rename H into Hp; rename y into p end.
    pose proof (pubkey_parse_valid C L _ _ Hp) as Hv.
    match goal with H : Forall2 _ commits ?l |- _ => rename H into HF'; rename l into ps' end.
    destruct (IH ps' (ge_add C accj p) HF') as [Hvs E]; [auto with ge_group|].
    split; [constructor; assumption|].
    cbn [secp256k1_pedersen_tally_loop]. rewrite Hp, E.
    cbn [ge_sum fold_right]. fold (ge_sum C ps').
    pose proof (ge_sum_in_group ps' Hvs).
    rewrite (add_assoc C L) by auto with ge_group. reflexivity.
Qed.

Lemma tally_loop_unparsable commits : forall accj,
  Exists (fun c => secp256k1_eckey_pubkey_parse C (firstn 33 c) = None) commits ->
  secp256k1_pedersen_tally_loop C commits accj = None.
Proof.
  induction commits as [|c commits IH]; intros accj HE; inversion HE; subst;
    cbn [secp256k1_pedersen_tally_loop].
  - match goal with H : _ = None |- _ => rewrite H end. reflexivity.
  - destruct (secp256k1_eckey_pubkey_parse C (firstn 33 c)); [|reflexivity].
    apply IH. assumption.
Qed.

(** The excess term as the code computes it is the multiple excess * H. *)
Lemma tally_excess excess :
  (if negb (excess =? 0)
   then let '(neg, ex) := secp256k1_sign_and_abs64 excess in
        let accj := secp256k1_ecmult_gen2_small C ex in
        if neg then ge_neg C accj else accj
   else ge_infinity C) = ge_mul C excess (ge_const_g2 C).
Proof.
  unfold secp256k1_sign_and_abs64, secp256k1_ecmult_gen2_small.
  destruct excess as [|m|m]; reflexivity.
Qed.

(** C5: when every commitment parses, [secp256k1_pedersen_verify_tally]
    returns 1 if and only if the sum of the positive commitments minus the
    sum of the negative commitments minus excess * H is the point at
    infinity; and it returns 0 whenever a commitment fails to parse. *)
Theorem pedersen_verify_tally_correct (commits ncommits : list (list byte)) (excess : Z) :
  (forall ps ns,
     Forall2 (fun c p => secp256k1_eckey_pubkey_parse C (firstn 33 c) = Some p) commits ps ->
     Forall2 (fun c p => secp256k1_eckey_pubkey_parse C (firstn 33 c) = Some p) ncommits ns ->
     (secp256k1_pedersen_verify_tally C commits ncommits excess = 1 <->
      ge_add C (ge_add C (ge_sum C ps) (ge_neg C (ge_sum C ns)))
        (ge_neg C (ge_mul C excess (ge_const_g2 C))) = ge_infinity C)) /\
  (Exists (fun c => secp256k1_eckey_pubkey_parse C (firstn 33 c) = None) commits \/
   Exists (fun c => secp256k1_eckey_pubkey_parse C (firstn 33 c) = None) ncommits ->
   secp256k1_pedersen_verify_tally C commits ncommits excess = 0).
Proof.
  unfold secp256k1_pedersen_verify_tally. cbv zeta. rewrite tally_excess.
  set (E := ge_mul C excess (ge_const_g2 C)).
  assert (HE : ge_in_group C E) by (subst E; auto with ge_group).
  split.
  - intros ps ns Hps Hns.
    destruct (tally_loop_sum ncommits ns E Hns HE) as [Hvn ->].
    pose proof (ge_sum_in_group ns Hvn) as Hn.
    destruct (tally_loop_sum commits ps (ge_neg C (ge_add C E (ge_sum C ns))) Hps
                ltac:(auto with ge_group)) as [Hvp ->].
    pose proof (ge_sum_in_group ps Hvp) as Hp.
    assert (Heq : ge_add C (ge_neg C (ge_add C E (ge_sum C ns))) (ge_sum C ps) =
                  ge_add C (ge_add C (ge_sum C ps) (ge_neg C (ge_sum C ns))) (ge_neg C E)).
    { rewrite (neg_add C L) by assumption.
      rewrite (add_comm C L (ge_neg C E)) by auto with ge_group.
      rewrite (add_comm C L _ (ge_sum C ps)) by auto with ge_group.
      apply (add_assoc C L); auto with ge_group. }
    rewrite Heq.
    destruct (ge_is_infinity C _) eqn:Hi.
    + apply (is_infinity_spec C L) in Hi. split; [intros _; exact Hi|reflexivity].
    + split; [discriminate|]. intros H. apply (is_infinity_spec C L) in H. congruence.
  - intros [H|H].
    + destruct (secp256k1_pedersen_tally_loop C ncommits E); [|reflexivity].
      rewrite tally_loop_unparsable by assumption. reflexivity.
    + rewrite tally_loop_unparsable by assumption. reflexivity.
Qed.

End Tally.

(** The claim in logarithmic coordinates: the commitment to the value 1
    tallies against the commitment to the value 0 under the same blinding
    factor and the excess 1. *)
Lemma pedersen_verify_tally_correct_witness :
  let ctx := context_with_blinding dlog_curve 5 in
  secp256k1_pedersen_verify_tally dlog_curve
    [snd (secp256k1_pedersen_commit dlog_curve ctx [] (be_split 32 3) 1)]
    [snd (secp256k1_pedersen_commit dlog_curve ctx [] (be_split 32 3) 0)] 1 = 1.
Proof.
  cbv zeta.
  apply (proj1 (pedersen_verify_tally_correct dlog_curve dlog_curve_laws _ _ 1)
           [10] [3]).
  - constructor; [vm_compute; reflexivity|constructor].
  - constructor; [vm_compute; reflexivity|constructor].
  - vm_compute. reflexivity.
Defined.

(* ================================================================= *)
(** * Part III: the other entry points *)
(* ================================================================= *)

(* ----------------------------------------------------------------- *)
(** ** The group in logarithmic coordinates, further facts *)

Lemma dlog_mul_g k : 0 <= k < secp256k1_n -> ge_mul dlog_curve k 1 = k.
Proof.
  intros [H0 H1]. revert H1. pattern k. apply natlike_ind; [reflexivity| |exact H0].
  clear k H0. intros k H0 IH H1.
  unfold Z.succ.
  rewrite (ge_mul_add dlog_curve dlog_curve_laws k 1 1) by (try lia; apply (g_in_group dlog_curve dlog_curve_laws)).
  rewrite IH by lia.
  rewrite (ge_mul_1 dlog_curve) by (apply (g_in_group dlog_curve dlog_curve_laws)).
  change (ge_add dlog_curve k 1) with (dlog_add k 1). unfold dlog_add. cbv zeta.
  destruct (Z.ltb_spec (k + 1) secp256k1_n); lia.
Qed.

Lemma dlog_curve_point_laws : curve_point_laws dlog_curve.
Proof.
  pose proof secp256k1_n_range as Hn. pose proof secp256k1_n_odd as Hodd.
  constructor.
  - intros a V. change (dlog_is_valid_var a = true) in V. change (dlog_x a <> 0).
    unfold dlog_is_valid_var in V. apply andb_true_iff in V as [V1 V2].
    apply Z.ltb_lt in V1, V2. unfold dlog_x. destruct (Z.ltb_spec (2 * a) secp256k1_n); lia.
  - intros a V. change (dlog_is_valid_var a = true) in V.
    change (Z.odd (dlog_y (dlog_neg a)) = negb (Z.odd (dlog_y a))).
    unfold dlog_is_valid_var in V. apply andb_true_iff in V as [V1 V2].
    apply Z.ltb_lt in V1, V2. unfold dlog_y, dlog_neg.
    destruct (Z.eqb_spec a 0); [lia|].
    destruct (Z.ltb_spec (2 * a) secp256k1_n), (Z.ltb_spec (2 * (secp256k1_n - a)) secp256k1_n);
      try reflexivity; lia.
  - intros a Ha. pose proof Ha as Ha'. apply dlog_in_group in Ha'.
    rewrite <- (dlog_mul_g a Ha') at 1.
    rewrite <- (ge_mul_mul dlog_curve dlog_curve_laws) by (try lia; apply (g_in_group dlog_curve dlog_curve_laws)).
    rewrite Z.mul_comm.
    rewrite (ge_mul_mul dlog_curve dlog_curve_laws) by (try lia; apply (g_in_group dlog_curve dlog_curve_laws)).
    assert (Ho : ge_mul dlog_curve secp256k1_n 1 = 0)
      by exact (g_order dlog_curve dlog_curve_laws).
    rewrite Ho. apply (ge_mul_infinity dlog_curve dlog_curve_laws). lia.
Qed.

(* ----------------------------------------------------------------- *)
(** ** Key validity across the entry points *)

Lemma seckey_valid_dec seckey :
  negb (secp256k1_n <=? be_combine seckey) &&
  negb (secp256k1_scalar_is_zero (be_combine seckey mod secp256k1_n)) =
  (0 <? be_combine seckey) && (be_combine seckey <? secp256k1_n).
Proof.
  pose proof secp256k1_n_range as Hn. pose proof (be_combine_range seckey) as Hd.
  unfold secp256k1_scalar_is_zero.
  destruct (Z.leb_spec secp256k1_n (be_combine seckey)) as [H|H]; cbn [negb andb].
  - destruct (Z.ltb_spec (be_combine seckey) secp256k1_n); [lia|].
    symmetry. apply andb_false_r.
  - rewrite Z.mod_small by lia.
    destruct (Z.ltb_spec (be_combine seckey) secp256k1_n); [|lia]. rewrite andb_true_r.
    destruct (Z.eqb_spec (be_combine seckey) 0), (Z.ltb_spec 0 (be_combine seckey));
      try reflexivity; lia.
Qed.

Lemma seckey_verify_eq seckey :
  secp256k1_ec_seckey_verify seckey =
  if (0 <? be_combine seckey) && (be_combine seckey <? secp256k1_n) then 1 else 0.
Proof.
  unfold secp256k1_ec_seckey_verify, secp256k1_scalar_set_b32.
  rewrite <- seckey_valid_dec. rewrite andb_comm. reflexivity.
Qed.

Section KeyValidity.
Variable C : curve.
Hypothesis L : curve_laws C.

Lemma pubkey_create_eq ctx seckey compressed :
  secp256k1_ecmult_gen_context_is_built C (ecmult_gen_ctx ctx) ->
  secp256k1_ec_pubkey_create C ctx seckey compressed =
  if (0 <? be_combine seckey) && (be_combine seckey <? secp256k1_n)
  then match secp256k1_eckey_pubkey_serialize C
               (ge_mul C (be_combine seckey) (ge_const_g C)) compressed with
       | Some pub => (1, pub, Z.of_nat (length pub))
       | None => (0, [], 0)
       end
  else (0, [], 0).
Proof.
  intros Hctx. pose proof secp256k1_n_range as Hn.
  pose proof (be_combine_range seckey) as Hd.
  unfold secp256k1_ec_pubkey_create, secp256k1_scalar_set_b32.
  destruct (Z.leb_spec secp256k1_n (be_combine seckey)) as [H|H]; cbn [negb].
  - destruct (Z.ltb_spec (be_combine seckey) secp256k1_n); [lia|].
    rewrite andb_false_r. reflexivity.
  - destruct (Z.ltb_spec (be_combine seckey) secp256k1_n); [|lia]. rewrite andb_true_r.
    rewrite Z.mod_small by lia.
    rewrite (ecmult_gen_spec C L) by (assumption || lia).
    destruct (Z.ltb_spec 0 (be_combine seckey)) as [H1|H1].
    + destruct (secp256k1_eckey_pubkey_serialize C _ compressed); reflexivity.
    + replace (be_combine seckey) with 0 by lia. cbn [ge_mul].
      unfold secp256k1_eckey_pubkey_serialize.
      rewrite (proj2 (is_infinity_spec C L _) eq_refl). reflexivity.
Qed.

Lemma pubkey_create_ex_eq ctx seckey :
  secp256k1_ecmult_gen_context_is_built C (ecmult_gen_ctx ctx) ->
  secp256k1_ec_pubkey_create_ex C ctx seckey =
  if (0 <? be_combine seckey) && (be_combine seckey <? secp256k1_n)
  then (1, secp256k1_pubkey_save C (ge_mul C (be_combine seckey) (ge_const_g C)))
  else (0, repeat Byte.x00 64).
Proof.
  intros Hctx. pose proof secp256k1_n_range as Hn.
  pose proof (be_combine_range seckey) as Hd.
  unfold secp256k1_ec_pubkey_create_ex, secp256k1_scalar_set_b32, secp256k1_scalar_is_zero.
  destruct (Z.leb_spec secp256k1_n (be_combine seckey)) as [H|H]; cbn [negb].
  - destruct (Z.ltb_spec (be_combine seckey) secp256k1_n); [lia|].
    rewrite andb_false_r. reflexivity.
  - destruct (Z.ltb_spec (be_combine seckey) secp256k1_n); [|lia]. rewrite andb_true_r.
    rewrite Z.mod_small by lia.
    destruct (Z.eqb_spec (be_combine seckey) 0) as [E|E]; cbn [negb].
    + destruct (Z.ltb_spec 0 (be_combine seckey)); [lia|]. reflexivity.
    + destruct (Z.ltb_spec 0 (be_combine seckey)); [|lia].
      change (Z.land 1 1) with 1. cbn [Z.eqb negb].
      rewrite (ecmult_gen_spec C L) by (assumption || lia). reflexivity.
Qed.

(** X1: [secp256k1_ec_seckey_verify] returns 1 for a key in [1, n-1] and 0
    otherwise, and it decides the other entry points: under a built context
    [secp256k1_ec_pubkey_create] and [secp256k1_ec_pubkey_create_ex] return
    the same value as it does, and a key that it rejects makes
    [secp256k1_ecdsa_sign], [secp256k1_ecdsa_sign_ex] and
    [secp256k1_ecdsa_sign_compact] return 0 with cleared outputs, whatever
    the nonce function. *)
Theorem seckey_verify_agrees (O : rfc6979_hmac_sha256) (fuel : nat)
  (ctx : secp256k1_context_t C) (msg32 seckey : list byte) (siglen compressed : Z)
  (noncefp : option secp256k1_nonce_function_t) (noncedata : option (list byte)) :
  secp256k1_ecmult_gen_context_is_built C (ecmult_gen_ctx ctx) ->
  let ok := secp256k1_ec_seckey_verify seckey in
  (ok = 1 \/ ok = 0) /\
  (ok = 1 <-> 0 < be_combine seckey < secp256k1_n) /\
  fst (fst (secp256k1_ec_pubkey_create C ctx seckey compressed)) = ok /\
  fst (secp256k1_ec_pubkey_create_ex C ctx seckey) = ok /\
  (ok = 0 ->
   secp256k1_ecdsa_sign C O fuel ctx msg32 siglen seckey noncefp noncedata
     = Some (0, [], 0) /\
   secp256k1_ecdsa_sign_ex C O fuel ctx msg32 seckey noncefp noncedata
     = Some (0, repeat Byte.x00 64) /\
   secp256k1_ecdsa_sign_compact C O fuel ctx msg32 seckey noncefp noncedata
     = Some (0, repeat Byte.x00 64, None)).
Proof.
  intros Hctx ok. subst ok. pose proof secp256k1_n_range as Hn.
  rewrite seckey_verify_eq, (pubkey_create_eq _ _ _ Hctx), (pubkey_create_ex_eq _ _ Hctx).
  unfold secp256k1_ecdsa_sign, secp256k1_ecdsa_sign_ex, secp256k1_ecdsa_sign_compact,
    secp256k1_scalar_set_b32.
  rewrite seckey_valid_dec.
  destruct (Z.ltb_spec 0 (be_combine seckey)) as [H0|H0];
    destruct (Z.ltb_spec (be_combine seckey) secp256k1_n) as [H1|H1]; cbn [andb].
  2-4: (split; [right; reflexivity|]; split; [split; [discriminate|lia]|];
        split; [reflexivity|]; split; [reflexivity|]; intros _; repeat split).
  split; [left; reflexivity|]. split; [split; [lia|reflexivity]|].
  split; [|split; [reflexivity|discriminate]].
  assert (V : ge_is_valid_var C (ge_mul C (be_combine seckey) (ge_const_g C)) = true)
    by (apply (g_mul_valid C L); lia).
  unfold secp256k1_eckey_pubkey_serialize. rewrite (valid_not_infinity C L _ V).
  destruct (negb (compressed =? 0)); reflexivity.
Qed.

End KeyValidity.

(** The property in logarithmic coordinates, at the keys 1 and 0. *)
Lemma seckey_verify_agrees_witness :
  secp256k1_ec_seckey_verify (be_split 32 1) = 1 /\
  fst (fst (secp256k1_ec_pubkey_create dlog_curve (context_with_blinding dlog_curve 5)
              (be_split 32 1) 1)) = 1 /\
  secp256k1_ec_seckey_verify (be_split 32 0) = 0 /\
  secp256k1_ecdsa_sign dlog_curve counting_rng 1 (context_with_blinding dlog_curve 5)
    (be_split 32 3) 72 (be_split 32 0) None None = Some (0, [], 0).
Proof.
  pose proof (seckey_verify_agrees dlog_curve dlog_curve_laws counting_rng 1
                (context_with_blinding dlog_curve 5) (be_split 32 3) (be_split 32 1) 72 1
                None None (context_with_blinding_built dlog_curve 5)) as H1.
  pose proof (seckey_verify_agrees dlog_curve dlog_curve_laws counting_rng 1
                (context_with_blinding dlog_curve 5) (be_split 32 3) (be_split 32 0) 72 1
                None None (context_with_blinding_built dlog_curve 5)) as H0.
  cbv zeta in H1, H0.
  destruct H1 as (_ & H1 & H1c & _). destruct H0 as (_ & _ & _ & _ & H0).
  assert (E1 : secp256k1_ec_seckey_verify (be_split 32 1) = 1)
    by (apply H1; vm_compute; split; reflexivity).
  assert (E0 : secp256k1_ec_seckey_verify (be_split 32 0) = 0) by (vm_compute; reflexivity).
  split; [exact E1|]. split; [rewrite H1c; exact E1|]. split; [exact E0|].
  exact (proj1 (H0 E0)).
Defined.

(* ----------------------------------------------------------------- *)
(** ** Public keys in serialised form *)

Lemma pubkey_serialize_length (C : curve) a compressed pub :
  secp256k1_eckey_pubkey_serialize C a compressed = Some pub ->
  ge_is_infinity C a = false /\
  length pub = (if compressed =? 0 then 65%nat else 33%nat) /\
  hd Byte.x00 pub =
    (if compressed =? 0 then Byte.x04
     else byte.of_Z (Z.lor 0x02 (if Z.odd (ge_y C a) then 0x01 else 0x00))).
Proof.
  unfold secp256k1_eckey_pubkey_serialize.
  destruct (ge_is_infinity C a); [discriminate|].
  destruct (compressed =? 0); cbn [negb]; intros E; injection E as <-;
    (split; [reflexivity|]); (split; [|reflexivity]); cbn [length];
    rewrite ?length_app; unfold secp256k1_fe_get_b32; rewrite !be_split_length;
    reflexivity.
Qed.

Lemma pubkey_serialize_flag (C : curve) a compressed :
  secp256k1_eckey_pubkey_serialize C a compressed =
  secp256k1_eckey_pubkey_serialize C a (if compressed =? 0 then 0 else 1).
Proof.
  unfold secp256k1_eckey_pubkey_serialize. destruct (compressed =? 0); reflexivity.
Qed.

Lemma pubkey_parse_length (C : curve) pub q :
  secp256k1_eckey_pubkey_parse C pub = Some q ->
  length pub = 33%nat \/ length pub = 65%nat.
Proof.
  unfold secp256k1_eckey_pubkey_parse. destruct pub as [|h rest]; [discriminate|].
  destruct (Z.eqb_spec (Z.of_nat (length (h :: rest))) 33) as [E|E]; [left; lia|].
  destruct (Z.eqb_spec (Z.of_nat (length (h :: rest))) 65) as [E'|E']; [right; lia|].
  cbn [andb]. discriminate.
Qed.

Section SerialisedKeys.
Variable C : curve.
Hypothesis L : curve_laws C.

Lemma pubkey_serialize_parse a compressed pub :
  ge_is_valid_var C a = true ->
  secp256k1_eckey_pubkey_serialize C a compressed = Some pub ->
  secp256k1_eckey_pubkey_parse C pub = Some a.
Proof.
  intros V E. destruct (pubkey_parse_serialize C L a compressed V) as (pub' & E' & P).
  congruence.
Qed.

Lemma pubkey_serialize_valid a compressed :
  ge_is_valid_var C a = true ->
  exists pub, secp256k1_eckey_pubkey_serialize C a compressed = Some pub /\
              secp256k1_eckey_pubkey_parse C pub = Some a /\
              length pub = (if compressed =? 0 then 65%nat else 33%nat).
Proof.
  intros V. destruct (pubkey_parse_serialize C L a compressed V) as (pub & E & P).
  exists pub. split; [exact E|]. split; [exact P|].
  apply (pubkey_serialize_length C _ _ _ E).
Qed.

(** X2: [secp256k1_ec_pubkey_decompress] fails exactly on the keys that
    [secp256k1_ec_pubkey_verify] rejects, leaving the buffer and its length
    as they were; on any other key, compressed, uncompressed or hybrid, it
    returns 1 and writes 65 bytes that start with 0x04, parse to the same
    point, and are left unchanged by a second call. *)
Theorem pubkey_decompress_spec (pubkey : list byte) :
  (secp256k1_ec_pubkey_verify C pubkey = 0 ->
   secp256k1_ec_pubkey_decompress C pubkey = (0, pubkey, Z.of_nat (length pubkey))) /\
  (secp256k1_ec_pubkey_verify C pubkey = 1 ->
   exists out,
     secp256k1_ec_pubkey_decompress C pubkey = (1, out, 65) /\
     length out = 65%nat /\ hd Byte.x00 out = Byte.x04 /\
     secp256k1_eckey_pubkey_parse C out = secp256k1_eckey_pubkey_parse C pubkey /\
     secp256k1_ec_pubkey_decompress C out = (1, out, 65)).
Proof.
  unfold secp256k1_ec_pubkey_verify, secp256k1_ec_pubkey_decompress.
  destruct (secp256k1_eckey_pubkey_parse C pubkey) as [p|] eqn:P.
  - split; [discriminate|]. intros _.
    pose proof (pubkey_parse_valid C L _ _ P) as V.
    destruct (pubkey_serialize_valid p 0 V) as (out & E & P' & Hlen).
    change (0 =? 0) with true in Hlen. cbv iota in Hlen.
    exists out. rewrite E, Hlen. split; [reflexivity|]. split; [reflexivity|].
    split; [exact (proj2 (proj2 (pubkey_serialize_length C _ _ _ E)))|].
    split; [exact P'|]. rewrite P', E, Hlen. reflexivity.
  - split; [reflexivity|discriminate].
Qed.

(** X3: the key that [secp256k1_ec_pubkey_create] writes has 33 bytes when
    [compressed] is nonzero and 65 otherwise, is accepted by
    [secp256k1_ec_pubkey_verify], and is turned by
    [secp256k1_ec_pubkey_decompress] into what
    [secp256k1_ec_pubkey_create] writes for the same secret key with
    [compressed = 0]. *)
Theorem pubkey_create_decompress (ctx ctx' : secp256k1_context_t C) (seckey : list byte)
  (compressed : Z) (pubkey : list byte) (len : Z) :
  secp256k1_ecmult_gen_context_is_built C (ecmult_gen_ctx ctx) ->
  secp256k1_ecmult_gen_context_is_built C (ecmult_gen_ctx ctx') ->
  secp256k1_ec_pubkey_create C ctx seckey compressed = (1, pubkey, len) ->
  len = (if compressed =? 0 then 65 else 33) /\
  Z.of_nat (length pubkey) = len /\
  secp256k1_ec_pubkey_verify C pubkey = 1 /\
  secp256k1_ec_pubkey_decompress C pubkey = secp256k1_ec_pubkey_create C ctx' seckey 0.
Proof.
  intros Hctx Hctx'. rewrite (pubkey_create_eq C L _ _ _ Hctx), (pubkey_create_eq C L _ _ _ Hctx').
  destruct ((0 <? be_combine seckey) && (be_combine seckey <? secp256k1_n)) eqn:K;
    [|discriminate].
  apply andb_true_iff in K as [K0 K1]. apply Z.ltb_lt in K0, K1.
  assert (V : ge_is_valid_var C (ge_mul C (be_combine seckey) (ge_const_g C)) = true)
    by (apply (g_mul_valid C L); lia).
  destruct (pubkey_serialize_valid _ compressed V) as (pub & E & P & Hlen).
  destruct (pubkey_serialize_valid _ 0 V) as (pub0 & E0 & P0 & Hlen0).
  rewrite E, E0. intros H.
  assert (pub = pubkey) as -> by congruence.
  assert (len = Z.of_nat (length pubkey)) as -> by congruence.
  split; [rewrite Hlen; destruct (compressed =? 0); reflexivity|].
  split; [reflexivity|].
  unfold secp256k1_ec_pubkey_verify, secp256k1_ec_pubkey_decompress.
  rewrite P, E0. split; reflexivity.
Qed.

End SerialisedKeys.

(** The property at the compressed key with x = 4 and odd y. *)
Lemma pubkey_decompress_spec_witness :
  exists out,
    secp256k1_ec_pubkey_decompress dlog_curve (Byte.x03 :: be_split 32 4) = (1, out, 65) /\
    hd Byte.x00 out = Byte.x04 /\
    secp256k1_ec_pubkey_decompress dlog_curve out = (1, out, 65).
Proof.
  destruct (proj2 (pubkey_decompress_spec dlog_curve dlog_curve_laws
                     (Byte.x03 :: be_split 32 4)))
    as (out & E & _ & Hhd & _ & Hid); [vm_compute; reflexivity|].
  exists out. split; [exact E|]. split; [exact Hhd|exact Hid].
Defined.

(** The property at the secret key 6. *)
Lemma pubkey_create_decompress_witness :
  exists pubkey,
    secp256k1_ec_pubkey_create dlog_curve (context_with_blinding dlog_curve 5)
      (be_split 32 6) 1 = (1, pubkey, 33) /\
    secp256k1_ec_pubkey_verify dlog_curve pubkey = 1 /\
    secp256k1_ec_pubkey_decompress dlog_curve pubkey =
      secp256k1_ec_pubkey_create dlog_curve (context_with_blinding dlog_curve 9)
        (be_split 32 6) 0.
Proof.
  assert (E : exists pubkey,
             secp256k1_ec_pubkey_create dlog_curve (context_with_blinding dlog_curve 5)
               (be_split 32 6) 1 = (1, pubkey, 33)) by (eexists; vm_compute; reflexivity).
  destruct E as (pubkey & E). exists pubkey. split; [exact E|].
  exact (proj2 (proj2 (pubkey_create_decompress dlog_curve dlog_curve_laws _ _ _ _ _ _
                         (context_with_blinding_built dlog_curve 5)
                         (context_with_blinding_built dlog_curve 9) E))).
Defined.

(* ----------------------------------------------------------------- *)
(** ** Tweaking serialised public keys *)

Lemma pubkey_reserialize_length (C : curve) pubkey q p out :
  secp256k1_eckey_pubkey_parse C pubkey = Some q ->
  secp256k1_eckey_pubkey_serialize C p
    (if Z.of_nat (length pubkey) <=? 33 then 1 else 0) = Some out ->
  Z.of_nat (length out) = Z.of_nat (length pubkey).
Proof.
  intros P E. apply pubkey_serialize_length in E as (_ & E & _).
  destruct (pubkey_parse_length C _ _ P) as [H|H]; rewrite H in *; rewrite E; reflexivity.
Qed.

(** X4: [secp256k1_ec_pubkey_tweak_add] and [secp256k1_ec_pubkey_tweak_mul]
    never fail their [VERIFY_CHECK(pubkeylen == oldlen)]: for every input
    they return 0 or 1, the key written has the length of the key passed
    in, and on 0 the key is untouched. *)
Theorem pubkey_tweak_keeps_length (C : curve) (verify : bool) (pubkey tweak : list byte) :
  (exists ret out,
     secp256k1_ec_pubkey_tweak_add C verify pubkey tweak = Some (ret, out) /\
     (ret = 0 \/ ret = 1) /\ length out = length pubkey /\ (ret = 0 -> out = pubkey)) /\
  (exists ret out,
     secp256k1_ec_pubkey_tweak_mul C verify pubkey tweak = Some (ret, out) /\
     (ret = 0 \/ ret = 1) /\ length out = length pubkey /\ (ret = 0 -> out = pubkey)).
Proof.
  unfold secp256k1_ec_pubkey_tweak_add, secp256k1_ec_pubkey_tweak_mul,
    secp256k1_eckey_pubkey_tweak_add, secp256k1_eckey_pubkey_tweak_mul.
  destruct (secp256k1_scalar_set_b32 tweak) as [term overflow].
  destruct overflow; cbn [negb]; [split; exists 0, pubkey; auto|].
  destruct (secp256k1_eckey_pubkey_parse C pubkey) as [p|] eqn:P;
    [|split; exists 0, pubkey; auto].
  split.
  - destruct (ge_is_infinity C (secp256k1_ecmult C p 1 term)); cbn [Z.eqb negb];
      [exists 0, pubkey; auto|].
    destruct (secp256k1_eckey_pubkey_serialize C _ _) as [out|] eqn:E;
      [|exists 0, pubkey; auto].
    pose proof (pubkey_reserialize_length C _ _ _ _ P E) as Hlen.
    rewrite Hlen, Z.eqb_refl, andb_false_r.
    exists 1, out. repeat split; [auto|lia|discriminate].
  - destruct (secp256k1_scalar_is_zero term); cbn [Z.eqb negb];
      [exists 0, pubkey; auto|].
    destruct (secp256k1_eckey_pubkey_serialize C _ _) as [out|] eqn:E;
      [|exists 0, pubkey; auto].
    pose proof (pubkey_reserialize_length C _ _ _ _ P E) as Hlen.
    rewrite Hlen, Z.eqb_refl, andb_false_r.
    exists 1, out. repeat split; [auto|lia|discriminate].
Qed.

(* ----------------------------------------------------------------- *)
(** ** Scalars modulo the prime group order *)

Lemma scalar_mul_nonzero a b :
  0 < a < secp256k1_n -> 0 < b < secp256k1_n -> (a * b) mod secp256k1_n <> 0.
Proof.
  intros Ha Hb E. pose proof secp256k1_n_range as Hn.
  assert (Hi : (secp256k1_scalar_inverse a * a) mod secp256k1_n = 1)
    by (apply scalar_inverse_spec; rewrite Z.mod_small; lia).
  assert (H : (secp256k1_scalar_inverse a * (a * b)) mod secp256k1_n = b).
  { rewrite Z.mul_assoc, <- Z.mul_mod_idemp_l, Hi, Z.mul_1_l by lia.
    apply Z.mod_small. lia. }
  rewrite <- Z.mul_mod_idemp_r, E, Z.mul_0_r, Z.mod_0_l in H by lia. lia.
Qed.

Lemma privkey_tweak_mul_eq (seckey tweak : list byte) :
  secp256k1_ec_privkey_tweak_mul seckey tweak =
  if (0 <? be_combine tweak) && (be_combine tweak <? secp256k1_n)
  then (1, secp256k1_scalar_get_b32
             ((be_combine seckey mod secp256k1_n * be_combine tweak) mod secp256k1_n))
  else (0, seckey).
Proof.
  pose proof secp256k1_n_range as Hn. pose proof (be_combine_range tweak) as Ht.
  unfold secp256k1_ec_privkey_tweak_mul, secp256k1_eckey_privkey_tweak_mul,
    secp256k1_scalar_set_b32, secp256k1_scalar_is_zero, secp256k1_scalar_mul.
  cbn [fst].
  destruct (Z.leb_spec secp256k1_n (be_combine tweak)) as [H|H].
  - destruct (Z.ltb_spec (be_combine tweak) secp256k1_n); [lia|]. rewrite andb_false_r.
    destruct (_ =? 0); cbn [Z.eqb negb andb]; reflexivity.
  - destruct (Z.ltb_spec (be_combine tweak) secp256k1_n); [|lia]. rewrite andb_true_r.
    rewrite (Z.mod_small (be_combine tweak)) by lia.
    destruct (Z.eqb_spec (be_combine tweak) 0) as [E|E];
      destruct (Z.ltb_spec 0 (be_combine tweak)); try lia; reflexivity.
Qed.

(** X5: [secp256k1_ec_privkey_tweak_mul] succeeds exactly when the tweak
    lies in [1, n-1], writing d * t mod n, and leaves the key unchanged
    otherwise; the product of a valid key is a valid key again, while a key
    that is a multiple of n is not rejected and yields the zero key. *)
Theorem privkey_tweak_mul_spec (seckey tweak : list byte) :
  let d := be_combine seckey in
  let t := be_combine tweak in
  (0 < t < secp256k1_n ->
   secp256k1_ec_privkey_tweak_mul seckey tweak =
     (1, secp256k1_scalar_get_b32 ((d mod secp256k1_n * t) mod secp256k1_n))) /\
  (t = 0 \/ secp256k1_n <= t ->
   secp256k1_ec_privkey_tweak_mul seckey tweak = (0, seckey)) /\
  (0 < t < secp256k1_n -> 0 < d < secp256k1_n ->
   secp256k1_ec_seckey_verify (snd (secp256k1_ec_privkey_tweak_mul seckey tweak)) = 1) /\
  (0 < t < secp256k1_n -> d mod secp256k1_n = 0 ->
   secp256k1_ec_privkey_tweak_mul seckey tweak = (1, secp256k1_scalar_get_b32 0)).
Proof.
  cbv zeta. pose proof secp256k1_n_range as Hn. rewrite privkey_tweak_mul_eq.
  destruct (Z.ltb_spec 0 (be_combine tweak)), (Z.ltb_spec (be_combine tweak) secp256k1_n);
    cbn [andb snd]; repeat split; intros; try reflexivity; try lia.
  - rewrite seckey_verify_eq. unfold secp256k1_scalar_get_b32.
    pose proof (scalar_mod_range (be_combine seckey mod secp256k1_n * be_combine tweak)).
    rewrite be_combine_split_32 by lia.
    rewrite (Z.mod_small (be_combine seckey)) in * by lia.
    pose proof (scalar_mul_nonzero (be_combine seckey) (be_combine tweak)).
    destruct (Z.ltb_spec 0 ((be_combine seckey * be_combine tweak) mod secp256k1_n));
      destruct (Z.ltb_spec ((be_combine seckey * be_combine tweak) mod secp256k1_n)
                  secp256k1_n); try reflexivity; lia.
  - match goal with H : _ mod _ = 0 |- _ => rewrite H end. reflexivity.
Qed.

(** The property at the key 5 with the tweaks 7, 0 and n, and at the key n. *)
Lemma privkey_tweak_mul_spec_witness :
  secp256k1_ec_privkey_tweak_mul (be_split 32 5) (be_split 32 7) =
    (1, secp256k1_scalar_get_b32 35) /\
  secp256k1_ec_privkey_tweak_mul (be_split 32 5) (be_split 32 0) = (0, be_split 32 5) /\
  secp256k1_ec_privkey_tweak_mul (be_split 32 5) (be_split 32 secp256k1_n) =
    (0, be_split 32 5) /\
  secp256k1_ec_seckey_verify
    (snd (secp256k1_ec_privkey_tweak_mul (be_split 32 5) (be_split 32 7))) = 1 /\
  secp256k1_ec_privkey_tweak_mul (be_split 32 secp256k1_n) (be_split 32 7) =
    (1, secp256k1_scalar_get_b32 0).
Proof.
  pose proof (privkey_tweak_mul_spec (be_split 32 5) (be_split 32 7)) as (H1 & _ & H3 & _).
  pose proof (privkey_tweak_mul_spec (be_split 32 5) (be_split 32 0)) as (_ & H2 & _).
  pose proof (privkey_tweak_mul_spec (be_split 32 5) (be_split 32 secp256k1_n))
    as (_ & H2' & _).
  pose proof (privkey_tweak_mul_spec (be_split 32 secp256k1_n) (be_split 32 7))
    as (_ & _ & _ & H4).
  split; [rewrite H1 by (vm_compute; split; reflexivity); vm_compute; reflexivity|].
  split; [apply H2; left; vm_compute; reflexivity|].
  split; [apply H2'; right; vm_compute; discriminate|].
  split; [apply H3; vm_compute; split; reflexivity|].
  apply H4; vm_compute; try split; reflexivity.
Defined.

Section TweakLinearity.
Variable C : curve.
Hypothesis L : curve_laws C.

Lemma pubkey_create_success ctx seckey compressed pubkey len :
  secp256k1_ecmult_gen_context_is_built C (ecmult_gen_ctx ctx) ->
  secp256k1_ec_pubkey_create C ctx seckey compressed = (1, pubkey, len) ->
  0 < be_combine seckey < secp256k1_n /\
  secp256k1_eckey_pubkey_serialize C (ge_mul C (be_combine seckey) (ge_const_g C))
    compressed = Some pubkey /\
  secp256k1_eckey_pubkey_parse C pubkey = Some (ge_mul C (be_combine seckey) (ge_const_g C)) /\
  len = Z.of_nat (length pubkey) /\
  length pubkey = (if compressed =? 0 then 65%nat else 33%nat).
Proof.
  intros Hctx. rewrite (pubkey_create_eq C L _ _ _ Hctx).
  destruct ((0 <? be_combine seckey) && (be_combine seckey <? secp256k1_n)) eqn:K;
    [|discriminate].
  apply andb_true_iff in K as [K0 K1]. apply Z.ltb_lt in K0, K1.
  assert (V : ge_is_valid_var C (ge_mul C (be_combine seckey) (ge_const_g C)) = true)
    by (apply (g_mul_valid C L); lia).
  destruct (pubkey_serialize_valid C L _ compressed V) as (pub & E & P & Hlen).
  rewrite E. intros H.
  assert (pub = pubkey) as -> by congruence.
  assert (len = Z.of_nat (length pubkey)) as -> by congruence.
  repeat split; try assumption; lia.
Qed.

Lemma pubkey_create_of_scalar ctx a compressed :
  secp256k1_ecmult_gen_context_is_built C (ecmult_gen_ctx ctx) ->
  0 < a < secp256k1_n ->
  exists pub,
    secp256k1_eckey_pubkey_serialize C (ge_mul C a (ge_const_g C)) compressed = Some pub /\
    secp256k1_ec_pubkey_create C ctx (secp256k1_scalar_get_b32 a) compressed =
      (1, pub, Z.of_nat (length pub)).
Proof.
  intros Hctx Ha. pose proof secp256k1_n_range as Hn.
  rewrite (pubkey_create_eq C L _ _ _ Hctx).
  unfold secp256k1_scalar_get_b32. rewrite be_combine_split_32 by lia.
  destruct (Z.ltb_spec 0 a); [|lia]. destruct (Z.ltb_spec a secp256k1_n); [|lia].
  cbn [andb].
  assert (V : ge_is_valid_var C (ge_mul C a (ge_const_g C)) = true)
    by (apply (g_mul_valid C L); lia).
  destruct (pubkey_serialize_valid C L _ compressed V) as (pub & E & _).
  exists pub. rewrite E. split; reflexivity.
Qed.

Lemma reserialize_flag (pubkey : list byte) compressed :
  length pubkey = (if compressed =? 0 then 65%nat else 33%nat) ->
  (if Z.of_nat (length pubkey) <=? 33 then 1 else 0) = (if compressed =? 0 then 0 else 1).
Proof. intros ->. destruct (compressed =? 0); reflexivity. Qed.

(** X6: tweaking commutes with key derivation.  For a public key created
    from the secret key d, [secp256k1_ec_privkey_tweak_add] and
    [secp256k1_ec_pubkey_tweak_add] succeed together, exactly when the
    tweak is below n and d + t is nonzero mod n, and then the tweaked
    public key is the one [secp256k1_ec_pubkey_create] derives from the
    tweaked secret key; when they fail, both leave their key unchanged. *)
Theorem tweak_add_linear (ctx : secp256k1_context_t C) (verify : bool)
  (seckey tweak : list byte) (compressed : Z) (pubkey : list byte) (len : Z) :
  secp256k1_ecmult_gen_context_is_built C (ecmult_gen_ctx ctx) ->
  secp256k1_ec_pubkey_create C ctx seckey compressed = (1, pubkey, len) ->
  let sum := (be_combine seckey + be_combine tweak) mod secp256k1_n in
  (be_combine tweak < secp256k1_n /\ sum <> 0 ->
   exists pubkey',
     secp256k1_ec_privkey_tweak_add seckey tweak = (1, secp256k1_scalar_get_b32 sum) /\
     secp256k1_ec_pubkey_tweak_add C verify pubkey tweak = Some (1, pubkey') /\
     secp256k1_ec_pubkey_create C ctx (secp256k1_scalar_get_b32 sum) compressed =
       (1, pubkey', len)) /\
  (secp256k1_n <= be_combine tweak \/ sum = 0 ->
   secp256k1_ec_privkey_tweak_add seckey tweak = (0, seckey) /\
   secp256k1_ec_pubkey_tweak_add C verify pubkey tweak = Some (0, pubkey)).
Proof.
  intros Hctx Hcreate sum. pose proof secp256k1_n_range as Hn.
  pose proof (be_combine_range tweak) as Ht.
  destruct (pubkey_create_success _ _ _ _ _ Hctx Hcreate) as (Hd & Hser & Hparse & -> & Hlen).
  rewrite privkey_tweak_add_eq. fold sum.
  unfold secp256k1_ec_pubkey_tweak_add, secp256k1_scalar_set_b32,
    secp256k1_eckey_pubkey_tweak_add.
  rewrite Hparse, (reserialize_flag _ _ Hlen).
  assert (Hpt : be_combine tweak < secp256k1_n ->
                secp256k1_ecmult C (ge_mul C (be_combine seckey) (ge_const_g C)) 1
                  (be_combine tweak mod secp256k1_n) = ge_mul C sum (ge_const_g C)).
  { intros Hlt. unfold secp256k1_ecmult. rewrite Z.mod_small by lia.
    rewrite (ge_mul_1 C) by auto with ge_group.
    rewrite <- (ge_mul_add C L) by (auto with ge_group; lia).
    subst sum. rewrite (g_mul_mod C L) by lia. reflexivity. }
  pose proof (scalar_mod_range (be_combine seckey + be_combine tweak)) as Hsum. fold sum in Hsum.
  split.
  - intros [Hlt Hnz].
    destruct (Z.ltb_spec (be_combine tweak) secp256k1_n); [|lia].
    destruct (Z.leb_spec secp256k1_n (be_combine tweak)); [lia|].
    destruct (Z.eqb_spec sum 0); [lia|]. cbn [andb negb].
    rewrite (Hpt Hlt).
    assert (V : ge_is_valid_var C (ge_mul C sum (ge_const_g C)) = true)
      by (apply (g_mul_valid C L); lia).
    rewrite (valid_not_infinity C L _ V). cbn [Z.eqb negb].
    rewrite <- pubkey_serialize_flag.
    destruct (pubkey_create_of_scalar ctx sum compressed Hctx ltac:(lia)) as (pub & E & Hc).
    rewrite E.
    pose proof (proj1 (proj2 (pubkey_serialize_length C _ _ _ E))) as Hl.
    rewrite Hc. rewrite Hl, Hlen. destruct (compressed =? 0); cbn [Z.of_nat]; 
      rewrite Z.eqb_refl, andb_false_r; exists pub; repeat split.
  - intros Hfail.
    destruct (Z.leb_spec secp256k1_n (be_combine tweak)) as [Hge|Hlt]; cbn [negb].
    + destruct (Z.ltb_spec (be_combine tweak) secp256k1_n); [lia|]. split; reflexivity.
    + destruct (Z.ltb_spec (be_combine tweak) secp256k1_n); [|lia].
      destruct Hfail as [?|Hz]; [lia|].
      destruct (Z.eqb_spec sum 0); [|lia]. cbn [andb negb]. split; [reflexivity|].
      rewrite (Hpt Hlt), Hz. cbn [ge_mul].
      rewrite (proj2 (is_infinity_spec C L _) eq_refl). reflexivity.
Qed.

(** X7: the same for multiplication: [secp256k1_ec_privkey_tweak_mul] and
    [secp256k1_ec_pubkey_tweak_mul] succeed together, exactly when the
    tweak lies in [1, n-1], and the tweaked public key is the one derived
    from the tweaked secret key. *)
Theorem tweak_mul_linear (ctx : secp256k1_context_t C) (verify : bool)
  (seckey tweak : list byte) (compressed : Z) (pubkey : list byte) (len : Z) :
  secp256k1_ecmult_gen_context_is_built C (ecmult_gen_ctx ctx) ->
  secp256k1_ec_pubkey_create C ctx seckey compressed = (1, pubkey, len) ->
  let prod := (be_combine seckey * be_combine tweak) mod secp256k1_n in
  (0 < be_combine tweak < secp256k1_n ->
   exists pubkey',
     secp256k1_ec_privkey_tweak_mul seckey tweak = (1, secp256k1_scalar_get_b32 prod) /\
     secp256k1_ec_pubkey_tweak_mul C verify pubkey tweak = Some (1, pubkey') /\
     secp256k1_ec_pubkey_create C ctx (secp256k1_scalar_get_b32 prod) compressed =
       (1, pubkey', len)) /\
  (be_combine tweak = 0 \/ secp256k1_n <= be_combine tweak ->
   secp256k1_ec_privkey_tweak_mul seckey tweak = (0, seckey) /\
   secp256k1_ec_pubkey_tweak_mul C verify pubkey tweak = Some (0, pubkey)).
Proof.
  intros Hctx Hcreate prod. pose proof secp256k1_n_range as Hn.
  pose proof (be_combine_range tweak) as Ht.
  destruct (pubkey_create_success _ _ _ _ _ Hctx Hcreate) as (Hd & Hser & Hparse & -> & Hlen).
  rewrite privkey_tweak_mul_eq. rewrite (Z.mod_small (be_combine seckey)) by lia. fold prod.
  unfold secp256k1_ec_pubkey_tweak_mul, secp256k1_scalar_set_b32,
    secp256k1_eckey_pubkey_tweak_mul, secp256k1_scalar_is_zero.
  rewrite Hparse, (reserialize_flag _ _ Hlen).
  split.
  - intros Hlt.
    destruct (Z.ltb_spec (be_combine tweak) secp256k1_n); [|lia].
    destruct (Z.ltb_spec 0 (be_combine tweak)); [|lia].
    destruct (Z.leb_spec secp256k1_n (be_combine tweak)); [lia|]. cbn [andb negb].
    rewrite (Z.mod_small (be_combine tweak)) by lia.
    destruct (Z.eqb_spec (be_combine tweak) 0); [lia|]. cbn [Z.eqb negb].
    assert (Hp : 0 < prod < secp256k1_n).
    { pose proof (scalar_mod_range (be_combine seckey * be_combine tweak)).
      pose proof (scalar_mul_nonzero (be_combine seckey) (be_combine tweak)).
      subst prod. lia. }
    assert (Hpt : secp256k1_ecmult C (ge_mul C (be_combine seckey) (ge_const_g C))
                    (be_combine tweak) (secp256k1_scalar_set_int 0) =
                  ge_mul C prod (ge_const_g C)).
    { unfold secp256k1_ecmult, secp256k1_scalar_set_int. rewrite Z.mod_0_l by lia.
      cbn [ge_mul]. rewrite (add_infinity_r C L) by auto with ge_group.
      rewrite <- (ge_mul_mul C L) by (auto with ge_group; lia).
      subst prod. rewrite (g_mul_mod C L) by nia. f_equal. ring. }
    rewrite Hpt, <- pubkey_serialize_flag.
    destruct (pubkey_create_of_scalar ctx prod compressed Hctx Hp) as (pub & E & Hc).
    rewrite E.
    pose proof (proj1 (proj2 (pubkey_serialize_length C _ _ _ E))) as Hl.
    rewrite Hc. rewrite Hl, Hlen. destruct (compressed =? 0); cbn [Z.of_nat];
      rewrite Z.eqb_refl, andb_false_r; exists pub; repeat split.
  - intros Hfail.
    destruct (Z.leb_spec secp256k1_n (be_combine tweak)) as [Hge|Hlt]; cbn [negb].
    + destruct (Z.ltb_spec (be_combine tweak) secp256k1_n); [lia|].
      rewrite andb_false_r. split; reflexivity.
    + destruct Hfail as [Hz|?]; [|lia]. rewrite Hz. cbn [Z.ltb Z.compare andb].
      rewrite Z.mod_0_l by lia. cbn [Z.eqb negb]. split; reflexivity.
Qed.

End TweakLinearity.

(** The property at the key 6 with the tweaks 4 and n - 6. *)
Lemma tweak_add_linear_witness :
  exists pubkey pubkey',
    secp256k1_ec_pubkey_create dlog_curve (context_with_blinding dlog_curve 5)
      (be_split 32 6) 1 = (1, pubkey, 33) /\
    secp256k1_ec_privkey_tweak_add (be_split 32 6) (be_split 32 4) = (1, be_split 32 10) /\
    secp256k1_ec_pubkey_tweak_add dlog_curve true pubkey (be_split 32 4) = Some (1, pubkey') /\
    secp256k1_ec_pubkey_create dlog_curve (context_with_blinding dlog_curve 5)
      (be_split 32 10) 1 = (1, pubkey', 33) /\
    secp256k1_ec_pubkey_tweak_add dlog_curve true pubkey (be_split 32 (secp256k1_n - 6))
      = Some (0, pubkey).
Proof.
  assert (E : exists pubkey,
             secp256k1_ec_pubkey_create dlog_curve (context_with_blinding dlog_curve 5)
               (be_split 32 6) 1 = (1, pubkey, 33)) by (eexists; vm_compute; reflexivity).
  destruct E as (pubkey & E).
  destruct (tweak_add_linear dlog_curve dlog_curve_laws _ true _ (be_split 32 4) _ _ _
              (context_with_blinding_built dlog_curve 5) E) as (H1 & _).
  destruct (tweak_add_linear dlog_curve dlog_curve_laws _ true _
              (be_split 32 (secp256k1_n - 6)) _ _ _
              (context_with_blinding_built dlog_curve 5) E) as (_ & H2).
  destruct H1 as (pubkey' & Hp & Hq & Hc); [vm_compute; split; [reflexivity|discriminate]|].
  exists pubkey, pubkey'. split; [exact E|].
  split; [rewrite Hp; vm_compute; reflexivity|]. split; [exact Hq|].
  split; [rewrite <- Hc; vm_compute; reflexivity|].
  apply H2. right. vm_compute. reflexivity.
Defined.

(** The property at the key 6 with the tweaks 4 and 0. *)
Lemma tweak_mul_linear_witness :
  exists pubkey pubkey',
    secp256k1_ec_pubkey_create dlog_curve (context_with_blinding dlog_curve 5)
      (be_split 32 6) 0 = (1, pubkey, 65) /\
    secp256k1_ec_privkey_tweak_mul (be_split 32 6) (be_split 32 4) = (1, be_split 32 24) /\
    secp256k1_ec_pubkey_tweak_mul dlog_curve true pubkey (be_split 32 4) = Some (1, pubkey') /\
    secp256k1_ec_pubkey_create dlog_curve (context_with_blinding dlog_curve 5)
      (be_split 32 24) 0 = (1, pubkey', 65) /\
    secp256k1_ec_pubkey_tweak_mul dlog_curve true pubkey (be_split 32 0) = Some (0, pubkey).
Proof.
  assert (E : exists pubkey,
             secp256k1_ec_pubkey_create dlog_curve (context_with_blinding dlog_curve 5)
               (be_split 32 6) 0 = (1, pubkey, 65)) by (eexists; vm_compute; reflexivity).
  destruct E as (pubkey & E).
  destruct (tweak_mul_linear dlog_curve dlog_curve_laws _ true _ (be_split 32 4) _ _ _
              (context_with_blinding_built dlog_curve 5) E) as (H1 & _).
  destruct (tweak_mul_linear dlog_curve dlog_curve_laws _ true _ (be_split 32 0) _ _ _
              (context_with_blinding_built dlog_curve 5) E) as (_ & H2).
  destruct H1 as (pubkey' & Hp & Hq & Hc); [vm_compute; split; reflexivity|].
  exists pubkey, pubkey'. split; [exact E|].
  split; [rewrite Hp; vm_compute; reflexivity|]. split; [exact Hq|].
  split; [rewrite <- Hc; vm_compute; reflexivity|].
  apply H2. left. vm_compute. reflexivity.
Defined.

(* ----------------------------------------------------------------- *)
(** ** Point multiplication *)

Section PointMultiply.
Variable C : curve.
Hypothesis L : curve_laws C.
Hypothesis PL : curve_point_laws C.

(** A point of the curve has order [secp256k1_n]: no smaller multiple is
    the point at infinity. *)
Lemma ge_mul_not_infinity k a :
  ge_is_valid_var C a = true -> 0 < k < secp256k1_n ->
  ge_is_valid_var C (ge_mul C k a) = true.
Proof.
  intros V Hk. pose proof secp256k1_n_range as Hn.
  pose proof (valid_in_group C a V) as Ha.
  apply (not_infinity_valid C L); [apply (ge_mul_in_group C L); exact Ha|].
  intros E.
  pose proof (scalar_inverse_range k) as Hu.
  assert (Hi : (secp256k1_scalar_inverse k * k) mod secp256k1_n = 1)
    by (apply scalar_inverse_spec; rewrite Z.mod_small; lia).
  set (u := secp256k1_scalar_inverse k) in *.
  set (w := (u * k) / secp256k1_n).
  assert (Hw : u * k = 1 + w * secp256k1_n).
  { pose proof (Z.div_mod (u * k) secp256k1_n ltac:(lia)). subst w. lia. }
  assert (H0w : 0 <= w) by (subst w; apply Z.div_pos; nia).
  assert (H1 : ge_mul C (u * k) a = ge_infinity C).
  { rewrite (ge_mul_mul C L) by (assumption || lia). rewrite E.
    apply (ge_mul_infinity C L). lia. }
  assert (H2 : ge_mul C (u * k) a = a).
  { rewrite Hw. rewrite (ge_mul_add C L) by (assumption || lia).
    rewrite (ge_mul_1 C) by assumption.
    rewrite (ge_mul_mul C L) by (assumption || lia).
    rewrite (mul_order C PL a Ha).
    rewrite (ge_mul_infinity C L) by lia.
    apply (add_infinity_r C L). assumption. }
  rewrite H2 in H1. subst a. rewrite (infinity_not_valid C L) in V. discriminate.
Qed.

(** X8: [secp256k1_point_multiply] returns -3 when the point does not
    parse and, when it parses, -2 for a scalar that is not below n, 0 for
    the scalar zero and 1 for a scalar in [1, n-1]; it never returns -1,
    and whenever the result is not 1 the point buffer and its length are
    as they were. *)
Theorem point_multiply_return_values (point scalar : list byte) :
  let ret := fst (fst (secp256k1_point_multiply C point scalar)) in
  let s := be_combine scalar in
  (ret = 1 \/ ret = 0 \/ ret = -2 \/ ret = -3) /\
  ret <> -1 /\
  (ret = -3 <-> secp256k1_ec_pubkey_verify C point = 0) /\
  (ret = -2 <-> secp256k1_ec_pubkey_verify C point = 1 /\ secp256k1_n <= s) /\
  (ret = 0 <-> secp256k1_ec_pubkey_verify C point = 1 /\ s = 0) /\
  (ret = 1 <-> secp256k1_ec_pubkey_verify C point = 1 /\ 0 < s < secp256k1_n) /\
  (ret <> 1 ->
   secp256k1_point_multiply C point scalar = (ret, point, Z.of_nat (length point))).
Proof.
  cbv zeta. pose proof secp256k1_n_range as Hn. pose proof (be_combine_range scalar) as Hs.
  unfold secp256k1_point_multiply, secp256k1_ec_pubkey_verify, secp256k1_scalar_set_b32,
    secp256k1_ecdh_point_multiply.
  destruct (secp256k1_eckey_pubkey_parse C point) as [pt|] eqn:P.
  2: { cbn [fst]. repeat split; intros; try lia; try tauto; try discriminate;
       try (destruct H; discriminate). }
  pose proof (pubkey_parse_valid C L _ _ P) as V.
  destruct (Z.leb_spec secp256k1_n (be_combine scalar)) as [H|H].
  { cbn [fst]. repeat split; intros; try lia; try tauto; try discriminate. }
  rewrite Z.mod_small by lia.
  destruct (Z.eq_dec (be_combine scalar) 0) as [E|E].
  - rewrite E. cbn [ge_mul]. unfold secp256k1_eckey_pubkey_serialize.
    rewrite (proj2 (is_infinity_spec C L _) eq_refl). cbn [fst].
    repeat split; intros; try lia; try tauto; try discriminate.
  - pose proof (ge_mul_not_infinity (be_combine scalar) pt V ltac:(lia)) as V'.
    destruct (pubkey_serialize_valid C L _ (if Z.of_nat (length point) <=? 33 then 1 else 0) V')
      as (out & Hser & _).
    rewrite Hser. cbn [fst].
    repeat split; intros; try lia; try tauto; try discriminate.
Qed.

(** X9: [secp256k1_point_multiply] gives both parties of a key agreement
    the same bytes: multiplying the public key of b by the secret key of a
    equals multiplying the public key of a by the secret key of b, returns
    1, and is the public key of the secret key a * b mod n. *)
Theorem ecdh_commutative (ctx : secp256k1_context_t C) (seckey_a seckey_b : list byte)
  (compressed : Z) (pubkey_a pubkey_b : list byte) (len_a len_b : Z) :
  secp256k1_ecmult_gen_context_is_built C (ecmult_gen_ctx ctx) ->
  secp256k1_ec_pubkey_create C ctx seckey_a compressed = (1, pubkey_a, len_a) ->
  secp256k1_ec_pubkey_create C ctx seckey_b compressed = (1, pubkey_b, len_b) ->
  secp256k1_point_multiply C pubkey_b seckey_a =
    secp256k1_point_multiply C pubkey_a seckey_b /\
  secp256k1_point_multiply C pubkey_b seckey_a =
    secp256k1_ec_pubkey_create C ctx
      (secp256k1_scalar_get_b32 ((be_combine seckey_a * be_combine seckey_b)
                                   mod secp256k1_n)) compressed /\
  fst (fst (secp256k1_point_multiply C pubkey_b seckey_a)) = 1.
Proof.
  intros Hctx Ha Hb. pose proof secp256k1_n_range as Hn.
  destruct (pubkey_create_success C L _ _ _ _ _ Hctx Ha) as (Da & _ & Pa & -> & La).
  destruct (pubkey_create_success C L _ _ _ _ _ Hctx Hb) as (Db & _ & Pb & -> & Lb).
  set (a := be_combine seckey_a) in *. set (b := be_combine seckey_b) in *.
  assert (Hp : 0 < (a * b) mod secp256k1_n < secp256k1_n).
  { pose proof (scalar_mod_range (a * b)). pose proof (scalar_mul_nonzero a b). lia. }
  destruct (pubkey_create_of_scalar C L ctx _ compressed Hctx Hp) as (pub & E & Hc).
  assert (Hab : ge_mul C a (ge_mul C b (ge_const_g C)) =
                ge_mul C ((a * b) mod secp256k1_n) (ge_const_g C)).
  { rewrite <- (ge_mul_mul C L) by (auto with ge_group; lia).
    rewrite (g_mul_mod C L) by nia. reflexivity. }
  assert (Hba : ge_mul C b (ge_mul C a (ge_const_g C)) =
                ge_mul C ((a * b) mod secp256k1_n) (ge_const_g C)).
  { rewrite <- (ge_mul_mul C L) by (auto with ge_group; lia).
    rewrite (Z.mul_comm b a), (g_mul_mod C L) by nia. reflexivity. }
  assert (H1 : secp256k1_point_multiply C pubkey_b seckey_a = (1, pub, Z.of_nat (length pub))).
  { unfold secp256k1_point_multiply, secp256k1_scalar_set_b32, secp256k1_ecdh_point_multiply.
    rewrite Pb. fold a. destruct (Z.leb_spec secp256k1_n a); [lia|].
    rewrite Z.mod_small by lia. rewrite Hab, (reserialize_flag _ _ Lb).
    rewrite <- pubkey_serialize_flag, E. reflexivity. }
  assert (H2 : secp256k1_point_multiply C pubkey_a seckey_b = (1, pub, Z.of_nat (length pub))).
  { unfold secp256k1_point_multiply, secp256k1_scalar_set_b32, secp256k1_ecdh_point_multiply.
    rewrite Pa. fold b. destruct (Z.leb_spec secp256k1_n b); [lia|].
    rewrite Z.mod_small by lia. rewrite Hba, (reserialize_flag _ _ La).
    rewrite <- pubkey_serialize_flag, E. reflexivity. }
  rewrite H1, H2, Hc. repeat split.
Qed.

End PointMultiply.

(** The four results, at the point with x = 4. *)
Lemma point_multiply_return_values_witness :
  fst (fst (secp256k1_point_multiply dlog_curve (Byte.x02 :: be_split 32 4) (be_split 32 0)))
    = 0 /\
  fst (fst (secp256k1_point_multiply dlog_curve (Byte.x02 :: be_split 32 4) (be_split 32 3)))
    = 1 /\
  fst (fst (secp256k1_point_multiply dlog_curve (Byte.x02 :: be_split 32 4)
              (be_split 32 secp256k1_n))) = -2 /\
  fst (fst (secp256k1_point_multiply dlog_curve (Byte.x08 :: be_split 32 4) (be_split 32 3)))
    = -3.
Proof.
  pose proof (point_multiply_return_values dlog_curve dlog_curve_laws dlog_curve_point_laws)
    as H. cbv zeta in H.
  split; [apply (H (Byte.x02 :: be_split 32 4) (be_split 32 0));
          split; vm_compute; reflexivity|].
  split; [apply (H (Byte.x02 :: be_split 32 4) (be_split 32 3));
          split; [|split]; vm_compute; reflexivity|].
  split; [apply (H (Byte.x02 :: be_split 32 4) (be_split 32 secp256k1_n));
          split; vm_compute; [reflexivity|discriminate]|].
  apply (H (Byte.x08 :: be_split 32 4) (be_split 32 3)). vm_compute. reflexivity.
Defined.

(** The property at the secret keys 6 and 11. *)
Lemma ecdh_commutative_witness :
  exists pubkey_a pubkey_b,
    secp256k1_ec_pubkey_create dlog_curve (context_with_blinding dlog_curve 5)
      (be_split 32 6) 1 = (1, pubkey_a, 33) /\
    secp256k1_ec_pubkey_create dlog_curve (context_with_blinding dlog_curve 5)
      (be_split 32 11) 1 = (1, pubkey_b, 33) /\
    secp256k1_point_multiply dlog_curve pubkey_b (be_split 32 6) =
      secp256k1_point_multiply dlog_curve pubkey_a (be_split 32 11) /\
    fst (fst (secp256k1_point_multiply dlog_curve pubkey_b (be_split 32 6))) = 1.
Proof.
  assert (Ea : exists pubkey,
             secp256k1_ec_pubkey_create dlog_curve (context_with_blinding dlog_curve 5)
               (be_split 32 6) 1 = (1, pubkey, 33)) by (eexists; vm_compute; reflexivity).
  assert (Eb : exists pubkey,
             secp256k1_ec_pubkey_create dlog_curve (context_with_blinding dlog_curve 5)
               (be_split 32 11) 1 = (1, pubkey, 33)) by (eexists; vm_compute; reflexivity).
  destruct Ea as (pa & Ea). destruct Eb as (pb & Eb).
  exists pa, pb. split; [exact Ea|]. split; [exact Eb|].
  destruct (ecdh_commutative dlog_curve dlog_curve_laws _ _ _ _ _ _ _ _
              (context_with_blinding_built dlog_curve 5) Ea Eb) as (H1 & _ & H3).
  split; [exact H1|exact H3].
Defined.

(* ----------------------------------------------------------------- *)
(** ** The 64-byte signature object *)

Lemma signature_load_range sig :
  0 <= fst (secp256k1_ecdsa_signature_load sig) < secp256k1_n /\
  0 <= snd (secp256k1_ecdsa_signature_load sig) < secp256k1_n.
Proof. split; apply scalar_set_b32_range. Qed.

Lemma signature_save_length r s : length (secp256k1_ecdsa_signature_save r s) = 64%nat.
Proof.
  unfold secp256k1_ecdsa_signature_save, secp256k1_scalar_get_b32.
  rewrite length_app, !be_split_length. reflexivity.
Qed.

Lemma signature_load_zero :
  secp256k1_ecdsa_signature_load (repeat Byte.x00 64) = (0, 0).
Proof.
  pose proof secp256k1_n_range as Hn.
  unfold secp256k1_ecdsa_signature_load, secp256k1_scalar_set_b32. cbn [fst].
  replace (be_combine (firstn 32 (repeat Byte.x00 64))) with 0 by (vm_compute; reflexivity).
  replace (be_combine (firstn 32 (skipn 32 (repeat Byte.x00 64)))) with 0
    by (vm_compute; reflexivity).
  rewrite Z.mod_0_l by lia. reflexivity.
Qed.


Lemma signature_parse_compact_eq (input64 : list byte) :
  secp256k1_ecdsa_signature_parse_compact input64 =
  if (be_combine (firstn 32 input64) <? secp256k1_n) &&
     (be_combine (firstn 32 (skipn 32 input64)) <? secp256k1_n)
  then (1, secp256k1_ecdsa_signature_save (be_combine (firstn 32 input64))
             (be_combine (firstn 32 (skipn 32 input64))))
  else (0, repeat Byte.x00 64).
Proof.
  pose proof secp256k1_n_range as Hn.
  pose proof (be_combine_range (firstn 32 input64)) as Hr.
  pose proof (be_combine_range (firstn 32 (skipn 32 input64))) as Hs.
  unfold secp256k1_ecdsa_signature_parse_compact, secp256k1_scalar_set_b32.
  set (r := be_combine (firstn 32 input64)) in *.
  set (s := be_combine (firstn 32 (skipn 32 input64))) in *.
  destruct (Z.leb_spec secp256k1_n r), (Z.ltb_spec r secp256k1_n); try lia;
    destruct (Z.leb_spec secp256k1_n s), (Z.ltb_spec s secp256k1_n); try lia;
    cbn [negb andb]; try reflexivity.
  rewrite !Z.mod_small by lia. reflexivity.
Qed.



(** X11: [secp256k1_ecdsa_signature_normalize] returns 1 exactly when s is
    high, whether or not [sigout] is NULL; the object written keeps r,
    holds n - s in place of a high s, is never high, and is returned
    unchanged with the result 0 by a second call. *)
Theorem signature_normalize_spec (sigout sigin : list byte) :
  let r := fst (secp256k1_ecdsa_signature_load sigin) in
  let s := snd (secp256k1_ecdsa_signature_load sigin) in
  let ret := fst (secp256k1_ecdsa_signature_normalize (Some sigout) sigin) in
  (ret = 1 /\ secp256k1_scalar_is_high s = true \/
   ret = 0 /\ secp256k1_scalar_is_high s = false) /\
  secp256k1_ecdsa_signature_normalize None sigin = (ret, None) /\
  exists out,
    secp256k1_ecdsa_signature_normalize (Some sigout) sigin = (ret, Some out) /\
    length out = 64%nat /\
    secp256k1_ecdsa_signature_load out = (r, if ret =? 0 then s else secp256k1_n - s) /\
    secp256k1_scalar_is_high (snd (secp256k1_ecdsa_signature_load out)) = false /\
    secp256k1_ecdsa_signature_normalize (Some sigout) out = (0, Some out).
Proof.
  cbv zeta. pose proof secp256k1_n_range as Hn.
  destruct (signature_load_range sigin) as [Hr Hs].
  unfold secp256k1_ecdsa_signature_normalize.
  destruct (secp256k1_ecdsa_signature_load sigin) as [r s]. cbn [fst snd] in *.
  destruct (secp256k1_scalar_is_high s) eqn:Hh; cbn [Z.eqb negb fst].
  - destruct (scalar_negate_high s Hs Hh) as (Hneg & Hrange & Hlow).
    split; [left; split; reflexivity|]. split; [reflexivity|].
    eexists. split; [reflexivity|]. split; [apply signature_save_length|].
    rewrite signature_load_save by lia. cbn [snd]. rewrite Hlow. cbn [Z.eqb negb].
    split; [rewrite Hneg; reflexivity|]. split; reflexivity.
  - split; [right; split; reflexivity|]. split; [reflexivity|].
    eexists. split; [reflexivity|]. split; [apply signature_save_length|].
    rewrite signature_load_save by lia. cbn [snd]. rewrite Hh. cbn [Z.eqb negb].
    split; [reflexivity|]. split; reflexivity.
Qed.

(* ----------------------------------------------------------------- *)
(** ** The three signing entry points *)

Section SigningEntryPoints.
Variable C : curve.

Lemma sig_sign_recid_sig ctx sec msg non :
  option_map fst (secp256k1_ecdsa_sig_sign_recid C ctx sec msg non) =
  secp256k1_ecdsa_sig_sign C ctx sec msg non.
Proof.
  unfold secp256k1_ecdsa_sig_sign_recid, secp256k1_ecdsa_sig_sign.
  destruct (secp256k1_scalar_is_zero _); [reflexivity|].
  destruct (secp256k1_scalar_is_zero _); [reflexivity|].
  destruct (secp256k1_scalar_is_high _); reflexivity.
Qed.

Lemma sig_sign_recid_range ctx sec msg non sg recid :
  secp256k1_ecdsa_sig_sign_recid C ctx sec msg non = Some (sg, recid) ->
  0 <= recid <= 3.
Proof.
  unfold secp256k1_ecdsa_sig_sign_recid.
  destruct (secp256k1_scalar_is_zero _); [discriminate|].
  destruct (secp256k1_scalar_is_zero _); [discriminate|].
  destruct (secp256k1_scalar_is_high _), (secp256k1_n <=? _), (Z.odd _);
    intros E; injection E as _ <-; vm_compute; split; discriminate.
Qed.


Lemma sign_compact_loop_signature fuel ctx noncefp msg32 seckey noncedata sec msg :
  forall count ret sg recid,
  secp256k1_ecdsa_sign_compact_loop C fuel ctx noncefp msg32 seckey noncedata sec msg count
    = Some (ret, Some (sg, recid)) ->
  ret <> 0 /\
  exists non, 0 < non < secp256k1_n /\
    secp256k1_ecdsa_sig_sign_recid C (ecmult_gen_ctx ctx) sec msg non = Some (sg, recid).
Proof.
  induction fuel as [|fuel IH]; intros count ret sg recid; [discriminate|].
  cbn [secp256k1_ecdsa_sign_compact_loop].
  destruct (noncefp msg32 seckey count noncedata) as [ret0 nonce32].
  destruct (Z.eqb_spec ret0 0) as [|Hret]; [discriminate|].
  pose proof (scalar_set_b32_range nonce32) as Hnon.
  destruct (secp256k1_scalar_set_b32 nonce32) as [non overflow]. cbn [fst] in Hnon.
  unfold secp256k1_scalar_is_zero.
  destruct (Z.eqb_spec non 0) as [|Hnz]; cbn [negb andb]; [apply IH|].
  destruct overflow; cbn [negb]; [apply IH|].
  destruct (secp256k1_ecdsa_sig_sign_recid C (ecmult_gen_ctx ctx) sec msg non)
    as [[sg0 recid0]|] eqn:Hsg; [|apply IH].
  intros E. assert (ret0 = ret /\ sg0 = sg /\ recid0 = recid) as (-> & -> & ->)
    by (inversion E; auto).
  split; [assumption|]. exists non. split; [lia|assumption].
Qed.

Lemma sig_serialize_capacity size sg :
  0 <= sig_r sg < secp256k1_n -> 0 <= sig_s sg < secp256k1_n -> 72 <= size ->
  fst (fst (secp256k1_ecdsa_sig_serialize size sg)) = 1.
Proof.
  intros Hr Hs Hsize. unfold secp256k1_ecdsa_sig_serialize.
  destruct (der_integer_props (sig_r sg) Hr) as (_ & _ & Hlr).
  destruct (der_integer_props (sig_s sg) Hs) as (_ & _ & Hls).
  cbv zeta.
  destruct (Z.ltb_spec size
              (6 + Z.of_nat (length (der_integer (sig_s sg))) +
               Z.of_nat (length (der_integer (sig_r sg))))); [lia|reflexivity].
Qed.


End SigningEntryPoints.

(** X13: the signature object that
    [secp256k1_ecdsa_signature_parse_compact] leaves behind when parsing
    failed, or when r or s is zero, is never accepted by
    [secp256k1_ecdsa_verify_ex], for any message and any public key. *)
Theorem invalid_compact_never_verifies (C : curve) (debug : bool)
  (input64 msg32 pubkey : list byte) :
  let r := be_combine (firstn 32 input64) in
  let s := be_combine (firstn 32 (skipn 32 input64)) in
  secp256k1_n <= r \/ secp256k1_n <= s \/ r = 0 \/ s = 0 ->
  secp256k1_ecdsa_verify_ex C debug
    (snd (secp256k1_ecdsa_signature_parse_compact input64)) msg32 pubkey <> Some 1.
Proof.
  cbv zeta. intros H. pose proof secp256k1_n_range as Hn.
  pose proof (be_combine_range (firstn 32 input64)) as Hr.
  pose proof (be_combine_range (firstn 32 (skipn 32 input64))) as Hs.
  assert (Hz : forall r s, r = 0 \/ s = 0 ->
               secp256k1_ecdsa_signature_load
                 (snd (secp256k1_ecdsa_signature_parse_compact input64)) = (r, s) ->
               secp256k1_ecdsa_verify_ex C debug
                 (snd (secp256k1_ecdsa_signature_parse_compact input64)) msg32 pubkey
                 <> Some 1).
  { intros r s Hrs Hload. unfold secp256k1_ecdsa_verify_ex. rewrite Hload. cbn [sig_s].
    destruct (negb (secp256k1_scalar_is_high s)); [|discriminate].
    destruct (secp256k1_pubkey_load C debug pubkey) as [[l q]|]; [|discriminate].
    unfold secp256k1_ecdsa_sig_verify, secp256k1_scalar_is_zero. cbn [sig_r sig_s].
    destruct Hrs as [-> | ->]; cbn [Z.eqb orb]; rewrite ?orb_true_r, andb_false_r;
      discriminate. }
  apply (Hz (if (be_combine (firstn 32 input64) <? secp256k1_n) &&
                (be_combine (firstn 32 (skipn 32 input64)) <? secp256k1_n)
             then be_combine (firstn 32 input64) else 0)
            (if (be_combine (firstn 32 input64) <? secp256k1_n) &&
                (be_combine (firstn 32 (skipn 32 input64)) <? secp256k1_n)
             then be_combine (firstn 32 (skipn 32 input64)) else 0)).
  - destruct (Z.ltb_spec (be_combine (firstn 32 input64)) secp256k1_n);
      destruct (Z.ltb_spec (be_combine (firstn 32 (skipn 32 input64))) secp256k1_n);
      cbn [andb]; lia.
  - rewrite signature_parse_compact_eq.
    destruct (Z.ltb_spec (be_combine (firstn 32 input64)) secp256k1_n);
      destruct (Z.ltb_spec (be_combine (firstn 32 (skipn 32 input64))) secp256k1_n);
      cbn [andb snd]; try apply signature_load_zero.
    apply signature_load_save; lia.
Qed.

(** The property at (r, s) = (0, 7). *)
Lemma invalid_compact_never_verifies_witness :
  secp256k1_ecdsa_verify_ex dlog_curve true
    (snd (secp256k1_ecdsa_signature_parse_compact (be_split 32 0 ++ be_split 32 7)))
    (be_split 32 3) (secp256k1_pubkey_save dlog_curve 6) <> Some 1.
Proof.
  apply (invalid_compact_never_verifies dlog_curve true (be_split 32 0 ++ be_split 32 7)).
  right; right; left. vm_compute. reflexivity.
Defined.

(* ----------------------------------------------------------------- *)
(** ** The 64-byte public-key object *)

Lemma skipn_repeat_sub {A} (x : A) k n : skipn k (repeat x n) = repeat x (n - k).
Proof.
  revert n. induction k as [|k IH]; intros n; [rewrite Nat.sub_0_r; reflexivity|].
  destruct n as [|n]; [reflexivity|]. cbn [repeat skipn Nat.sub]. apply IH.
Qed.

Lemma pubkey_save_length (C : curve) a : length (secp256k1_pubkey_save C a) = 64%nat.
Proof.
  unfold secp256k1_pubkey_save, secp256k1_fe_get_b32.
  rewrite length_app, !be_split_length. reflexivity.
Qed.

Section PubkeyObject.
Variable C : curve.
Hypothesis L : curve_laws C.
Hypothesis PL : curve_point_laws C.

Lemma pubkey_load_save debug a :
  ge_is_valid_var C a = true ->
  secp256k1_pubkey_load C debug (secp256k1_pubkey_save C a) = Some (1, a).
Proof.
  intros V. pose proof secp256k1_p_range as Hp.
  pose proof (x_range C L a V) as Hx. pose proof (y_range C L a V) as Hy.
  unfold secp256k1_pubkey_load, secp256k1_pubkey_save, secp256k1_fe_get_b32.
  rewrite firstn_exact_app, skipn_exact_app by apply be_split_length.
  rewrite firstn_all2 by (rewrite be_split_length; apply Nat.le_refl).
  rewrite !be_combine_split_32 by lia.
  rewrite (set_xy_coordinates C L a V).
  destruct (Z.eqb_spec (ge_x C a) 0) as [E|_]; [destruct (x_nonzero C PL a V E)|].
  rewrite andb_false_r. reflexivity.
Qed.

(** X14: a signature made by [secp256k1_ecdsa_sign_ex] is accepted by
    [secp256k1_ecdsa_verify_ex] under the public key that
    [secp256k1_ec_pubkey_create_ex] derives from the same secret key, and
    [secp256k1_ecdsa_signature_normalize] reports it as normalized already. *)
Theorem sign_ex_then_verify_ex (O : rfc6979_hmac_sha256) (fuel : nat)
  (ctx ctx' : secp256k1_context_t C) (debug : bool) (msg32 seckey : list byte)
  (noncefp : option secp256k1_nonce_function_t) (noncedata : option (list byte))
  (ret : Z) (sig64 : list byte) :
  secp256k1_ecmult_gen_context_is_built C (ecmult_gen_ctx ctx) ->
  secp256k1_ecmult_gen_context_is_built C (ecmult_gen_ctx ctx') ->
  secp256k1_ecdsa_sign_ex C O fuel ctx msg32 seckey noncefp noncedata = Some (ret, sig64) ->
  ret <> 0 ->
  exists pubkey,
    secp256k1_ec_pubkey_create_ex C ctx' seckey = (1, pubkey) /\
    secp256k1_ecdsa_verify_ex C debug sig64 msg32 pubkey = Some 1 /\
    fst (secp256k1_ecdsa_signature_normalize None sig64) = 0.
Proof.
  intros Hctx Hctx' Hsign Hret.
  destruct (ecdsa_sign_ex_success C _ _ _ _ _ _ _ _ _ Hsign Hret)
    as (Hd & non & sg & Hnon & Hsg & Hload).
  rewrite (pubkey_create_ex_eq C L _ _ Hctx').
  destruct (Z.ltb_spec 0 (be_combine seckey)); [|lia].
  destruct (Z.ltb_spec (be_combine seckey) secp256k1_n); [|lia]. cbn [andb].
  eexists. split; [reflexivity|].
  destruct (sig_sign_range C _ _ _ _ _ Hsg) as (_ & _ & Hlow).
  unfold secp256k1_ecdsa_verify_ex, secp256k1_ecdsa_signature_normalize.
  rewrite Hload. cbn [sig_s]. rewrite Hlow. cbn [negb fst]. split; [|reflexivity].
  rewrite pubkey_load_save by (apply (g_mul_valid C L); lia). cbn [Z.eqb negb andb].
  replace {| sig_r := sig_r sg; sig_s := sig_s sg |} with sg by (destruct sg; reflexivity).
  unfold secp256k1_scalar_set_b32. cbn [fst].
  rewrite (sig_sign_verify C L _ _ _ _ _ Hctx Hd Hnon Hsg). reflexivity.
Qed.

(** X15: the two ways to a public-key object agree: parsing the output of
    [secp256k1_ec_pubkey_create] with [secp256k1_ec_pubkey_parse] gives the
    object of [secp256k1_ec_pubkey_create_ex], and
    [secp256k1_ec_pubkey_serialize] turns that object back into the bytes
    of [secp256k1_ec_pubkey_create]. *)
Theorem pubkey_create_ex_agrees (ctx ctx' : secp256k1_context_t C) (debug : bool)
  (seckey : list byte) (compressed : Z) (pubkey : list byte) (len : Z) :
  secp256k1_ecmult_gen_context_is_built C (ecmult_gen_ctx ctx) ->
  secp256k1_ecmult_gen_context_is_built C (ecmult_gen_ctx ctx') ->
  secp256k1_ec_pubkey_create C ctx seckey compressed = (1, pubkey, len) ->
  secp256k1_ec_pubkey_parse C pubkey = secp256k1_ec_pubkey_create_ex C ctx' seckey /\
  fst (secp256k1_ec_pubkey_create_ex C ctx' seckey) = 1 /\
  secp256k1_ec_pubkey_serialize C debug len
    (snd (secp256k1_ec_pubkey_create_ex C ctx' seckey))
    (if compressed =? 0 then SECP256K1_EC_UNCOMPRESSED else SECP256K1_EC_COMPRESSED)
  = Some (1, pubkey, len).
Proof.
  intros Hctx Hctx' Hcreate.
  destruct (pubkey_create_success C L _ _ _ _ _ Hctx Hcreate)
    as (Hd & Hser & Hparse & -> & Hlen).
  rewrite (pubkey_create_ex_eq C L _ _ Hctx').
  destruct (Z.ltb_spec 0 (be_combine seckey)); [|lia].
  destruct (Z.ltb_spec (be_combine seckey) secp256k1_n); [|lia]. cbn [andb fst snd].
  unfold secp256k1_ec_pubkey_parse. rewrite Hparse.
  split; [reflexivity|]. split; [reflexivity|].
  assert (V : ge_is_valid_var C (ge_mul C (be_combine seckey) (ge_const_g C)) = true)
    by (apply (g_mul_valid C L); lia).
  unfold secp256k1_ec_pubkey_serialize. rewrite (pubkey_load_save debug _ V).
  rewrite (pubkey_serialize_flag C _ compressed) in Hser.
  rewrite Hlen.
  destruct (compressed =? 0).
  - change (Z.land SECP256K1_EC_UNCOMPRESSED SECP256K1_FLAGS_BIT_COMPRESSION) with 0.
    change (Z.land SECP256K1_EC_UNCOMPRESSED SECP256K1_FLAGS_TYPE_MASK
              =? SECP256K1_FLAGS_TYPE_COMPRESSION) with true.
    cbn [Z.eqb negb Z.of_nat Z.leb Z.compare Pos.compare Pos.compare_cont Pos.of_succ_nat
           Pos.succ andb]. rewrite andb_false_r.
    rewrite Hser, Hlen, skipn_repeat_sub. cbn [Z.to_nat]. 
    replace (Pos.to_nat 65 - 65)%nat with 0%nat by reflexivity.
    cbn [repeat]. rewrite app_nil_r. reflexivity.
  - change (Z.land SECP256K1_EC_COMPRESSED SECP256K1_FLAGS_BIT_COMPRESSION) with 256.
    change (Z.land SECP256K1_EC_COMPRESSED SECP256K1_FLAGS_TYPE_MASK
              =? SECP256K1_FLAGS_TYPE_COMPRESSION) with true.
    cbn [Z.eqb negb Z.of_nat Z.leb Z.compare Pos.compare Pos.compare_cont Pos.of_succ_nat
           Pos.succ andb]. rewrite andb_false_r.
    rewrite (pubkey_serialize_flag C _ 256). cbn [Z.eqb].
    rewrite Hser, Hlen, skipn_repeat_sub. cbn [Z.to_nat].
    replace (Pos.to_nat 33 - 33)%nat with 0%nat by reflexivity.
    cbn [repeat]. rewrite app_nil_r. reflexivity.
Qed.

End PubkeyObject.

(** The property at the key 6 and the message 3, with contexts blinded by 5
    and by 9. *)
Lemma sign_ex_then_verify_ex_witness :
  exists sig64 pubkey,
    secp256k1_ecdsa_sign_ex dlog_curve counting_rng 1 (context_with_blinding dlog_curve 5)
      (be_split 32 3) (be_split 32 6) None None = Some (1, sig64) /\
    secp256k1_ec_pubkey_create_ex dlog_curve (context_with_blinding dlog_curve 9)
      (be_split 32 6) = (1, pubkey) /\
    secp256k1_ecdsa_verify_ex dlog_curve true sig64 (be_split 32 3) pubkey = Some 1.
Proof.
  assert (E : exists sig64,
             secp256k1_ecdsa_sign_ex dlog_curve counting_rng 1
               (context_with_blinding dlog_curve 5) (be_split 32 3) (be_split 32 6)
               None None = Some (1, sig64)) by (eexists; vm_compute; reflexivity).
  destruct E as (sig64 & E).
  destruct (sign_ex_then_verify_ex dlog_curve dlog_curve_laws dlog_curve_point_laws
              counting_rng 1 _ (context_with_blinding dlog_curve 9) true _ _ _ _ _ _
              (context_with_blinding_built dlog_curve 5)
              (context_with_blinding_built dlog_curve 9) E ltac:(discriminate))
    as (pubkey & Hc & Hv & _).
  exists sig64, pubkey. split; [exact E|]. split; [exact Hc|exact Hv].
Defined.

(** The property at the key 6. *)
Lemma pubkey_create_ex_agrees_witness :
  exists pubkey,
    secp256k1_ec_pubkey_create dlog_curve (context_with_blinding dlog_curve 5)
      (be_split 32 6) 1 = (1, pubkey, 33) /\
    secp256k1_ec_pubkey_parse dlog_curve pubkey =
      secp256k1_ec_pubkey_create_ex dlog_curve (context_with_blinding dlog_curve 9)
        (be_split 32 6) /\
    secp256k1_ec_pubkey_serialize dlog_curve true 33
      (snd (secp256k1_ec_pubkey_create_ex dlog_curve (context_with_blinding dlog_curve 9)
              (be_split 32 6))) SECP256K1_EC_COMPRESSED = Some (1, pubkey, 33).
Proof.
  assert (E : exists pubkey,
             secp256k1_ec_pubkey_create dlog_curve (context_with_blinding dlog_curve 5)
               (be_split 32 6) 1 = (1, pubkey, 33)) by (eexists; vm_compute; reflexivity).
  destruct E as (pubkey & E). exists pubkey. split; [exact E|].
  destruct (pubkey_create_ex_agrees dlog_curve dlog_curve_laws dlog_curve_point_laws
              _ (context_with_blinding dlog_curve 9) true _ _ _ _
              (context_with_blinding_built dlog_curve 5)
              (context_with_blinding_built dlog_curve 9) E) as (H1 & _ & H3).
  split; [exact H1|exact H3].
Defined.

(* ----------------------------------------------------------------- *)
(** ** The entry points on byte strings and on objects *)

Section TwoApis.
Variable C : curve.
Hypothesis L : curve_laws C.
Hypothesis PL : curve_point_laws C.

Lemma ec_pubkey_parse_success pub obj :
  secp256k1_ec_pubkey_parse C pub = (1, obj) ->
  exists q, secp256k1_eckey_pubkey_parse C pub = Some q /\
            ge_is_valid_var C q = true /\ obj = secp256k1_pubkey_save C q.
Proof.
  unfold secp256k1_ec_pubkey_parse.
  destruct (secp256k1_eckey_pubkey_parse C pub) as [q|] eqn:P; [|discriminate].
  intros E. exists q. split; [reflexivity|].
  split; [exact (pubkey_parse_valid C L _ _ P)|]. congruence.
Qed.


(** X17: [secp256k1_ec_pubkey_tweak_add] and
    [secp256k1_ec_pubkey_tweak_add_ex] return the same value on a
    serialised key and on the object parsed from it; on success the key
    written parses to the object written, and on failure the serialised key
    is untouched while the object is zeroed. *)
Theorem tweak_add_entry_points_agree (debug verify : bool) (pub obj tweak : list byte) :
  secp256k1_ec_pubkey_parse C pub = (1, obj) ->
  exists ret pub' obj',
    secp256k1_ec_pubkey_tweak_add C verify pub tweak = Some (ret, pub') /\
    secp256k1_ec_pubkey_tweak_add_ex C debug obj tweak = Some (ret, obj') /\
    (ret = 1 \/ ret = 0) /\
    (ret = 1 -> secp256k1_ec_pubkey_parse C pub' = (1, obj')) /\
    (ret = 0 -> pub' = pub /\ obj' = repeat Byte.x00 64).
Proof.
  intros Hparse.
  destruct (ec_pubkey_parse_success _ _ Hparse) as (q & P & V & ->).
  unfold secp256k1_ec_pubkey_tweak_add, secp256k1_ec_pubkey_tweak_add_ex.
  destruct (secp256k1_scalar_set_b32 tweak) as [term overflow] eqn:Ht.
  destruct overflow; cbn [negb].
  { exists 0, pub, (repeat Byte.x00 64). repeat split; auto; discriminate. }
  rewrite P, (pubkey_load_save C L PL debug q V). cbn [Z.eqb negb].
  unfold secp256k1_eckey_pubkey_tweak_add.
  pose proof (scalar_set_b32_range tweak) as Hterm. rewrite Ht in Hterm. cbn [fst] in Hterm.
  assert (Hg : ge_in_group C (secp256k1_ecmult C q 1 term)).
  { unfold secp256k1_ecmult. apply (ge_add_in_group C L);
      apply (ge_mul_in_group C L); auto using valid_in_group with ge_group. }
  destruct (ge_is_infinity C (secp256k1_ecmult C q 1 term)) eqn:Hinf; cbn [Z.eqb negb].
  { exists 0, pub, (repeat Byte.x00 64). repeat split; auto; discriminate. }
  assert (V' : ge_is_valid_var C (secp256k1_ecmult C q 1 term) = true).
  { apply (not_infinity_valid C L); [exact Hg|]. intros E.
    apply (is_infinity_spec C L) in E. congruence. }
  destruct (pubkey_serialize_valid C L _
              (if Z.of_nat (length pub) <=? 33 then 1 else 0) V') as (out & Hser & Hp & _).
  rewrite Hser.
  rewrite (pubkey_reserialize_length C _ _ _ _ P Hser), Z.eqb_refl, andb_false_r.
  exists 1, out, (secp256k1_pubkey_save C (secp256k1_ecmult C q 1 term)).
  repeat split; auto; try discriminate.
  unfold secp256k1_ec_pubkey_parse. rewrite Hp. reflexivity.
Qed.

End TwoApis.


(** The property at the public key of 6 and the tweak 4. *)
Lemma tweak_add_entry_points_agree_witness :
  exists obj ret pub' obj',
    secp256k1_ec_pubkey_parse dlog_curve (Byte.x02 :: be_split 32 6) = (1, obj) /\
    secp256k1_ec_pubkey_tweak_add dlog_curve true (Byte.x02 :: be_split 32 6)
      (be_split 32 4) = Some (ret, pub') /\
    secp256k1_ec_pubkey_tweak_add_ex dlog_curve true obj (be_split 32 4)
      = Some (ret, obj') /\
    (ret = 1 -> secp256k1_ec_pubkey_parse dlog_curve pub' = (1, obj')).
Proof.
  assert (P : exists obj,
             secp256k1_ec_pubkey_parse dlog_curve (Byte.x02 :: be_split 32 6) = (1, obj))
    by (eexists; vm_compute; reflexivity).
  destruct P as (obj & P).
  destruct (tweak_add_entry_points_agree dlog_curve dlog_curve_laws dlog_curve_point_laws
              true true _ _ (be_split 32 4) P) as (ret & pub' & obj' & H1 & H2 & _ & H3 & _).
  exists obj, ret, pub', obj'. repeat split; assumption.
Defined.

(* ----------------------------------------------------------------- *)
(** ** Multiples by arbitrary integers *)

Section IntegerMultiples.
Variable C : curve.
Hypothesis L : curve_laws C.

Lemma add_cancel_r x y a :
  ge_in_group C x -> ge_in_group C y -> ge_in_group C a ->
  ge_add C x a = ge_add C y a -> x = y.
Proof.
  intros Hx Hy Ha E.
  rewrite <- (add_infinity_r C L x Hx), <- (add_infinity_r C L y Hy).
  rewrite <- (add_neg_r C L a Ha).
  rewrite !(add_assoc C L) by auto with ge_group. rewrite E. reflexivity.
Qed.

Lemma add_shuffle a b c d :
  ge_in_group C a -> ge_in_group C b -> ge_in_group C c -> ge_in_group C d ->
  ge_add C (ge_add C a b) (ge_add C c d) = ge_add C (ge_add C a c) (ge_add C b d).
Proof.
  intros Ha Hb Hc Hd.
  rewrite <- (add_assoc C L a b) by auto with ge_group.
  rewrite (add_assoc C L b c d) by auto with ge_group.
  rewrite (add_comm C L b c) by auto with ge_group.
  rewrite <- (add_assoc C L c b d) by auto with ge_group.
  rewrite (add_assoc C L a c) by auto with ge_group. reflexivity.
Qed.

Lemma ge_mul_succ k a :
  ge_in_group C a -> ge_mul C (k + 1) a = ge_add C (ge_mul C k a) a.
Proof.
  intros Ha. destruct (Z.le_gt_cases 0 k) as [H|H].
  - rewrite (ge_mul_add C L) by (assumption || lia).
    rewrite (ge_mul_1 C) by assumption. reflexivity.
  - replace (k + 1) with (- (- k - 1)) by ring.
    replace k with (- (- k - 1 + 1)) at 2 by ring.
    rewrite !(ge_mul_opp C L) by assumption.
    rewrite (ge_mul_add C L (- k - 1) 1) by (assumption || lia).
    rewrite (ge_mul_1 C) by assumption.
    assert (Hm : ge_in_group C (ge_mul C (- k - 1) a)) by (apply (ge_mul_in_group C L); assumption).
    rewrite (neg_add C L) by assumption.
    rewrite <- (add_assoc C L) by auto with ge_group.
    rewrite (add_neg_l C L) by assumption.
    symmetry. apply (add_infinity_r C L). auto with ge_group.
Qed.

Lemma ge_mul_add_Z j k a :
  ge_in_group C a -> ge_mul C (j + k) a = ge_add C (ge_mul C j a) (ge_mul C k a).
Proof.
  intros Ha. pattern k. apply Z.bi_induction.
  - intros x y ->. reflexivity.
  - rewrite Z.add_0_r. cbn [ge_mul]. symmetry. apply (add_infinity_r C L).
    apply (ge_mul_in_group C L). assumption.
  - intros m. unfold Z.succ. rewrite Z.add_assoc, !ge_mul_succ by assumption.
    assert (Hj : ge_in_group C (ge_mul C j a)) by (apply (ge_mul_in_group C L); assumption).
    assert (Hm : ge_in_group C (ge_mul C m a)) by (apply (ge_mul_in_group C L); assumption).
    assert (Hjm : ge_in_group C (ge_mul C (j + m) a))
      by (apply (ge_mul_in_group C L); assumption).
    rewrite (add_assoc C L) by assumption.
    split; [intros ->; reflexivity|].
    apply add_cancel_r; auto with ge_group.
Qed.

Lemma ge_mul_mul_Z j k a :
  ge_in_group C a -> ge_mul C (j * k) a = ge_mul C j (ge_mul C k a).
Proof.
  intros Ha.
  assert (Hk : ge_in_group C (ge_mul C k a)) by (apply (ge_mul_in_group C L); assumption).
  pattern j. apply Z.bi_induction.
  - intros x y ->. reflexivity.
  - reflexivity.
  - intros m. unfold Z.succ. rewrite Z.mul_add_distr_r, Z.mul_1_l.
    rewrite ge_mul_add_Z, ge_mul_succ by assumption.
    split; [intros ->; reflexivity|].
    apply add_cancel_r; auto; apply (ge_mul_in_group C L); assumption.
Qed.

Lemma ge_mul_infinity_Z k : ge_mul C k (ge_infinity C) = ge_infinity C.
Proof.
  destruct (Z.le_gt_cases 0 k) as [H|H]; [apply (ge_mul_infinity C L); exact H|].
  replace k with (- - k) by ring.
  rewrite (ge_mul_opp C L) by auto with ge_group.
  rewrite (ge_mul_infinity C L) by lia. apply (neg_infinity C L).
Qed.

Hypothesis PL : curve_point_laws C.

Lemma ge_mul_mod_Z k a :
  ge_in_group C a -> ge_mul C (k mod secp256k1_n) a = ge_mul C k a.
Proof.
  intros Ha. pose proof secp256k1_n_range as Hn.
  rewrite (Z.div_mod k secp256k1_n) at 2 by lia.
  rewrite ge_mul_add_Z by assumption.
  rewrite (Z.mul_comm secp256k1_n), ge_mul_mul_Z by assumption.
  rewrite (mul_order C PL a Ha), ge_mul_infinity_Z.
  symmetry. apply (add_infinity_l C L). apply (ge_mul_in_group C L). assumption.
Qed.

Lemma ge_mul_eq_infinity k a :
  ge_is_valid_var C a = true ->
  (ge_mul C k a = ge_infinity C <-> k mod secp256k1_n = 0).
Proof.
  intros V. pose proof secp256k1_n_range as Hn.
  pose proof (valid_in_group C a V) as Ha.
  rewrite <- (ge_mul_mod_Z k a Ha).
  pose proof (scalar_mod_range k) as Hr.
  split.
  - intros E. destruct (Z.eq_dec (k mod secp256k1_n) 0) as [|Hnz]; [assumption|].
    pose proof (ge_mul_not_infinity C L PL (k mod secp256k1_n) a V ltac:(lia)) as V'.
    rewrite E, (infinity_not_valid C L) in V'. discriminate.
  - intros ->. reflexivity.
Qed.

End IntegerMultiples.

(* ----------------------------------------------------------------- *)
(** ** Commitments, blinding sums and the tally together *)

Lemma blind_sum_eq (blind_out : list byte) (blinds : list (list byte)) (npositive : Z) :
  Forall (fun b => be_combine b < secp256k1_n) blinds ->
  secp256k1_pedersen_blind_sum blind_out blinds npositive =
  (1, secp256k1_scalar_get_b32
        (blind_sum_spec (map be_combine blinds) npositive mod secp256k1_n)).
Proof.
  pose proof secp256k1_n_range as Hn.
  unfold secp256k1_pedersen_blind_sum, secp256k1_scalar_set_int.
  intros HF. unfold blind_sum_spec.
  rewrite <- (Z.sub_0_r npositive) at 2 3.
  rewrite <- signed_sum_from_spec by lia.
  rewrite Z.mod_0_l by lia.
  destruct (blind_sum_loop_ok npositive blinds 0 0 HF) as [E|[-> E]]; rewrite E; reflexivity.
Qed.

Section Commitments.
Variable C : curve.
Hypothesis L : curve_laws C.
Hypothesis PL : curve_point_laws C.

Local Abbreviation gh x y :=
  (ge_add C (ge_mul C x (ge_const_g C)) (ge_mul C y (ge_const_g2 C))).

Lemma gh_in_group x y : ge_in_group C (gh x y).
Proof. apply (ge_add_in_group C L); apply (ge_mul_in_group C L); auto with ge_group. Qed.

Lemma gh_add x y x' y' : ge_add C (gh x y) (gh x' y') = gh (x + x') (y + y').
Proof.
  rewrite (add_shuffle C L) by (apply (ge_mul_in_group C L); auto with ge_group).
  rewrite <- !(ge_mul_add_Z C L) by auto with ge_group. reflexivity.
Qed.

Lemma gh_neg x y : ge_neg C (gh x y) = gh (- x) (- y).
Proof.
  rewrite (neg_add C L) by (apply (ge_mul_in_group C L); auto with ge_group).
  rewrite <- !(ge_mul_opp C L) by auto with ge_group. reflexivity.
Qed.

Lemma gh_h y : ge_mul C y (ge_const_g2 C) = gh 0 y.
Proof.
  cbn [ge_mul]. symmetry. apply (add_infinity_l C L).
  apply (ge_mul_in_group C L). auto with ge_group.
Qed.

Lemma gh_sum (l : list (list byte * Z)) :
  ge_sum C (map (fun bv => gh (be_combine (fst bv)) (snd bv)) l) =
  gh (fold_right Z.add 0 (map be_combine (map fst l))) (fold_right Z.add 0 (map snd l)).
Proof.
  induction l as [|bv l IH]; cbn [map ge_sum fold_right].
  - cbn [ge_mul]. symmetry. apply (add_infinity_l C L). auto with ge_group.
  - fold (ge_sum C (map (fun bv => gh (be_combine (fst bv)) (snd bv)) l)).
    rewrite IH, gh_add. reflexivity.
Qed.

Lemma pedersen_commit_success ctx buf blind value c :
  secp256k1_ecmult_gen_context_is_built C (ecmult_gen_ctx ctx) ->
  secp256k1_pedersen_commit C ctx buf blind value = (1, c) ->
  be_combine blind < secp256k1_n /\
  secp256k1_eckey_pubkey_parse C (firstn 33 c) = Some (gh (be_combine blind) value).
Proof.
  intros Hctx. pose proof secp256k1_n_range as Hn.
  pose proof (be_combine_range blind) as Hb.
  unfold secp256k1_pedersen_commit, secp256k1_scalar_set_b32, secp256k1_ecmult_gen_gen2.
  destruct (Z.leb_spec secp256k1_n (be_combine blind)) as [|Hlt]; cbn [negb];
    [discriminate|].
  rewrite Z.mod_small by lia.
  rewrite (ecmult_gen_spec C L) by (assumption || lia).
  destruct (ge_is_infinity C (gh (be_combine blind) value)) eqn:Hinf; cbn [negb];
    [discriminate|].
  destruct (secp256k1_eckey_pubkey_serialize C _ 1) as [out|] eqn:Hser; [|discriminate].
  intros E. assert (out = c) as -> by congruence.
  split; [exact Hlt|].
  assert (V : ge_is_valid_var C (gh (be_combine blind) value) = true).
  { apply (not_infinity_valid C L); [apply gh_in_group|]. intros E'.
    apply (is_infinity_spec C L) in E'. congruence. }
  rewrite firstn_all2
    by (rewrite (proj1 (proj2 (pubkey_serialize_length C _ _ _ Hser))); apply Nat.le_refl).
  exact (pubkey_serialize_parse C L _ _ _ V Hser).
Qed.

Lemma pedersen_commits_parse ctx (l : list (list byte * Z)) (cs : list (list byte)) :
  secp256k1_ecmult_gen_context_is_built C (ecmult_gen_ctx ctx) ->
  Forall2 (fun bv c => secp256k1_pedersen_commit C ctx [] (fst bv) (snd bv) = (1, c)) l cs ->
  Forall (fun b => be_combine b < secp256k1_n) (map fst l) /\
  Forall2 (fun c p => secp256k1_eckey_pubkey_parse C (firstn 33 c) = Some p) cs
    (map (fun bv => gh (be_combine (fst bv)) (snd bv)) l).
Proof.
  intros Hctx HF. induction HF as [|bv c l cs H HF IH]; cbn [map].
  - split; constructor.
  - destruct (pedersen_commit_success _ _ _ _ _ Hctx H) as [Hb Hp].
    destruct IH as [IH1 IH2]. split; constructor; assumption.
Qed.

(** X18: commitments made by [secp256k1_pedersen_commit] whose blinding
    factors sum to zero according to [secp256k1_pedersen_blind_sum] pass
    [secp256k1_pedersen_verify_tally] exactly when the excess equals the
    sum of the positive values minus the sum of the negative values modulo
    n, and fail it otherwise. *)
Theorem pedersen_tally_of_commitments (ctx : secp256k1_context_t C)
  (pos neg : list (list byte * Z)) (cpos cneg : list (list byte)) (excess : Z)
  (blind_out : list byte) :
  secp256k1_ecmult_gen_context_is_built C (ecmult_gen_ctx ctx) ->
  Forall2 (fun bv c => secp256k1_pedersen_commit C ctx [] (fst bv) (snd bv) = (1, c))
    pos cpos ->
  Forall2 (fun bv c => secp256k1_pedersen_commit C ctx [] (fst bv) (snd bv) = (1, c))
    neg cneg ->
  secp256k1_pedersen_blind_sum blind_out (map fst pos ++ map fst neg)
    (Z.of_nat (length pos)) = (1, be_split 32 0) ->
  let total := fold_right Z.add 0 (map snd pos) - fold_right Z.add 0 (map snd neg) in
  (secp256k1_pedersen_verify_tally C cpos cneg excess = 1 <->
   (total - excess) mod secp256k1_n = 0) /\
  (secp256k1_pedersen_verify_tally C cpos cneg excess = 0 <->
   (total - excess) mod secp256k1_n <> 0) /\
  secp256k1_pedersen_verify_tally C cpos cneg total = 1.
Proof.
  intros Hctx Hpos Hneg Hsum total. pose proof secp256k1_n_range as Hn.
  destruct (pedersen_commits_parse ctx pos cpos Hctx Hpos) as [Bpos Ppos].
  destruct (pedersen_commits_parse ctx neg cneg Hctx Hneg) as [Bneg Pneg].
  (* the blinding factors cancel *)
  set (Bp := fold_right Z.add 0 (map be_combine (map fst pos))).
  set (Bn := fold_right Z.add 0 (map be_combine (map fst neg))).
  assert (HB : (Bp - Bn) mod secp256k1_n = 0).
  { rewrite blind_sum_eq in Hsum by (apply Forall_app; split; assumption).
    assert (E : be_combine (secp256k1_scalar_get_b32
                  (blind_sum_spec (map be_combine (map fst pos ++ map fst neg))
                     (Z.of_nat (length pos)) mod secp256k1_n)) = be_combine (be_split 32 0))
      by congruence.
    unfold secp256k1_scalar_get_b32 in E.
    pose proof (scalar_mod_range (blind_sum_spec (map be_combine (map fst pos ++ map fst neg))
                                    (Z.of_nat (length pos)))).
    rewrite !be_combine_split_32 in E by lia.
    unfold blind_sum_spec in E. rewrite Nat2Z.id, map_app in E.
    rewrite firstn_exact_app, skipn_exact_app in E by (rewrite !length_map; reflexivity).
    exact E. }
  (* the value of the tally *)
  assert (Ht : forall e,
             secp256k1_pedersen_verify_tally C cpos cneg e =
             if ge_is_infinity C (ge_mul C (total - e) (ge_const_g2 C)) then 1 else 0).
  { intros e. unfold secp256k1_pedersen_verify_tally. cbv zeta.
    rewrite tally_excess.
    assert (HE : ge_in_group C (ge_mul C e (ge_const_g2 C)))
      by (apply (ge_mul_in_group C L); auto with ge_group).
    destruct (tally_loop_sum C L cneg _ _ Pneg HE) as [_ ->].
    rewrite gh_sum. fold Bn. rewrite (gh_h e), gh_add, gh_neg.
    match goal with |- context [secp256k1_pedersen_tally_loop C cpos ?acc] =>
      destruct (tally_loop_sum C L cpos _ acc Ppos (gh_in_group _ _)) as [_ ->] end.
    rewrite gh_sum. fold Bp. rewrite gh_add.
    replace (- (0 + Bn) + Bp) with (Bp - Bn) by ring.
    replace (- (e + fold_right Z.add 0 (map snd neg)) + fold_right Z.add 0 (map snd pos))
      with (total - e) by (subst total; ring).
    rewrite <- (ge_mul_mod_Z C L PL (Bp - Bn)) by auto with ge_group.
    rewrite HB. cbn [ge_mul].
    rewrite (add_infinity_l C L)
      by (apply (ge_mul_in_group C L); auto with ge_group).
    reflexivity. }
  assert (Hi : forall e, ge_is_infinity C (ge_mul C (total - e) (ge_const_g2 C)) = true <->
                         (total - e) mod secp256k1_n = 0).
  { intros e. rewrite (is_infinity_spec C L).
    apply (ge_mul_eq_infinity C L PL). apply (g2_valid C L). }
  rewrite !Ht. split; [|split].
  - rewrite <- Hi. destruct (ge_is_infinity C _); split; congruence.
  - rewrite <- Hi. destruct (ge_is_infinity C _); split; congruence.
  - rewrite (proj2 (Hi total)); [reflexivity|]. rewrite Z.sub_diag. apply Z.mod_0_l. lia.
Qed.

End Commitments.

(** Two inputs of value 10 and 5 under the blinding factors 3 and 4, one
    output of value 12 under the factor 7: the excess 3 balances, 4 does
    not. *)
Lemma pedersen_tally_of_commitments_witness :
  let ctx := context_with_blinding dlog_curve 5 in
  let c1 := snd (secp256k1_pedersen_commit dlog_curve ctx [] (be_split 32 3) 10) in
  let c2 := snd (secp256k1_pedersen_commit dlog_curve ctx [] (be_split 32 4) 5) in
  let c3 := snd (secp256k1_pedersen_commit dlog_curve ctx [] (be_split 32 7) 12) in
  secp256k1_pedersen_verify_tally dlog_curve [c1; c2] [c3] 3 = 1 /\
  secp256k1_pedersen_verify_tally dlog_curve [c1; c2] [c3] 4 = 0.
Proof.
  cbv zeta.
  assert (Hpos : Forall2
                   (fun bv c => secp256k1_pedersen_commit dlog_curve
                                  (context_with_blinding dlog_curve 5) [] (fst bv) (snd bv)
                                = (1, c))
                   [(be_split 32 3, 10); (be_split 32 4, 5)]
                   [snd (secp256k1_pedersen_commit dlog_curve
                           (context_with_blinding dlog_curve 5) [] (be_split 32 3) 10);
                    snd (secp256k1_pedersen_commit dlog_curve
                           (context_with_blinding dlog_curve 5) [] (be_split 32 4) 5)]).
  { constructor; [vm_compute; reflexivity|].
    constructor; [vm_compute; reflexivity|constructor]. }
  assert (Hneg : Forall2
                   (fun bv c => secp256k1_pedersen_commit dlog_curve
                                  (context_with_blinding dlog_curve 5) [] (fst bv) (snd bv)
                                = (1, c))
                   [(be_split 32 7, 12)]
                   [snd (secp256k1_pedersen_commit dlog_curve
                           (context_with_blinding dlog_curve 5) [] (be_split 32 7) 12)]).
  { constructor; [vm_compute; reflexivity|constructor]. }
  assert (Hsum : secp256k1_pedersen_blind_sum []
                   (map fst [(be_split 32 3, 10); (be_split 32 4, 5)] ++
                    map fst [(be_split 32 7, 12)])
                   (Z.of_nat (length [(be_split 32 3, 10); (be_split 32 4, 5)]))
                 = (1, be_split 32 0)) by (vm_compute; reflexivity).
  pose proof (pedersen_tally_of_commitments dlog_curve dlog_curve_laws dlog_curve_point_laws
                _ _ _ _ _ 3 _ (context_with_blinding_built dlog_curve 5) Hpos Hneg Hsum)
    as (H3 & _ & _).
  pose proof (pedersen_tally_of_commitments dlog_curve dlog_curve_laws dlog_curve_point_laws
                _ _ _ _ _ 4 _ (context_with_blinding_built dlog_curve 5) Hpos Hneg Hsum)
    as (_ & H4 & _).
  split; [apply H3; vm_compute; reflexivity|apply H4; vm_compute; discriminate].
Defined.

(* ----------------------------------------------------------------- *)
(** ** Public-key recovery *)

Lemma recover_algebra (k kinv d m r rn s : Z) (flip : bool) :
  (kinv * k) mod secp256k1_n = 1 ->
  (rn * r) mod secp256k1_n = 1 ->
  s mod secp256k1_n =
    ((if flip then - (1) else 1) *
     secp256k1_scalar_mul kinv (secp256k1_scalar_add (secp256k1_scalar_mul r d) m))
    mod secp256k1_n ->
  (secp256k1_scalar_mul rn s * ((if flip then - (1) else 1) * k) +
   secp256k1_scalar_negate (secp256k1_scalar_mul rn m)) mod secp256k1_n =
  d mod secp256k1_n.
Proof.
  unfold secp256k1_scalar_mul, secp256k1_scalar_add, secp256k1_scalar_negate.
  intros Hk Hr Hs0.
  pose proof secp256k1_n_prime as Hp.
  apply Zmod.of_Z_inj in Hs0. apply Zmod.of_Z_inj.
  assert (Hk' : (Zmod.of_Z secp256k1_n kinv * Zmod.of_Z secp256k1_n k = Zmod.one)%Zmod).
  { rewrite <- Zmod.of_Z_mul, <- Zmod.of_Z_mod, Hk. apply Zmod.of_Z_1. }
  assert (Hr' : (Zmod.of_Z secp256k1_n rn * Zmod.of_Z secp256k1_n r = Zmod.one)%Zmod).
  { rewrite <- Zmod.of_Z_mul, <- Zmod.of_Z_mod, Hr. apply Zmod.of_Z_1. }
  repeat (rewrite ?Zmod.of_Z_add, ?Zmod.of_Z_mul, ?Zmod.of_Z_mod, ?Zmod.of_Z_opp in Hs0).
  repeat (rewrite ?Zmod.of_Z_add, ?Zmod.of_Z_mul, ?Zmod.of_Z_mod, ?Zmod.of_Z_opp).
  destruct flip.
  - rewrite ?Zmod.of_Z_opp, Zmod.of_Z_1 in *. nsatz.
  - rewrite Zmod.of_Z_1 in *. nsatz.
Qed.


Section Recovery.
Variable C : curve.
Hypothesis L : curve_laws C.
Hypothesis PL : curve_point_laws C.

Lemma recid_bits (over odd flip : bool) :
  let recid := Z.lor (if over then 2 else 0) (if odd then 1 else 0) in
  let recid' := if flip then Z.lxor recid 1 else recid in
  Z.testbit recid' 1 = over /\ Z.testbit recid' 0 = xorb odd flip.
Proof. destruct over, odd, flip; split; reflexivity. Qed.

Lemma sig_recover_sign ctx d m k sg recid :
  secp256k1_ecmult_gen_context_is_built C ctx ->
  0 < d < secp256k1_n -> 0 < k < secp256k1_n ->
  secp256k1_ecdsa_sig_sign_recid C ctx d m k = Some (sg, recid) ->
  secp256k1_ecdsa_sig_recover C sg m recid = Some (ge_mul C d (ge_const_g C)).
Proof.
  intros Hctx Hd Hk Hsign.
  pose proof secp256k1_n_range as Hn. pose proof secp256k1_p_range as Hp.
  pose proof secp256k1_n_lt_p as Hnp.
  pose proof (sig_sign_recid_sig C ctx d m k) as Hsg. rewrite Hsign in Hsg.
  cbn [option_map fst] in Hsg. symmetry in Hsg.
  destruct (sig_sign_range C _ _ _ _ _ Hsg) as (Hr & Hs & _).
  revert Hsign. unfold secp256k1_ecdsa_sig_sign_recid.
  rewrite (ecmult_gen_spec C L ctx k Hctx) by lia.
  set (R := ge_mul C k (ge_const_g C)).
  assert (VR : ge_is_valid_var C R = true) by (apply (g_mul_valid C L); lia).
  pose proof (x_range C L R VR) as Hx.
  set (r := ge_x C R mod secp256k1_n).
  set (s0 := secp256k1_scalar_mul (secp256k1_scalar_inverse k) _).
  destruct (secp256k1_scalar_is_zero r); [discriminate|].
  destruct (secp256k1_scalar_is_zero s0); [discriminate|].
  assert (Hki : (secp256k1_scalar_inverse k * k) mod secp256k1_n = 1)
    by (apply scalar_inverse_spec; rewrite Z.mod_small; lia).
  intros Hsign.
  assert (Hflip : exists flip : bool,
             sg = {| sig_r := r;
                     sig_s := if flip then secp256k1_scalar_negate s0 else s0 |} /\
             recid = (if flip
                      then Z.lxor (Z.lor (if secp256k1_n <=? ge_x C R then 2 else 0)
                                         (if Z.odd (ge_y C R) then 1 else 0)) 1
                      else Z.lor (if secp256k1_n <=? ge_x C R then 2 else 0)
                                 (if Z.odd (ge_y C R) then 1 else 0))).
  { destruct (secp256k1_scalar_is_high s0); [exists true|exists false]; split; congruence. }
  destruct Hflip as (flip & -> & ->). cbn [sig_r sig_s] in *.
  destruct (recid_bits (secp256k1_n <=? ge_x C R) (Z.odd (ge_y C R)) flip) as [Hb1 Hb0].
  cbv zeta in Hb1, Hb0.
  unfold secp256k1_ecdsa_sig_recover. cbn [sig_r sig_s]. rewrite Hb1, Hb0.
  (* the candidate x coordinate is that of R *)
  assert (Hbrx : r + (if secp256k1_n <=? ge_x C R then secp256k1_n else 0) = ge_x C R).
  { subst r. destruct (Z.leb_spec secp256k1_n (ge_x C R)).
    - replace (ge_x C R) with ((ge_x C R - secp256k1_n) + 1 * secp256k1_n) at 1 by ring.
      rewrite Z.mod_add, Z.mod_small by lia. ring.
    - rewrite Z.mod_small by lia. ring. }
  rewrite Hbrx. destruct (Z.leb_spec secp256k1_p (ge_x C R)); [lia|].
  (* the point decompressed is R or its negation *)
  set (k' := if flip then secp256k1_n - k else k).
  assert (Hxo : ge_set_xo_var C (ge_x C R) (xorb (Z.odd (ge_y C R)) flip) =
                Some (ge_mul C k' (ge_const_g C))).
  { subst k'. destruct flip.
    - rewrite (g_mul_neg C L) by lia. fold R.
      assert (VN : ge_is_valid_var C (ge_neg C R) = true).
      { unfold R. rewrite <- (g_mul_neg C L) by lia. apply (g_mul_valid C L). lia. }
      rewrite xorb_true_r, <- (y_neg_parity C PL R VR), <- (x_neg C L R VR).
      apply (set_xo_coordinates C L _ VN).
    - rewrite xorb_false_r. apply (set_xo_coordinates C L R VR). }
  rewrite Hxo.
  set (rn := secp256k1_scalar_inverse r).
  assert (Hri : (rn * r) mod secp256k1_n = 1)
    by (apply scalar_inverse_spec; rewrite Z.mod_small; lia).
  set (s := if flip then secp256k1_scalar_negate s0 else s0) in *.
  set (u1 := secp256k1_scalar_negate (secp256k1_scalar_mul rn m)).
  set (u2 := secp256k1_scalar_mul rn s).
  assert (Hu1 : 0 <= u1 < secp256k1_n) by apply scalar_mod_range.
  assert (Hu2 : 0 <= u2 < secp256k1_n) by apply scalar_mod_range.
  assert (Hk' : 0 < k' < secp256k1_n) by (subst k'; destruct flip; lia).
  assert (Hq : secp256k1_ecmult C (ge_mul C k' (ge_const_g C)) u2 u1 =
               ge_mul C d (ge_const_g C)).
  { unfold secp256k1_ecmult.
    rewrite <- (ge_mul_mul C L) by (auto with ge_group; lia).
    rewrite <- (ge_mul_add C L) by (auto with ge_group; nia).
    rewrite <- (g_mul_mod C L) by nia. f_equal.
    transitivity (d mod secp256k1_n); [|apply Z.mod_small; lia].
    rewrite <- (recover_algebra k (secp256k1_scalar_inverse k) d m r rn s flip Hki Hri).
    - subst k' u1 u2. destruct flip; [|rewrite Z.mul_1_l; reflexivity].
      replace (secp256k1_scalar_mul rn s * (secp256k1_n - k) +
               secp256k1_scalar_negate (secp256k1_scalar_mul rn m))
        with (secp256k1_scalar_mul rn s * (- (1) * k) +
              secp256k1_scalar_negate (secp256k1_scalar_mul rn m) +
              secp256k1_scalar_mul rn s * secp256k1_n) by ring.
      apply Z.mod_add. lia.
    - subst s. destruct flip.
      + unfold secp256k1_scalar_negate. rewrite Z.mod_mod by lia.
        f_equal; try (fold s0; ring).
      + fold s0. rewrite Z.mul_1_l. reflexivity. }
  rewrite Hq.
  rewrite (valid_not_infinity C L) by (apply (g_mul_valid C L); lia). reflexivity.
Qed.

(** X19: [secp256k1_ecdsa_recover_compact] inverts
    [secp256k1_ecdsa_sign_compact]: from the 64 bytes and the recovery id
    of a signature it returns what [secp256k1_ec_pubkey_create] returns for
    the signing key, with the result 1; the recovery id lies in 0..3. *)
Theorem recover_compact_inverse (O : rfc6979_hmac_sha256) (fuel : nat)
  (ctx ctx' : secp256k1_context_t C) (debug : bool) (msg32 seckey : list byte)
  (noncefp : option secp256k1_nonce_function_t) (noncedata : option (list byte))
  (ret : Z) (sig64 : list byte) (recid : Z) (pubkey : list byte)
  (pubkeylen compressed : Z) :
  secp256k1_ecmult_gen_context_is_built C (ecmult_gen_ctx ctx) ->
  secp256k1_ecmult_gen_context_is_built C (ecmult_gen_ctx ctx') ->
  secp256k1_ecdsa_sign_compact C O fuel ctx msg32 seckey noncefp noncedata
    = Some (ret, sig64, Some recid) ->
  ret <> 0 ->
  0 <= recid <= 3 /\
  secp256k1_ecdsa_recover_compact C debug msg32 sig64 pubkey pubkeylen compressed recid
    = Some (secp256k1_ec_pubkey_create C ctx' seckey compressed) /\
  fst (fst (secp256k1_ec_pubkey_create C ctx' seckey compressed)) = 1.
Proof.
  intros Hctx Hctx' Hsign Hret. pose proof secp256k1_n_range as Hn.
  pose proof (be_combine_range seckey) as Hk.
  revert Hsign.
  unfold secp256k1_ecdsa_sign_compact, secp256k1_scalar_set_b32, secp256k1_scalar_is_zero.
  cbn [fst].
  destruct (Z.leb_spec secp256k1_n (be_combine seckey)) as [|Hlt]; cbn [negb andb];
    [discriminate|].
  rewrite (Z.mod_small (be_combine seckey)) by lia.
  destruct (Z.eqb_spec (be_combine seckey) 0) as [|Hnz]; cbn [negb]; [discriminate|].
  destruct (secp256k1_ecdsa_sign_compact_loop _ _ _ _ _ _ _ _ _ _)
    as [[ret0 [[sg recid0]|]]|] eqn:Hloop; [| discriminate | discriminate].
  destruct (sign_compact_loop_signature C _ _ _ _ _ _ _ _ _ _ _ _ Hloop)
    as (Hret0 & non & Hnon & Hsg).
  destruct (Z.eqb_spec ret0 0); [contradiction|]. cbn [negb].
  intros E.
  assert (sig64 = secp256k1_scalar_get_b32 (sig_r sg) ++ secp256k1_scalar_get_b32 (sig_s sg)
          /\ recid0 = recid) as [-> ->] by (inversion E; auto).
  clear E.
  pose proof (sig_sign_recid_range C _ _ _ _ _ _ Hsg) as Hrecid.
  split; [exact Hrecid|].
  pose proof (sig_sign_recid_sig C (ecmult_gen_ctx ctx) (be_combine seckey)
                (be_combine msg32 mod secp256k1_n) non) as Hs.
  rewrite Hsg in Hs. cbn [option_map fst] in Hs. symmetry in Hs.
  destruct (sig_sign_range C _ _ _ _ _ Hs) as (Hr & Hs' & _).
  unfold secp256k1_ecdsa_recover_compact.
  destruct (Z.leb_spec 0 recid); [|lia]. destruct (Z.leb_spec recid 3); [|lia].
  cbn [andb negb]. rewrite andb_false_r.
  rewrite firstn_exact_app, skipn_exact_app
    by (unfold secp256k1_scalar_get_b32; apply be_split_length).
  rewrite firstn_all2
    by (unfold secp256k1_scalar_get_b32; rewrite be_split_length; apply Nat.le_refl).
  rewrite !scalar_set_get_b32 by lia. cbn [negb].
  replace {| sig_r := sig_r sg; sig_s := sig_s sg |} with sg by (destruct sg; reflexivity).
  unfold secp256k1_scalar_set_b32. cbn [fst].
  assert (Hd : 0 < be_combine seckey < secp256k1_n) by lia.
  rewrite (sig_recover_sign _ _ _ _ _ _ Hctx Hd Hnon Hsg).
  rewrite (pubkey_create_eq C L _ _ _ Hctx').
  destruct (Z.ltb_spec 0 (be_combine seckey)); [|lia].
  destruct (Z.ltb_spec (be_combine seckey) secp256k1_n); [|lia]. cbn [andb].
  destruct (pubkey_serialize_valid C L _ compressed
              (g_mul_valid C L (be_combine seckey) Hd)) as (pub & E & _).
  rewrite E. split; reflexivity.
Qed.

End Recovery.

(** The property at the key 6 and the message 3. *)
Lemma recover_compact_inverse_witness :
  exists sig64 recid,
    secp256k1_ecdsa_sign_compact dlog_curve counting_rng 1
      (context_with_blinding dlog_curve 5) (be_split 32 3) (be_split 32 6) None None
      = Some (1, sig64, Some recid) /\
    secp256k1_ecdsa_recover_compact dlog_curve true (be_split 32 3) sig64 [] 0 1 recid =
      Some (secp256k1_ec_pubkey_create dlog_curve (context_with_blinding dlog_curve 9)
              (be_split 32 6) 1).
Proof.
  assert (E : exists sig64 recid,
             secp256k1_ecdsa_sign_compact dlog_curve counting_rng 1
               (context_with_blinding dlog_curve 5) (be_split 32 3) (be_split 32 6)
               None None = Some (1, sig64, Some recid))
    by (eexists; eexists; vm_compute; reflexivity).
  destruct E as (sig64 & recid & E). exists sig64, recid. split; [exact E|].
  exact (proj1 (proj2 (recover_compact_inverse dlog_curve dlog_curve_laws
                         dlog_curve_point_laws counting_rng 1 _
                         (context_with_blinding dlog_curve 9) true _ _ _ _ _ _ _ [] 0 1
                         (context_with_blinding_built dlog_curve 5)
                         (context_with_blinding_built dlog_curve 9) E
                         ltac:(discriminate)))).
Defined.

(* ----------------------------------------------------------------- *)
(** ** Serialising the public-key object *)

Section SerialiseObject.
Variable C : curve.
Hypothesis L : curve_laws C.
Hypothesis PL : curve_point_laws C.


End SerialiseObject.


(* ----------------------------------------------------------------- *)
(** ** Signing with the default nonce function *)

Section DefaultNonce.
Variable C : curve.

Lemma sign_loop_default_ret (O : rfc6979_hmac_sha256) fuel ctx msg32 seckey noncedata sec msg :
  forall count ret sg,
  secp256k1_ecdsa_sign_loop C fuel ctx (secp256k1_nonce_function_default O) msg32 seckey
    noncedata sec msg count = Some (ret, sg) ->
  ret = 1 /\ sg <> None.
Proof.
  induction fuel as [|fuel IH]; intros count ret sg; [discriminate|].
  cbn [secp256k1_ecdsa_sign_loop].
  unfold secp256k1_nonce_function_default at 1, nonce_function_rfc6979 at 1.
  cbn [Z.eqb].
  destruct (secp256k1_scalar_set_b32 _) as [non overflow].
  destruct (negb (secp256k1_scalar_is_zero non) && negb overflow); [|apply IH].
  destruct (secp256k1_ecdsa_sig_sign C (ecmult_gen_ctx ctx) sec msg non); [|apply IH].
  intros E. inversion E. split; [reflexivity|discriminate].
Qed.

(** X21: with the default nonce function and a capacity of at least 72,
    whenever [secp256k1_ecdsa_sign] returns, it returns what
    [secp256k1_ec_seckey_verify] says of the key: nonce generation and
    space cannot make it fail.  The length written is that of the
    signature, at most 72, and [secp256k1_ecdsa_sign_ex] returns the same
    value. *)
Theorem sign_default_nonce_result (O : rfc6979_hmac_sha256) (fuel : nat)
  (ctx : secp256k1_context_t C) (msg32 seckey : list byte) (siglen : Z)
  (noncedata : option (list byte)) (ret : Z) (sig : list byte) (len : Z) :
  72 <= siglen ->
  secp256k1_ecdsa_sign C O fuel ctx msg32 siglen seckey None noncedata
    = Some (ret, sig, len) ->
  ret = secp256k1_ec_seckey_verify seckey /\
  len = Z.of_nat (length sig) /\ len <= 72 /\
  (exists sig64,
     secp256k1_ecdsa_sign_ex C O fuel ctx msg32 seckey None noncedata = Some (ret, sig64)).
Proof.
  intros Hcap. pose proof secp256k1_n_range as Hn.
  rewrite seckey_verify_eq, <- seckey_valid_dec.
  unfold secp256k1_ecdsa_sign, secp256k1_ecdsa_sign_ex, secp256k1_scalar_set_b32.
  destruct (negb (secp256k1_n <=? be_combine seckey) &&
            negb (secp256k1_scalar_is_zero (be_combine seckey mod secp256k1_n))).
  2: { intros E. apply pair3_inj in E as (<- & <- & <-).
       repeat split; try reflexivity; [lia|]. eexists. reflexivity. }
  destruct (secp256k1_ecdsa_sign_loop _ _ _ _ _ _ _ _ _ _) as [[ret0 sg]|] eqn:Hloop;
    [|discriminate].
  destruct (sign_loop_default_ret _ _ _ _ _ _ _ _ _ _ _ Hloop) as [-> Hsg].
  destruct sg as [sg|]; [|contradiction]. cbn [Z.eqb negb].
  destruct (sign_loop_signature C _ _ _ _ _ _ _ _ _ _ _ Hloop) as (_ & non & _ & Hsign).
  destruct (sig_sign_range C _ _ _ _ _ Hsign) as (Hr & Hs & _).
  pose proof (sig_serialize_capacity 72 sg ltac:(lia) ltac:(lia) ltac:(lia)) as Hc.
  pose proof (sig_serialize_capacity siglen sg ltac:(lia) ltac:(lia) Hcap) as Hc'.
  destruct (secp256k1_ecdsa_sig_serialize siglen sg) as [[ret' bytes] len'] eqn:Hser.
  cbn [fst] in Hc'. subst ret'. cbn [Z.eqb].
  intros E. apply pair3_inj in E as (<- & <- & <-).
  destruct (sig_parse_serialize siglen sg bytes len' ltac:(lia) ltac:(lia) Hser) as [_ Hlen].
  split; [reflexivity|]. split; [exact Hlen|]. split; [|eexists; reflexivity].
  revert Hser. unfold secp256k1_ecdsa_sig_serialize. cbv zeta.
  destruct (der_integer_props (sig_r sg) ltac:(lia)) as (_ & _ & Hlr).
  destruct (der_integer_props (sig_s sg) ltac:(lia)) as (_ & _ & Hls).
  destruct (_ <? _); intros E;
    pose proof (f_equal (fun t => fst (fst t)) E) as E1; pose proof (f_equal snd E) as E2;
    cbn [fst snd] in E1, E2; lia.
Qed.

End DefaultNonce.

(** The property at the key 6 and the message 3. *)
Lemma sign_default_nonce_result_witness :
  exists sig len,
    secp256k1_ecdsa_sign dlog_curve counting_rng 1 (context_with_blinding dlog_curve 5)
      (be_split 32 3) 72 (be_split 32 6) None None = Some (1, sig, len) /\
    secp256k1_ec_seckey_verify (be_split 32 6) = 1 /\ len <= 72.
Proof.
  assert (E : exists sig len,
             secp256k1_ecdsa_sign dlog_curve counting_rng 1
               (context_with_blinding dlog_curve 5) (be_split 32 3) 72 (be_split 32 6)
               None None = Some (1, sig, len))
    by (eexists; eexists; vm_compute; reflexivity).
  destruct E as (sig & len & E). exists sig, len. split; [exact E|].
  destruct (sign_default_nonce_result dlog_curve counting_rng 1 _ _ _ 72 _ _ _ _
              ltac:(lia) E) as (H1 & _ & H3 & _).
  split; [symmetry; exact H1|exact H3].
Defined.

(* ----------------------------------------------------------------- *)
(** ** What a commitment is on the wire *)

Section CommitmentOutput.
Variable C : curve.
Hypothesis L : curve_laws C.

(** X22: [secp256k1_pedersen_commit] returns 0 or 1; on 0, which is the
    result for a blinding factor that is not below n and for a zero value
    under a zero blinding factor, the buffer is untouched; on 1 the 33
    bytes written are accepted by [secp256k1_ec_pubkey_verify] and tally
    against themselves. *)
Theorem pedersen_commit_result (ctx : secp256k1_context_t C) (commit blind : list byte)
  (value : Z) :
  secp256k1_ecmult_gen_context_is_built C (ecmult_gen_ctx ctx) ->
  let ret := fst (secp256k1_pedersen_commit C ctx commit blind value) in
  let out := snd (secp256k1_pedersen_commit C ctx commit blind value) in
  (ret = 1 \/ ret = 0) /\
  (ret = 0 -> out = commit) /\
  (ret = 1 ->
   be_combine blind < secp256k1_n /\ length out = 33%nat /\
   secp256k1_ec_pubkey_verify C out = 1 /\
   secp256k1_pedersen_verify_tally C [out] [out] 0 = 1) /\
  (secp256k1_n <= be_combine blind -> ret = 0) /\
  (be_combine blind = 0 -> value = 0 -> ret = 0).
Proof.
  intros Hctx. cbv zeta. pose proof secp256k1_n_range as Hn.
  destruct (secp256k1_pedersen_commit C ctx commit blind value) as [ret out] eqn:E.
  cbn [fst snd].
  assert (H01 : (ret = 1 \/ ret = 0) /\ (ret = 0 -> out = commit)).
  { revert E. unfold secp256k1_pedersen_commit.
    destruct (secp256k1_scalar_set_b32 blind) as [sec overflow].
    destruct (negb overflow); [|intros E; inversion E; auto].
    destruct (negb (ge_is_infinity C _)); [|intros E; inversion E; auto].
    destruct (secp256k1_eckey_pubkey_serialize C _ 1); intros E; inversion E; auto.
    split; [auto|discriminate]. }
  destruct H01 as [H01 Hbuf]. split; [exact H01|]. split; [exact Hbuf|].
  split; [|split].
  - intros ->.
    destruct (pedersen_commit_success C L _ _ _ _ _ Hctx E) as [Hb Hp].
    split; [exact Hb|].
    assert (Hlen : length out = 33%nat).
    { revert E. unfold secp256k1_pedersen_commit.
      destruct (secp256k1_scalar_set_b32 blind) as [sec overflow].
      destruct (negb overflow); [|discriminate].
      destruct (negb (ge_is_infinity C _)); [|discriminate].
      destruct (secp256k1_eckey_pubkey_serialize C _ 1) as [o|] eqn:Hser; [|discriminate].
      intros E. assert (o = out) as -> by congruence.
      exact (proj1 (proj2 (pubkey_serialize_length C _ _ _ Hser))). }
    split; [exact Hlen|].
    rewrite firstn_all2 in Hp by (rewrite Hlen; apply Nat.le_refl).
    unfold secp256k1_ec_pubkey_verify. rewrite Hp. split; [reflexivity|].
    pose proof (pubkey_parse_valid C L _ _ Hp) as V.
    pose proof (valid_in_group C _ V) as Hg.
    unfold secp256k1_pedersen_verify_tally. cbn [Z.eqb negb secp256k1_pedersen_tally_loop].
    cbv zeta. rewrite firstn_all2 by (rewrite Hlen; apply Nat.le_refl).
    rewrite Hp. rewrite (add_infinity_l C L) by exact Hg.
    rewrite (add_neg_l C L) by exact Hg.
    rewrite (proj2 (is_infinity_spec C L _) eq_refl). reflexivity.
  - intros Hov. revert E. unfold secp256k1_pedersen_commit, secp256k1_scalar_set_b32.
    destruct (Z.leb_spec secp256k1_n (be_combine blind)); [|lia]. cbn [negb].
    intros E. congruence.
  - intros Hb Hv. revert E.
    unfold secp256k1_pedersen_commit, secp256k1_scalar_set_b32, secp256k1_ecmult_gen_gen2.
    rewrite Hb, Hv. destruct (Z.leb_spec secp256k1_n 0); [lia|]. cbn [negb].
    rewrite Z.mod_0_l by lia.
    rewrite (ecmult_gen_spec C L) by (assumption || lia). cbn [ge_mul].
    rewrite (add_infinity_l C L) by auto with ge_group.
    rewrite (proj2 (is_infinity_spec C L _) eq_refl). cbn [negb]. intros E. congruence.
Qed.

End CommitmentOutput.

(** The property at the commitment to 10 under the factor 3, and at the
    zero commitment. *)
Lemma pedersen_commit_result_witness :
  let ctx := context_with_blinding dlog_curve 5 in
  fst (secp256k1_pedersen_commit dlog_curve ctx [] (be_split 32 3) 10) = 1 /\
  secp256k1_ec_pubkey_verify dlog_curve
    (snd (secp256k1_pedersen_commit dlog_curve ctx [] (be_split 32 3) 10)) = 1 /\
  fst (secp256k1_pedersen_commit dlog_curve ctx [] (be_split 32 0) 0) = 0.
Proof.
  cbv zeta.
  pose proof (pedersen_commit_result dlog_curve dlog_curve_laws
                (context_with_blinding dlog_curve 5) [] (be_split 32 3) 10
                (context_with_blinding_built dlog_curve 5)) as H1.
  pose proof (pedersen_commit_result dlog_curve dlog_curve_laws
                (context_with_blinding dlog_curve 5) [] (be_split 32 0) 0
                (context_with_blinding_built dlog_curve 5)) as H0.
  cbv zeta in H1, H0.
  destruct H1 as (_ & _ & H1 & _). destruct H0 as (_ & _ & _ & _ & H0).
  assert (E : fst (secp256k1_pedersen_commit dlog_curve (context_with_blinding dlog_curve 5)
                     [] (be_split 32 3) 10) = 1) by (vm_compute; reflexivity).
  split; [exact E|]. split; [exact (proj1 (proj2 (proj2 (H1 E))))|].
  apply H0; vm_compute; reflexivity.
Defined.

(* ----------------------------------------------------------------- *)
(** ** The attempts of the signing loop *)

Section Attempts.
Variable C : curve.

Lemma sign_loop_shift fuel ctx (f : secp256k1_nonce_function_t) msg32 seckey noncedata
  sec msg : forall count,
  secp256k1_ecdsa_sign_loop C fuel ctx f msg32 seckey noncedata sec msg
    ((count + 1) mod 2 ^ 32) =
  secp256k1_ecdsa_sign_loop C fuel ctx
    (fun m k c d => f m k ((c + 1) mod 2 ^ 32) d) msg32 seckey noncedata sec msg count.
Proof.
  induction fuel as [|fuel IH]; intros count; [reflexivity|].
  cbn [secp256k1_ecdsa_sign_loop].
  destruct (f msg32 seckey ((count + 1) mod 2 ^ 32) noncedata) as [ret nonce32].
  destruct (ret =? 0); [reflexivity|].
  destruct (secp256k1_scalar_set_b32 nonce32) as [non overflow].
  destruct (negb (secp256k1_scalar_is_zero non) && negb overflow); [|apply IH].
  destruct (secp256k1_ecdsa_sig_sign C (ecmult_gen_ctx ctx) sec msg non); [reflexivity|].
  apply IH.
Qed.

(** X23: the attempts of the signing loop.  When the nonce function
    returns 0 at attempt 0, [secp256k1_ecdsa_sign] and
    [secp256k1_ecdsa_sign_ex] fail at once with cleared outputs; when it
    returns a nonce that is zero or not below n, that attempt is skipped:
    the call behaves as one that starts at attempt 1, the counter wrapping
    at 2^32. *)
Theorem sign_attempts (O : rfc6979_hmac_sha256) (fuel : nat)
  (ctx : secp256k1_context_t C) (msg32 seckey : list byte) (siglen : Z)
  (f : secp256k1_nonce_function_t) (noncedata : option (list byte)) :
  0 < be_combine seckey < secp256k1_n ->
  let ret0 := fst (f msg32 seckey 0 noncedata) in
  let nonce0 := be_combine (snd (f msg32 seckey 0 noncedata)) in
  let next : secp256k1_nonce_function_t := fun m k c d => f m k ((c + 1) mod 2 ^ 32) d in
  (ret0 = 0 ->
   secp256k1_ecdsa_sign C O (S fuel) ctx msg32 siglen seckey (Some f) noncedata
     = Some (0, [], 0) /\
   secp256k1_ecdsa_sign_ex C O (S fuel) ctx msg32 seckey (Some f) noncedata
     = Some (0, repeat Byte.x00 64)) /\
  (ret0 <> 0 -> nonce0 = 0 \/ secp256k1_n <= nonce0 ->
   secp256k1_ecdsa_sign C O (S fuel) ctx msg32 siglen seckey (Some f) noncedata =
     secp256k1_ecdsa_sign C O fuel ctx msg32 siglen seckey (Some next) noncedata /\
   secp256k1_ecdsa_sign_ex C O (S fuel) ctx msg32 seckey (Some f) noncedata =
     secp256k1_ecdsa_sign_ex C O fuel ctx msg32 seckey (Some next) noncedata).
Proof.
  intros Hd. cbv zeta. pose proof secp256k1_n_range as Hn.
  unfold secp256k1_ecdsa_sign, secp256k1_ecdsa_sign_ex.
  destruct (secp256k1_scalar_set_b32 seckey) as [sec overflow] eqn:Hk.
  assert (Hc : negb overflow && negb (secp256k1_scalar_is_zero sec) = true).
  { unfold secp256k1_scalar_set_b32 in Hk.
    assert (sec = be_combine seckey mod secp256k1_n /\
            overflow = (secp256k1_n <=? be_combine seckey)) as [-> ->]
      by (inversion Hk; auto).
    rewrite seckey_valid_dec.
    destruct (Z.ltb_spec 0 (be_combine seckey)); [|lia].
    destruct (Z.ltb_spec (be_combine seckey) secp256k1_n); [|lia]. reflexivity. }
  rewrite Hc. cbn [secp256k1_ecdsa_sign_loop].
  destruct (f msg32 seckey 0 noncedata) as [ret nonce32]. cbn [fst snd].
  split.
  - intros ->. cbn [Z.eqb]. split; reflexivity.
  - intros Hret Hnonce. destruct (Z.eqb_spec ret 0); [contradiction|].
    pose proof (be_combine_range nonce32) as Hr.
    assert (Hcond : (let '(non, overflow) := secp256k1_scalar_set_b32 nonce32 in
                     negb (secp256k1_scalar_is_zero non) && negb overflow) = false).
    { unfold secp256k1_scalar_set_b32, secp256k1_scalar_is_zero.
      destruct Hnonce as [-> | Hov].
      - rewrite Z.mod_0_l by lia. reflexivity.
      - destruct (Z.leb_spec secp256k1_n (be_combine nonce32)); [|lia].
        apply andb_false_r. }
    destruct (secp256k1_scalar_set_b32 nonce32) as [non overflow'].
    rewrite Hcond.
    rewrite !(sign_loop_shift fuel ctx f msg32 seckey noncedata _ _ 0).
    split; reflexivity.
Qed.

End Attempts.

(** A nonce function that returns the attempt counter: attempt 0 gives the
    nonce 0 and is skipped. *)
Lemma sign_attempts_witness :
  let f : secp256k1_nonce_function_t := fun m k c d => (1, be_split 32 c) in
  secp256k1_ecdsa_sign_ex dlog_curve counting_rng 2 (context_with_blinding dlog_curve 5)
    (be_split 32 3) (be_split 32 6) (Some f) None =
  secp256k1_ecdsa_sign_ex dlog_curve counting_rng 1 (context_with_blinding dlog_curve 5)
    (be_split 32 3) (be_split 32 6)
    (Some (fun m k c d => f m k ((c + 1) mod 2 ^ 32) d)) None.
Proof.
  cbv zeta.
  refine (proj2 (proj2 (sign_attempts dlog_curve counting_rng 1
                          (context_with_blinding dlog_curve 5) (be_split 32 3)
                          (be_split 32 6) 72 (fun m k c d => (1, be_split 32 c)) None _)
                   _ _)).
  - vm_compute. split; reflexivity.
  - vm_compute. discriminate.
  - left. vm_compute. reflexivity.
Defined.

(* ----------------------------------------------------------------- *)
(** ** What recovery returns *)

Section RecoveryResult.
Variable C : curve.
Hypothesis L : curve_laws C.

Lemma sig_recover_valid sg m recid q :
  secp256k1_ecdsa_sig_recover C sg m recid = Some q -> ge_is_valid_var C q = true.
Proof.
  unfold secp256k1_ecdsa_sig_recover.
  destruct (secp256k1_p <=? _); [discriminate|].
  destruct (ge_set_xo_var C _ _) as [x|] eqn:Hxo; [|discriminate].
  pose proof (set_xo_valid C L _ _ _ Hxo) as V.
  destruct (ge_is_infinity C (secp256k1_ecmult C x _ _)) eqn:Hinf; [discriminate|].
  intros E. injection E as <-.
  apply (not_infinity_valid C L).
  - unfold secp256k1_ecmult. apply (ge_add_in_group C L); apply (ge_mul_in_group C L);
      auto using valid_in_group with ge_group.
  - intros E. apply (is_infinity_spec C L) in E. congruence.
Qed.

(** X24: [secp256k1_ecdsa_recover_compact] gives no result exactly when the
    argument check is compiled in and [recid] is outside 0..3.  Otherwise it
    returns 0 and leaves [pubkey] and [pubkeylen] as they were, or it returns
    1, and then both halves of the signature are below the group order, the
    key written has 33 or 65 bytes as [compressed] asks, the length written
    is that number, and [secp256k1_ec_pubkey_verify] accepts the key.  A
    signature with an overflowing half always gives 0. *)
Theorem recover_compact_result (debug : bool) (msg32 sig64 pubkey : list byte)
  (pubkeylen compressed recid : Z) :
  let r := be_combine (firstn 32 sig64) in
  let s := be_combine (firstn 32 (skipn 32 sig64)) in
  let res := secp256k1_ecdsa_recover_compact C debug msg32 sig64 pubkey pubkeylen
               compressed recid in
  (res = None <-> debug = true /\ ~ 0 <= recid <= 3) /\
  (forall ret out len, res = Some (ret, out, len) ->
     (ret = 0 /\ out = pubkey /\ len = pubkeylen) \/
     (ret = 1 /\ r < secp256k1_n /\ s < secp256k1_n /\
      len = Z.of_nat (length out) /\ len = (if compressed =? 0 then 65 else 33) /\
      secp256k1_ec_pubkey_verify C out = 1)) /\
  (secp256k1_n <= r \/ secp256k1_n <= s -> res <> None ->
   res = Some (0, pubkey, pubkeylen)).
Proof.
  cbv zeta. unfold secp256k1_ecdsa_recover_compact, secp256k1_scalar_set_b32.
  set (r := be_combine (firstn 32 sig64)). set (s := be_combine (firstn 32 (skipn 32 sig64))).
  set (inner := if negb (secp256k1_n <=? r) then _ else _).
  assert (Hinner : exists ret out len,
             inner = Some (ret, out, len) /\
             ((ret = 0 /\ out = pubkey /\ len = pubkeylen) \/
              (ret = 1 /\ r < secp256k1_n /\ s < secp256k1_n /\
               len = Z.of_nat (length out) /\ len = (if compressed =? 0 then 65 else 33) /\
               secp256k1_ec_pubkey_verify C out = 1)) /\
             (secp256k1_n <= r \/ secp256k1_n <= s -> ret = 0)).
  { subst inner.
    destruct (Z.leb_spec secp256k1_n r) as [Hr|Hr]; cbn [negb];
      [exists 0, pubkey, pubkeylen; split;
       [reflexivity|split; [left; repeat split|intros _; reflexivity]]|].
    destruct (Z.leb_spec secp256k1_n s) as [Hs|Hs]; cbn [negb];
      [exists 0, pubkey, pubkeylen; split;
       [reflexivity|split; [left; repeat split|intros _; reflexivity]]|].
    destruct (secp256k1_ecdsa_sig_recover C _ _ recid) as [q|] eqn:Hrec;
      [|exists 0, pubkey, pubkeylen; split;
       [reflexivity|split; [left; repeat split|intros _; reflexivity]]].
    pose proof (sig_recover_valid _ _ _ _ Hrec) as V.
    destruct (secp256k1_eckey_pubkey_serialize C q compressed) as [o|] eqn:Hser;
      [|exists 0, pubkey, pubkeylen; split;
       [reflexivity|split; [left; repeat split|intros _; reflexivity]]].
    exists 1, o, (Z.of_nat (length o)). split; [reflexivity|]. split; [|lia].
    right. destruct (pubkey_serialize_length C _ _ _ Hser) as (_ & Hlen & _).
    repeat split; try assumption.
    - rewrite Hlen. destruct (compressed =? 0); reflexivity.
    - unfold secp256k1_ec_pubkey_verify.
      rewrite (pubkey_serialize_parse C L _ _ _ V Hser). reflexivity. }
  destruct Hinner as (ret0 & out0 & len0 & Hi & Hcases & Hov).
  destruct (debug && negb ((0 <=? recid) && (recid <=? 3))) eqn:Hchk.
  - apply andb_true_iff in Hchk as [-> Hrange]. apply negb_true_iff in Hrange.
    assert (Hnot : ~ 0 <= recid <= 3).
    { intros [H0 H3]. apply Z.leb_le in H0, H3. rewrite H0, H3 in Hrange. discriminate. }
    split; [split; auto|]. split; [discriminate|]. intros _ H. contradiction.
  - rewrite Hi. split; [split; [discriminate|]|].
    + intros [-> Hnot]. cbn [andb] in Hchk. apply negb_false_iff in Hchk.
      apply andb_true_iff in Hchk as [H0 H3]. apply Z.leb_le in H0, H3. lia.
    + split.
      * intros ret out len E. apply pair3_inj in E as (<- & <- & <-). exact Hcases.
      * intros H _. destruct Hcases as [(-> & -> & ->)|(-> & _)]; [reflexivity|].
        specialize (Hov H). discriminate.
Qed.

(** X25: on a point that [secp256k1_ec_pubkey_verify] accepts and a scalar
    below the group order, [secp256k1_ec_pubkey_tweak_mul] returns the value
    and writes the bytes that [secp256k1_point_multiply] does; both return 0
    and leave the point in place for the scalar zero. *)
Theorem point_multiply_is_tweak_mul (verify : bool) (point scalar : list byte) :
  be_combine scalar < secp256k1_n ->
  secp256k1_ec_pubkey_verify C point = 1 ->
  secp256k1_ec_pubkey_tweak_mul C verify point scalar =
    Some (fst (fst (secp256k1_point_multiply C point scalar)),
          snd (fst (secp256k1_point_multiply C point scalar))).
Proof.
  intros Hs Hv. pose proof secp256k1_n_range as Hn.
  pose proof (be_combine_range scalar) as Hr.
  revert Hv.
  unfold secp256k1_ec_pubkey_verify, secp256k1_ec_pubkey_tweak_mul, secp256k1_point_multiply,
    secp256k1_scalar_set_b32, secp256k1_eckey_pubkey_tweak_mul,
    secp256k1_ecdh_point_multiply, secp256k1_scalar_is_zero.
  destruct (secp256k1_eckey_pubkey_parse C point) as [p|] eqn:P; [|discriminate].
  intros _. pose proof (pubkey_parse_valid C L _ _ P) as V.
  destruct (Z.leb_spec secp256k1_n (be_combine scalar)); [lia|]. cbn [negb].
  rewrite Z.mod_small by lia.
  destruct (Z.eqb_spec (be_combine scalar) 0) as [E|E]; cbn [Z.eqb negb].
  - rewrite E. cbn [ge_mul]. unfold secp256k1_eckey_pubkey_serialize.
    rewrite (proj2 (is_infinity_spec C L _) eq_refl). reflexivity.
  - assert (Hm : secp256k1_ecmult C p (be_combine scalar) (secp256k1_scalar_set_int 0) =
                 ge_mul C (be_combine scalar) p).
    { unfold secp256k1_ecmult, secp256k1_scalar_set_int. rewrite Z.mod_0_l by lia.
      cbn [ge_mul]. apply (add_infinity_r C L). apply (ge_mul_in_group C L).
      apply valid_in_group. exact V. }
    rewrite Hm.
    destruct (secp256k1_eckey_pubkey_serialize C _ _) as [out|] eqn:Hser; [|reflexivity].
    rewrite (pubkey_reserialize_length C _ _ _ _ P Hser), Z.eqb_refl, andb_false_r.
    reflexivity.
Qed.

End RecoveryResult.

(** The property at a signature whose first half is the group order, and at
    the recovery id 4. *)
Lemma recover_compact_result_witness :
  secp256k1_ecdsa_recover_compact dlog_curve true (be_split 32 3)
    (be_split 32 secp256k1_n ++ be_split 32 1) [] 0 1 0 = Some (0, [], 0) /\
  secp256k1_ecdsa_recover_compact dlog_curve true (be_split 32 3)
    (be_split 32 1 ++ be_split 32 1) [] 0 1 4 = None.
Proof.
  pose proof (recover_compact_result dlog_curve dlog_curve_laws true (be_split 32 3)
                (be_split 32 secp256k1_n ++ be_split 32 1) [] 0 1 0) as H1.
  pose proof (recover_compact_result dlog_curve dlog_curve_laws true (be_split 32 3)
                (be_split 32 1 ++ be_split 32 1) [] 0 1 4) as H2.
  cbv zeta in H1, H2.
  destruct H1 as (_ & _ & H1). destruct H2 as (H2 & _).
  split.
  - apply H1; [left; vm_compute; discriminate|vm_compute; discriminate].
  - apply H2. split; [reflexivity|]. intros [_ H]. vm_compute in H. apply H. reflexivity.
Defined.

(** The property at the point of discrete logarithm 4 and the scalar 3. *)
Lemma point_multiply_is_tweak_mul_witness :
  secp256k1_ec_pubkey_tweak_mul dlog_curve true (Byte.x02 :: be_split 32 4) (be_split 32 3) =
    Some (1, snd (fst (secp256k1_point_multiply dlog_curve (Byte.x02 :: be_split 32 4)
                         (be_split 32 3)))).
Proof.
  rewrite (point_multiply_is_tweak_mul dlog_curve dlog_curve_laws true
             (Byte.x02 :: be_split 32 4) (be_split 32 3));
    [|vm_compute; reflexivity|vm_compute; reflexivity].
  f_equal; f_equal; vm_compute; reflexivity.
Defined.

(* ----------------------------------------------------------------- *)
(** ** Normalisation and the negated signature *)

(** X26: a signature (r, s) that [secp256k1_ecdsa_verify_ex] accepts has a
    nonzero s in the lower half, so [secp256k1_ecdsa_signature_normalize]
    returns 0 on it.  Its negation (r, n - s) is rejected by
    [secp256k1_ecdsa_verify_ex] for the same message and key; normalising the
    negation returns 1 and writes a signature that loads as (r, s) again and
    is accepted. *)
Theorem normalize_restores_signature (C : curve) (debug : bool)
  (sig msg32 pubkey sigout : list byte) :
  secp256k1_ecdsa_verify_ex C debug sig msg32 pubkey = Some 1 ->
  let r := fst (secp256k1_ecdsa_signature_load sig) in
  let s := snd (secp256k1_ecdsa_signature_load sig) in
  let twin := secp256k1_ecdsa_signature_save r (secp256k1_n - s) in
  0 < s /\
  secp256k1_ecdsa_signature_load twin = (r, secp256k1_n - s) /\
  secp256k1_ecdsa_verify_ex C debug twin msg32 pubkey = Some 0 /\
  fst (secp256k1_ecdsa_signature_normalize (Some sigout) sig) = 0 /\
  exists out,
    secp256k1_ecdsa_signature_normalize (Some sigout) twin = (1, Some out) /\
    secp256k1_ecdsa_signature_load out = (r, s) /\
    secp256k1_ecdsa_verify_ex C debug out msg32 pubkey = Some 1.
Proof.
  intros Hv. cbv zeta. pose proof secp256k1_n_range as Hn. pose proof secp256k1_n_odd as Ho.
  destruct (signature_load_range sig) as [Hr Hs].
  destruct (secp256k1_ecdsa_signature_load sig) as [r s] eqn:Hload. cbn [fst snd] in *.
  (* an accepted signature has a nonzero s in the lower half *)
  assert (Hlow : secp256k1_scalar_is_high s = false /\ s <> 0).
  { revert Hv. unfold secp256k1_ecdsa_verify_ex. rewrite Hload. cbn [sig_s].
    destruct (secp256k1_scalar_is_high s); cbn [negb]; [discriminate|].
    destruct (secp256k1_pubkey_load C debug pubkey) as [[l q]|]; [|discriminate].
    unfold secp256k1_ecdsa_sig_verify, secp256k1_scalar_is_zero. cbn [sig_r sig_s].
    destruct (Z.eqb_spec s 0) as [->|Hnz]; [|intros _; split; [reflexivity|assumption]].
    rewrite orb_true_r, andb_false_r. discriminate. }
  destruct Hlow as [Hlow Hnz].
  assert (Hhigh : secp256k1_scalar_is_high (secp256k1_n - s) = true).
  { unfold secp256k1_scalar_is_high in *. apply Z.leb_gt in Hlow. apply Z.leb_le. lia. }
  assert (Htwin : secp256k1_ecdsa_signature_load
                    (secp256k1_ecdsa_signature_save r (secp256k1_n - s)) =
                  (r, secp256k1_n - s)) by (apply signature_load_save; lia).
  split; [lia|]. split; [exact Htwin|].
  split.
  { unfold secp256k1_ecdsa_verify_ex. rewrite Htwin. cbn [sig_s]. rewrite Hhigh.
    reflexivity. }
  split.
  { unfold secp256k1_ecdsa_signature_normalize. rewrite Hload, Hlow. reflexivity. }
  unfold secp256k1_ecdsa_signature_normalize. rewrite Htwin, Hhigh. cbn [Z.eqb negb].
  eexists. split; [reflexivity|].
  assert (Hneg : secp256k1_scalar_negate (secp256k1_n - s) = s).
  { unfold secp256k1_scalar_negate.
    replace (- (secp256k1_n - s)) with (s + (- 1) * secp256k1_n) by ring.
    rewrite Z.mod_add by lia. apply Z.mod_small. lia. }
  rewrite Hneg.
  assert (Hout : secp256k1_ecdsa_signature_load (secp256k1_ecdsa_signature_save r s) = (r, s))
    by (apply signature_load_save; lia).
  split; [exact Hout|].
  revert Hv. unfold secp256k1_ecdsa_verify_ex. rewrite Hload, Hout. intros Hv; exact Hv.
Qed.

(** The property at the signature of the message 3 under the key 6. *)
Lemma normalize_restores_signature_witness :
  exists sig64 out,
    secp256k1_ecdsa_sign_ex dlog_curve counting_rng 1 (context_with_blinding dlog_curve 5)
      (be_split 32 3) (be_split 32 6) None None = Some (1, sig64) /\
    secp256k1_ecdsa_signature_normalize (Some [])
      (secp256k1_ecdsa_signature_save (fst (secp256k1_ecdsa_signature_load sig64))
         (secp256k1_n - snd (secp256k1_ecdsa_signature_load sig64))) = (1, Some out) /\
    secp256k1_ecdsa_verify_ex dlog_curve true out (be_split 32 3)
      (secp256k1_pubkey_save dlog_curve 6) = Some 1.
Proof.
  assert (E : exists sig64,
             secp256k1_ecdsa_sign_ex dlog_curve counting_rng 1
               (context_with_blinding dlog_curve 5) (be_split 32 3) (be_split 32 6)
               None None = Some (1, sig64) /\
             secp256k1_ecdsa_verify_ex dlog_curve true sig64 (be_split 32 3)
               (secp256k1_pubkey_save dlog_curve 6) = Some 1)
    by (eexists; split; [vm_compute; reflexivity|vm_compute; reflexivity]).
  destruct E as (sig64 & E & Hv).
  destruct (normalize_restores_signature dlog_curve true sig64 (be_split 32 3)
              (secp256k1_pubkey_save dlog_curve 6) [] Hv)
    as (_ & _ & _ & _ & out & Hn & _ & Hv').
  exists sig64, out. split; [exact E|]. split; [exact Hn|exact Hv'].
Defined.
